(** * Agent relay watcher (scripts/local-relay/watcher-github.js)

    A shallow embedding of the dual-channel watch-and-dedup engine: the
    local marker-file check ([handleLocalFlag]), its debounce timer
    ([debounceLocalHandle]), the fallback scan, the remote poller
    ([fetchGitHubFile], [pollGitHub]) and the dispatcher
    ([triggerNotification]).

    Conventions of the embedding.
    - JavaScript strings are represented by their UTF-8 bytes ([string]).
    - [stat.mtimeMs] is a finite double; every finite double is a rational,
      and the code only stores and compares it, so it is a [Q] here.
    - A parsed JSON body is a [Json] value; the fingerprint read from it is
      whatever [data.sha] yields, a string for a file of the contents API.
    - The three module-level [Map]s are [gmap]s inside [World].
    - A function body is a computation [Js A]: it threads the [World]
      (the maps, the timer table of the runtime and the chronological list
      of effects) and completes normally, by [return]/[continue], or by a
      thrown error.
    - What the outside world answers to an [await] (stat, readFile, fetch)
      is an explicit argument of the function that awaits it.  An async
      function whose promise nobody awaits is a task of the event loop:
      it advances by one segment of its body each time an awaited answer
      arrives, and the segments of different tasks interleave. *)

From stdpp Require Import gmap strings list fin_maps.
From Stdlib Require Import QArith Qcanon Lqa ZArith Ascii String.

Local Close Scope Qc_scope.
Local Close Scope Q_scope.
Local Open Scope string_scope.
Local Open Scope list_scope.

(* ===================================================================== *)
(** ** Strings *)
(* ===================================================================== *)

Module Str.

Definition byte (n : nat) : ascii := ascii_of_nat n.

(** ECMAScript WhiteSpace and LineTerminator code points, by the length
    of their UTF-8 encoding. *)
Definition is_ws1 (a : ascii) : bool :=
  let n := nat_of_ascii a in
  (Nat.leb 9 n && Nat.leb n 13) || Nat.eqb n 32.

(** U+00A0 *)
Definition is_ws2 (a b : ascii) : bool :=
  Nat.eqb (nat_of_ascii a) 194 && Nat.eqb (nat_of_ascii b) 160.

(** U+1680, U+2000..U+200A, U+2028, U+2029, U+202F, U+205F, U+3000,
    U+FEFF *)
Definition is_ws3 (a b c : ascii) : bool :=
  let x := nat_of_ascii a in
  let y := nat_of_ascii b in
  let z := nat_of_ascii c in
  (Nat.eqb x 225 && Nat.eqb y 154 && Nat.eqb z 128)
  || (Nat.eqb x 226 && Nat.eqb y 128 &&
      ((Nat.leb 128 z && Nat.leb z 138) || Nat.eqb z 168 || Nat.eqb z 169
       || Nat.eqb z 175))
  || (Nat.eqb x 226 && Nat.eqb y 129 && Nat.eqb z 159)
  || (Nat.eqb x 227 && Nat.eqb y 128 && Nat.eqb z 128)
  || (Nat.eqb x 239 && Nat.eqb y 187 && Nat.eqb z 191).

(** [String.prototype.trimStart] *)
Fixpoint trimStart (s : string) : string :=
  match s with
  | EmptyString => s
  | String a s1 =>
      if is_ws1 a then trimStart s1 else
      match s1 with
      | EmptyString => s
      | String b s2 =>
          if is_ws2 a b then trimStart s2 else
          match s2 with
          | EmptyString => s
          | String c s3 => if is_ws3 a b c then trimStart s3 else s
          end
      end
  end.

(** The same scan over the reversed bytes: the encodings are read
    backwards. *)
Fixpoint trimStartRev (s : string) : string :=
  match s with
  | EmptyString => s
  | String a s1 =>
      if is_ws1 a then trimStartRev s1 else
      match s1 with
      | EmptyString => s
      | String b s2 =>
          if is_ws2 b a then trimStartRev s2 else
          match s2 with
          | EmptyString => s
          | String c s3 => if is_ws3 c b a then trimStartRev s3 else s
          end
      end
  end.

Definition rev (s : string) : string :=
  string_of_list_ascii (List.rev (list_ascii_of_string s)).

(** [String.prototype.trimEnd] *)
Definition trimEnd (s : string) : string := rev (trimStartRev (rev s)).

(** [String.prototype.trim] *)
Definition trim (s : string) : string := trimEnd (trimStart s).

(** [String.prototype.toUpperCase], on the ASCII letters (the agents of
    the registry are ASCII). *)
Definition upper_ascii (a : ascii) : ascii :=
  let n := nat_of_ascii a in
  if Nat.leb 97 n && Nat.leb n 122 then ascii_of_nat (n - 32) else a.

Fixpoint toUpperCase (s : string) : string :=
  match s with
  | EmptyString => EmptyString
  | String a r => String (upper_ascii a) (toUpperCase r)
  end.

(** [String.prototype.slice(0, n)] *)
Definition slice0 (n : nat) (s : string) : string := String.substring 0 n s.

(** JavaScript truthiness of a string. *)
Definition truthy (s : string) : bool := negb (String.eqb s "").

Definition includes (needle hay : string) : Prop :=
  exists pre post, hay = pre +:+ needle +:+ post.

Definition endsWith (suffix s : string) : Prop :=
  exists pre, s = pre +:+ suffix.

Definition startsWith (prefix s : string) : Prop :=
  exists post, s = prefix +:+ post.

End Str.

(* ===================================================================== *)
(** ** Data model *)
(* ===================================================================== *)

(** An entry of [TARGETS]. *)
Record Target := mkTarget {
  name : string;
  agent : string;
  notifyFor : string;
}.

Definition TARGETS : list Target :=
  [ mkTarget "notify-cascade" "Cascade" "Replit";
    mkTarget "notify-replit" "Replit" "Cascade" ].

Definition GITHUB_REPO : string := "asume21/Agent-bridge".
Definition GITHUB_BRANCH : string := "main".
Definition POLL_GITHUB_MS : Z := 10000.
Definition debounceMs : Z := 750.
Definition localPollMs : Z := 5000.

(** A thrown JavaScript error: [err.code] (absent on most errors) and
    [err.message]. *)
Record JsError := mkError {
  err_code : option string;
  err_message : string;
}.

#[global] Instance Target_eq_dec : EqDecision Target.
Proof. solve_decision. Defined.


(** What [await fs.stat(filePath)] and [await fs.readFile(filePath, "utf-8")]
    can answer. *)
Inductive StatResult :=
| StatOk (mtimeMs : Q)
| StatErr (e : JsError).

Inductive ReadResult :=
| ReadOk (text : string)
| ReadErr (e : JsError).

Record LocalIO := mkLocalIO {
  io_stat : StatResult;
  io_read : ReadResult;
}.

(** A value read from a parsed JSON body: what [JSON.parse] produces, and
    [undefined] for a property that is absent.  A number is a finite
    double, hence a rational (a literal beyond the range of the doubles
    parses to an infinity, which behaves here as any other number that is
    not zero). *)
#[warnings="-register-all"] Inductive Json :=
| JUndefined
| JNull
| JBool (b : bool)
| JNum (n : Qc)
| JStr (s : string)
| JArr (items : list Json)
| JObj (fields : list (string * Json)).

(** What [await response.json()] can answer: reading or parsing the body
    throws, or the body parses to a value. *)
Inductive JsonBody :=
| BodyErr (e : JsError)
| BodyJson (data : Json).

Record Response := mkResponse {
  ok : bool;
  json : JsonBody;
}.

(** What [await fetch(url, ...)] can answer. *)
Inductive FetchOutcome :=
| FetchErr (e : JsError)
| FetchResponse (r : Response).

(** The object returned by [fetchGitHubFile]: [sha] is [data.sha] as it
    is, [content] is a string. *)
Record GitHubFile := mkFile {
  file_sha : Json;
  file_content : string;
}.

(** A pending [setTimeout] of the runtime; the callbacks of this program
    differ only in the target they close over. *)
Record Timeout := mkTimeout {
  tm_id : nat;
  tm_due : Z;
  tm_target : Target;
}.

(** [handleLocalFlag] suspends at [await fs.stat] and at [await fs.readFile];
    between two suspensions its code runs without interruption.  A check in
    flight is at one of these two points, or over. *)
Inductive LocalTask :=
| AwaitStat (target : Target)
| AwaitRead (target : Target)
| Over.

(** Observable actions, in the order they happen.  [TriggerNotification]
    marks the call of [triggerNotification]; [CopyClipboard] and
    [NotifyDesktop] the calls of the two transports.  [DispatcherEntered] is
    no action of the program: it records the two marker maps as they are
    when [triggerNotification] is entered, so that a statement can speak of
    the state in which a dispatch happens. *)
Inductive Effect :=
| SetLastHandled (filePath : string) (mtimeMs : Q)
| SetLastGitHubSha (key : string) (sha : Json)
| DispatcherEntered (handled : gmap string Q) (shas : gmap string Json)
| TriggerNotification (fromAgent context : string)
| CopyClipboard (text : string)
| NotifyDesktop (message : string)
| ConsoleLog (line : string)
| ConsoleError (line : string).

Record World := mkWorld {
  lastHandled : gmap string Q;
  lastGitHubSha : gmap string Json;
  timers : gmap string nat;
  (* the runtime *)
  now : Z;
  nextTimerId : nat;
  pendingTimeouts : list Timeout;
  (* the log *)
  effects : list Effect;
}.

(** The module-level state when the script is loaded. *)
Definition initialWorld : World :=
  mkWorld ∅ ∅ ∅ 0 0 [] [].

Definition with_lastHandled (f : gmap string Q → gmap string Q) (w : World) : World :=
  mkWorld (f (lastHandled w)) (lastGitHubSha w) (timers w)
          (now w) (nextTimerId w) (pendingTimeouts w) (effects w).

Definition with_lastGitHubSha (f : gmap string Json → gmap string Json)
    (w : World) : World :=
  mkWorld (lastHandled w) (f (lastGitHubSha w)) (timers w)
          (now w) (nextTimerId w) (pendingTimeouts w) (effects w).

Definition with_timers (f : gmap string nat → gmap string nat) (w : World) : World :=
  mkWorld (lastHandled w) (lastGitHubSha w) (f (timers w))
          (now w) (nextTimerId w) (pendingTimeouts w) (effects w).

Definition with_now (t : Z) (w : World) : World :=
  mkWorld (lastHandled w) (lastGitHubSha w) (timers w)
          t (nextTimerId w) (pendingTimeouts w) (effects w).

Definition with_pending (f : list Timeout → list Timeout) (n : nat) (w : World) : World :=
  mkWorld (lastHandled w) (lastGitHubSha w) (timers w)
          (now w) n (f (pendingTimeouts w)) (effects w).

Definition with_effect (e : Effect) (w : World) : World :=
  mkWorld (lastHandled w) (lastGitHubSha w) (timers w)
          (now w) (nextTimerId w) (pendingTimeouts w) (effects w ++ [e]).

(* ===================================================================== *)
(** ** Computations *)
(* ===================================================================== *)

(** How a block of statements ends: it falls through with a value, leaves
    the enclosing function or loop body ([return;], [continue;]), or
    throws. *)
Inductive Completion (A : Type) : Type :=
| Normal (a : A)
| Leave
| Throw (e : JsError).
Arguments Normal {A} a.
Arguments Leave {A}.
Arguments Throw {A} e.

Definition Js (A : Type) : Type := World → Completion A * World.

#[global] Instance Js_ret : MRet Js := λ A a w, (Normal a, w).

#[global] Instance Js_bind : MBind Js := λ A B k m w,
  match m w with
  | (Normal a, w') => k a w'
  | (Leave, w') => (Leave, w')
  | (Throw e, w') => (Throw e, w')
  end.

Definition leave {A} : Js A := λ w, (Leave, w).
Definition throw {A} (e : JsError) : Js A := λ w, (Throw e, w).

(** [try { body } catch (err) { handler }] *)
Definition try_catch {A} (body : Js A) (handler : JsError → Js A) : Js A :=
  λ w, match body w with
       | (Throw e, w') => handler e w'
       | r => r
       end.

(** The boundary of a function or of one loop iteration: [return;] and
    [continue;] end there. *)
Definition block (body : Js unit) : Js unit :=
  λ w, match body w with
       | (Leave, w') => (Normal tt, w')
       | r => r
       end.

(** A call of an async function whose promise is not awaited: the caller
    goes on whatever the completion of the callee. *)
Definition detach (m : Js unit) : Js unit := λ w, (Normal tt, snd (m w)).

Definition emit (e : Effect) : Js unit := λ w, (Normal tt, with_effect e w).
Definition get {A} (f : World → A) : Js A := λ w, (Normal (f w), w).
Definition modify (f : World → World) : Js unit := λ w, (Normal tt, f w).

(** The world and the effects a computation leaves, and whether it threw. *)
Definition exec {A} (m : Js A) (w : World) : World := snd (m w).
Definition completion {A} (m : Js A) (w : World) : Completion A := fst (m w).

(** The effects appended by a computation. *)
Definition emitted {A} (m : Js A) (w : World) : list Effect :=
  drop (List.length (effects w)) (effects (exec m w)).

(** The [(fromAgent, context)] of every [triggerNotification] call of a log. *)
Fixpoint notifications (l : list Effect) : list (string * string) :=
  match l with
  | [] => []
  | TriggerNotification a c :: r => (a, c) :: notifications r
  | _ :: r => notifications r
  end.

(* ===================================================================== *)
(** ** The dispatcher *)
(* ===================================================================== *)

Definition PROMPT_BODY : string :=
  " has a message for you. Check .ai/dialogue.json and .handoff/collab.json, then respond to continue the conversation.".

(** The [prompt] of [triggerNotification]. *)
Definition composePrompt (fromAgent context : string) : string :=
  if Str.truthy context
  then fromAgent +:+ PROMPT_BODY +:+ " Context: " +:+ context
  else fromAgent +:+ PROMPT_BODY.

(** [copyClipboard(prompt).catch(() => {})] and [notifyDesktop(toastMsg)]
    are the transports: a failure inside either is swallowed there and
    never reaches [triggerNotification], so each is one effect.  The first
    line of the body is the record of the maps at entry. *)
Definition triggerNotification (fromAgent context : string) : Js unit :=
  handled ← get lastHandled;
  shas ← get lastGitHubSha;
  emit (DispatcherEntered handled shas);;
  emit (TriggerNotification fromAgent context);;
  let prompt := composePrompt fromAgent context in
  let toastMsg := "Message from " +:+ fromAgent +:+ " - paste to continue" in
  emit (CopyClipboard prompt);;
  emit (NotifyDesktop toastMsg);;
  emit (ConsoleLog "");;
  emit (ConsoleLog "========================================");;
  emit (ConsoleLog (Str.toUpperCase fromAgent +:+ ": CHECK MESSAGES!"));;
  emit (ConsoleLog "========================================");;
  emit (ConsoleLog ("[clipboard] " +:+ prompt));;
  emit (ConsoleLog "").

(* ===================================================================== *)
(** ** What the host provides *)
(* ===================================================================== *)

(** [LOCAL_FLAG_DIR] is [path.resolve(process.cwd(), ".handoff")], fixed
    when the script is loaded.  [base64ToUtf8 s] is
    [Buffer.from(s, "base64").toString("utf-8")] for a string [s], which
    never throws.  [bufferToUtf8 v] is the same expression for an array or
    an object [v]: [Buffer.from] copies an array-like value and throws a
    [TypeError] on any other ([None]).  [stringOf v] is the text that a
    template literal makes of an array. *)
Class Host := mkHost {
  LOCAL_FLAG_DIR : string;
  base64ToUtf8 : string → string;
  bufferToUtf8 : Json → option string;
  stringOf : Json → string;
}.

(** [path.join(dir, file)] for a file name without separators or dot
    segments, as the names of the registry are. *)
Definition path_join (dir file : string) : string := dir +:+ "/" +:+ file.

(* ===================================================================== *)
(** ** Local file watching *)
(* ===================================================================== *)

Section Local.
Context {host : Host}.

Definition fs_stat (io : LocalIO) : Js Q :=
  match io_stat io with
  | StatOk m => mret m
  | StatErr e => throw e
  end.

Definition fs_readFile (io : LocalIO) : Js string :=
  match io_read io with
  | ReadOk text => mret text
  | ReadErr e => throw e
  end.

(** [v || 0] on a number or [undefined]. *)
Definition or_zero (v : option Q) : Q :=
  match v with
  | Some x => if Qeq_bool x 0 then 0%Q else x
  | None => 0%Q
  end.

(** [err?.code === "ENOENT"] *)
Definition is_ENOENT (err : JsError) : bool :=
  match err_code err with
  | Some c => String.eqb c "ENOENT"
  | None => false
  end.

(** The body of [handleLocalFlag], its two awaits answered by [io]. *)
Definition handleLocalFlag (target : Target) (io : LocalIO) : Js unit :=
  let filePath := path_join LOCAL_FLAG_DIR (name target) in
  block (try_catch
    (mtimeMs ← fs_stat io;
     prev ← get (λ w, or_zero (lastHandled w !! filePath));
     if Qle_bool mtimeMs prev then leave else
     modify (with_lastHandled <[filePath := mtimeMs]>);;
     emit (SetLastHandled filePath mtimeMs);;
     context ← try_catch (text ← fs_readFile io; mret (Str.trim text))
                         (λ _, mret "");
     triggerNotification (agent target) context)
    (λ err,
     if is_ENOENT err then leave else
     emit (ConsoleError ("[local] error: " +:+ err_message err)))).

(** A call [handleLocalFlag(target)] whose promise is not awaited: the body
    runs up to [await fs.stat(filePath)], which touches nothing, and the
    caller goes on; the rest of the check is a task of the event loop. *)
Definition handleLocalFlag_call (target : Target) : LocalTask :=
  AwaitStat target.

(** [clearTimeout(timers.get(key))] *)
Definition clearTimeout (id : option nat) : Js unit :=
  match id with
  | Some i =>
      modify (λ w, with_pending (filter (λ tm, tm_id tm ≠ i)) (nextTimerId w) w)
  | None => mret tt
  end.

(** [setTimeout(() => { timers.delete(key); handleLocalFlag(target); }, delay)] *)
Definition setTimeout (target : Target) (delay : Z) : Js nat :=
  id ← get nextTimerId;
  due ← get (λ w, (now w + delay)%Z);
  modify (with_pending (λ l, l ++ [mkTimeout id due target]) (S id));;
  mret id.

Definition debounceLocalHandle (target : Target) : Js unit :=
  let key := name target in
  has ← get (λ w, bool_decide (is_Some (timers w !! key)));
  (if has : bool
   then id ← get (λ w, timers w !! key); clearTimeout id
   else mret tt);;
  id ← setTimeout target debounceMs;
  modify (with_timers <[key := id]>).

(** The callback given to [setTimeout]; it returns the check it has
    started. *)
Definition debounceCallback (target : Target) : Js LocalTask :=
  modify (with_timers (delete (name target)));;
  mret (handleLocalFlag_call target).

(** The callback given to [watch] in [startLocalWatcher]. *)
Definition onWatchEvent (filename : option string) : Js unit :=
  block (match filename with
         | None => leave
         | Some f =>
             if negb (Str.truthy f) then leave else
             match List.find (λ t, String.eqb (name t) f) TARGETS with
             | None => leave
             | Some target => debounceLocalHandle target
             end
         end).

(** [TARGETS.forEach(handleLocalFlag)], the body of the fallback scan:
    every check is started, none is awaited. *)
Definition forEach_handleLocalFlag (targets : list Target) : list LocalTask :=
  handleLocalFlag_call <$> targets.

Definition fallbackScan : list LocalTask := forEach_handleLocalFlag TARGETS.

End Local.

(* ===================================================================== *)
(** ** GitHub polling *)
(* ===================================================================== *)

(** JavaScript truthiness. *)
Definition truthy (v : Json) : bool :=
  match v with
  | JUndefined | JNull => false
  | JBool b => b
  | JNum n => negb (Qeq_bool n 0)
  | JStr s => Str.truthy s
  | JArr _ | JObj _ => true
  end.

(** [a === b], for a stored or absent value [a] and a value [b] of a body
    just parsed: primitives are compared by value; an array or object is
    identical to itself only, and a value just parsed is no stored one. *)
Definition strictEq (a b : Json) : bool :=
  match a, b with
  | JUndefined, JUndefined => true
  | JNull, JNull => true
  | JBool x, JBool y => Bool.eqb x y
  | JNum x, JNum y => Qeq_bool x y
  | JStr x, JStr y => String.eqb x y
  | _, _ => false
  end.

(** The own property [key] of a parsed object; of two members with the same
    name the later one counts. *)
Definition field (key : string) (fields : list (string * Json)) : Json :=
  foldl (λ acc kv, if String.eqb kv.1 key then kv.2 else acc) JUndefined fields.

(** [map.get(key)] *)
Definition map_get (m : gmap string Json) (key : string) : Json :=
  default JUndefined (m !! key).

Definition TypeError (message : string) : JsError := mkError None message.

Section Remote.
Context {host : Host}.

Definition contents_url (filePath : string) : string :=
  "https://api.github.com/repos/" +:+ GITHUB_REPO +:+ "/contents/.handoff/"
    +:+ filePath +:+ "?ref=" +:+ GITHUB_BRANCH.

Definition fetch (out : FetchOutcome) : Js Response :=
  match out with
  | FetchErr e => throw e
  | FetchResponse r => mret r
  end.

Definition response_json (r : Response) : Js Json :=
  match json r with
  | BodyErr e => throw e
  | BodyJson data => mret data
  end.

(** [data.sha] and [data.content]: reading a property of [null] throws; a
    primitive or an array has no such property; an object has it or not. *)
Definition data_prop (data : Json) (key : string) : Js Json :=
  match data with
  | JNull =>
      throw (TypeError ("Cannot read properties of null (reading '"
                        +:+ key +:+ "')"))
  | JUndefined =>
      throw (TypeError ("Cannot read properties of undefined (reading '"
                        +:+ key +:+ "')"))
  | JObj fields => mret (field key fields)
  | _ => mret JUndefined
  end.

Definition data_sha (data : Json) : Js Json := data_prop data "sha".

Definition data_content (data : Json) : Js Json := data_prop data "content".

(** [c ? Buffer.from(c, "base64").toString("utf-8").trim() : ""]:
    [Buffer.from] throws on [true] and on a number. *)
Definition decode_content (content : Json) : Js string :=
  if truthy content then
    match content with
    | JStr c => mret (Str.trim (base64ToUtf8 c))
    | JArr _ | JObj _ =>
        match bufferToUtf8 content with
        | Some text => mret (Str.trim text)
        | None => throw (TypeError "The first argument must be of type string or an instance of Buffer, ArrayBuffer, or Array or an Array-like Object.")
        end
    | _ => throw (TypeError "The first argument must be of type string or an instance of Buffer, ArrayBuffer, or Array or an Array-like Object.")
    end
  else mret "".

Definition fetchGitHubFile (net : string → FetchOutcome) (filePath : string)
    : Js (option GitHubFile) :=
  let url := contents_url filePath in
  try_catch
    (response ← fetch (net url);
     if negb (ok response) then mret None else
     data ← response_json response;
     sha ← data_sha data;
     content ← data_content data;
     text ← decode_content content;
     mret (Some (mkFile sha text)))
    (λ _, mret None).

(** [result.sha.slice(0, 7)], as the template literal prints it: the first
    seven characters of a string, the first seven items of an array; any
    other value has no [slice] to call. *)
Definition sha_slice (sha : Json) : Js string :=
  match sha with
  | JStr s => mret (Str.slice0 7 s)
  | JArr items => mret (stringOf (JArr (take 7 items)))
  | JUndefined =>
      throw (TypeError "Cannot read properties of undefined (reading 'slice')")
  | JNull =>
      throw (TypeError "Cannot read properties of null (reading 'slice')")
  | _ => throw (TypeError "result.sha.slice is not a function")
  end.

(** One iteration of the [for (const target of TARGETS)] loop. *)
Definition pollTarget (net : string → FetchOutcome) (target : Target) : Js unit :=
  block
    (result ← fetchGitHubFile net (name target);
     match result with
     | None => leave
     | Some result =>
         prevSha ← get (λ w, map_get (lastGitHubSha w) (name target));
         if strictEq prevSha (file_sha result) then leave else
         modify (with_lastGitHubSha <[name target := file_sha result]>);;
         emit (SetLastGitHubSha (name target) (file_sha result));;
         if negb (truthy prevSha) then
           short ← sha_slice (file_sha result);
           emit (ConsoleLog ("[github] tracking " +:+ name target +:+ " (sha: "
                             +:+ short +:+ ")"));;
           leave
         else
           emit (ConsoleLog ("[github] new flag detected: " +:+ name target));;
           triggerNotification (agent target) (file_content result)
     end).

(** The loop: a throw in one iteration ends it. *)
Fixpoint pollTargets (net : string → FetchOutcome) (targets : list Target)
    : Js unit :=
  match targets with
  | [] => mret tt
  | t :: rest => pollTarget net t;; pollTargets net rest
  end.

Definition pollGitHub (net : string → FetchOutcome) : Js unit :=
  pollTargets net TARGETS.

End Remote.

(* ===================================================================== *)
(** ** Interleaved checks of the local channel *)
(* ===================================================================== *)

Section LocalTasks.
Context {host : Host}.

(** From the answer of [fs.stat] to the next suspension; [true] when the
    check goes on to [fs.readFile]. *)
Definition resumeAfterStat (target : Target) (r : StatResult) : Js bool :=
  let filePath := path_join LOCAL_FLAG_DIR (name target) in
  match r with
  | StatErr err =>
      (if is_ENOENT err then mret tt
       else emit (ConsoleError ("[local] error: " +:+ err_message err)));;
      mret false
  | StatOk mtimeMs =>
      prev ← get (λ w, or_zero (lastHandled w !! filePath));
      if Qle_bool mtimeMs prev then mret false else
      modify (with_lastHandled <[filePath := mtimeMs]>);;
      emit (SetLastHandled filePath mtimeMs);;
      mret true
  end.

(** From the answer of [fs.readFile] to the end of the check. *)
Definition resumeAfterRead (target : Target) (r : ReadResult) : Js unit :=
  let context := match r with
                 | ReadOk text => Str.trim text
                 | ReadErr _ => ""
                 end in
  triggerNotification (agent target) context.

(** What the event loop does next: a check starts (a debounce timer), a
    tick of the fallback scan starts a check of every signal, or the
    awaited answer of check [i] arrives. *)
Inductive LocalEvent :=
| StartCheck (target : Target)
| StartScan
| StatDone (i : nat) (r : StatResult)
| ReadDone (i : nat) (r : ReadResult).

Definition localStep (ev : LocalEvent) (st : World * list LocalTask)
    : option (World * list LocalTask) :=
  let '(w, tasks) := st in
  match ev with
  | StartCheck target => Some (w, tasks ++ [handleLocalFlag_call target])
  | StartScan => Some (w, tasks ++ fallbackScan)
  | StatDone i r =>
      match tasks !! i with
      | Some (AwaitStat target) =>
          match resumeAfterStat target r w with
          | (Normal true, w') => Some (w', <[i := AwaitRead target]> tasks)
          | (_, w') => Some (w', <[i := Over]> tasks)
          end
      | _ => None
      end
  | ReadDone i r =>
      match tasks !! i with
      | Some (AwaitRead target) =>
          Some (exec (resumeAfterRead target r) w, <[i := Over]> tasks)
      | _ => None
      end
  end.

Fixpoint localRun (evs : list LocalEvent) (st : World * list LocalTask)
    : option (World * list LocalTask) :=
  match evs with
  | [] => Some st
  | ev :: rest =>
      match localStep ev st with
      | Some st' => localRun rest st'
      | None => None
      end
  end.

(** The targets whose check a schedule starts. *)
Definition startedTargets (evs : list LocalEvent) : list Target :=
  mbind (M := list)
    (λ ev, match ev with
           | StartCheck t => [t]
           | StartScan => TARGETS
           | _ => []
           end) evs.

(** The answers of [fs.stat] that a schedule delivers, each with the target
    of the check that gets it. *)
Fixpoint statDeliveries (evs : list LocalEvent) (st : World * list LocalTask)
    : list (Target * StatResult) :=
  match evs with
  | [] => []
  | ev :: rest =>
      match ev with
      | StatDone i r =>
          match st.2 !! i with
          | Some (AwaitStat x) => [(x, r)]
          | _ => []
          end
      | _ => []
      end
      ++ match localStep ev st with
         | Some st' => statDeliveries rest st'
         | None => []
         end
  end.

End LocalTasks.

(* ===================================================================== *)
(** ** Interleaved polls of the remote channel *)
(* ===================================================================== *)

Section RemoteTasks.
Context {host : Host}.

(** A [pollGitHub] in flight is suspended at the [fetch] of the first of
    its remaining targets.  ([await triggerNotification] suspends too, but
    nothing between there and the next [fetch] reads or writes the maps,
    so the dispatch is run within the step that starts it.)  A throw inside
    the loop rejects the promise of [pollGitHub], which nobody awaits: that
    poll is over. *)
Inductive RemoteEvent :=
| StartPoll
| FetchDone (i : nat) (out : FetchOutcome).

Record RemoteSys := mkRemoteSys {
  rs_world : World;
  rs_polls : list (list Target);
  (* every successful answer so far: signal name and file, oldest first *)
  rs_fetched : list (string * GitHubFile);
}.

Definition fetchedFile (out : FetchOutcome) (target : Target) (w : World)
    : option GitHubFile :=
  match completion (fetchGitHubFile (λ _, out) (name target)) w with
  | Normal (Some f) => Some f
  | _ => None
  end.

Definition remoteStep (ev : RemoteEvent) (st : RemoteSys) : option RemoteSys :=
  match ev with
  | StartPoll =>
      Some (mkRemoteSys (rs_world st) (rs_polls st ++ [TARGETS]) (rs_fetched st))
  | FetchDone i out =>
      match rs_polls st !! i with
      | Some (target :: rest) =>
          Some (mkRemoteSys
                  (exec (pollTarget (λ _, out) target) (rs_world st))
                  (<[i := match completion (pollTarget (λ _, out) target)
                                           (rs_world st) with
                          | Throw _ => []
                          | _ => rest
                          end]> (rs_polls st))
                  (rs_fetched st ++
                     match fetchedFile out target (rs_world st) with
                     | Some f => [(name target, f)]
                     | None => []
                     end))
      | _ => None
      end
  end.

Fixpoint remoteRun (evs : list RemoteEvent) (st : RemoteSys) : option RemoteSys :=
  match evs with
  | [] => Some st
  | ev :: rest =>
      match remoteStep ev st with
      | Some st' => remoteRun rest st'
      | None => None
      end
  end.

(** The fingerprint of the latest successful answer for a signal;
    [undefined] when there is none. *)
Definition lastFetchedSha (key : string) (l : list (string * GitHubFile))
    : Json :=
  foldl (λ acc kf, if String.eqb kf.1 key then file_sha kf.2 else acc)
        JUndefined l.

End RemoteTasks.

(* ===================================================================== *)
(** ** The debounce timers and the whole watcher over time *)
(* ===================================================================== *)

(** The runtime runs the callback of one pending timeout (a timeout that
    has been cleared meanwhile does not run); the result is the checks the
    callback has started. *)
Definition fireTimeout (tm : Timeout) : Js (list LocalTask) :=
  pend ← get pendingTimeouts;
  if bool_decide (tm_id tm ∈ tm_id <$> pend) then
    modify (λ w, with_pending (filter (λ x, tm_id x ≠ tm_id tm)) (nextTimerId w) w);;
    modify (λ w, with_now (Z.max (now w) (tm_due tm)) w);;
    task ← debounceCallback (tm_target tm);
    mret [task]
  else mret [].

Fixpoint fireAll (l : list Timeout) : Js (list LocalTask) :=
  match l with
  | [] => mret []
  | tm :: rest =>
      first ← fireTimeout tm;
      others ← fireAll rest;
      mret (first ++ others)
  end.

(** Time passes until [t]: every timeout due by then fires, at its due
    time, in the order the timeouts were set. *)
Definition advanceTo (t : Z) : Js (list LocalTask) :=
  pend ← get pendingTimeouts;
  tasks ← fireAll (filter (λ tm, (tm_due tm <= t)%Z) pend);
  modify (λ w, with_now (Z.max (now w) t) w);;
  mret tasks.

(** What the event loop runs next: the callback of [fs.watch] at time [t];
    a tick of the fallback scan at time [t]; the timeouts that have come due
    by [t]; the arrival of the stat or read answer of check [i]; a tick of
    the poller; the arrival of the answer to the fetch of poll [i]. *)
Inductive SysEvent :=
| WatchAt (t : Z) (filename : option string)
| ScanAt (t : Z)
| PassTo (t : Z)
| StatAnswer (i : nat) (r : StatResult)
| ReadAnswer (i : nat) (r : ReadResult)
| PollAt
| FetchAnswer (i : nat) (out : FetchOutcome).

(** The watcher between two callbacks: the world, the checks and the polls
    in flight and, for the statements, the checks that timeouts have started
    so far, oldest first. *)
Record Sys := mkSys {
  sys_world : World;
  sys_checks : list LocalTask;
  sys_polls : list (list Target);
  sys_debounced : list LocalTask;
}.

Definition initialSys : Sys := mkSys initialWorld [] [] [].

(** The checks a run of the timeouts has started. *)
Definition startedBy (r : Completion (list LocalTask)) : list LocalTask :=
  match r with
  | Normal l => l
  | _ => []
  end.

Section System.
Context {host : Host}.

Definition sysStep (ev : SysEvent) (st : Sys) : option Sys :=
  match ev with
  | WatchAt t filename =>
      let r := advanceTo t (sys_world st) in
      Some (mkSys (exec (onWatchEvent filename) r.2)
                  (sys_checks st ++ startedBy r.1)
                  (sys_polls st)
                  (sys_debounced st ++ startedBy r.1))
  | ScanAt t =>
      let r := advanceTo t (sys_world st) in
      Some (mkSys r.2
                  (sys_checks st ++ startedBy r.1 ++ fallbackScan)
                  (sys_polls st)
                  (sys_debounced st ++ startedBy r.1))
  | PassTo t =>
      let r := advanceTo t (sys_world st) in
      Some (mkSys r.2
                  (sys_checks st ++ startedBy r.1)
                  (sys_polls st)
                  (sys_debounced st ++ startedBy r.1))
  | StatAnswer i r =>
      match localStep (StatDone i r) (sys_world st, sys_checks st) with
      | Some st' => Some (mkSys st'.1 st'.2 (sys_polls st) (sys_debounced st))
      | None => None
      end
  | ReadAnswer i r =>
      match localStep (ReadDone i r) (sys_world st, sys_checks st) with
      | Some st' => Some (mkSys st'.1 st'.2 (sys_polls st) (sys_debounced st))
      | None => None
      end
  | PollAt =>
      Some (mkSys (sys_world st) (sys_checks st) (sys_polls st ++ [TARGETS])
                  (sys_debounced st))
  | FetchAnswer i out =>
      match remoteStep (FetchDone i out)
                       (mkRemoteSys (sys_world st) (sys_polls st) []) with
      | Some rs =>
          Some (mkSys (rs_world rs) (sys_checks st) (rs_polls rs)
                      (sys_debounced st))
      | None => None
      end
  end.

Fixpoint sysRun (evs : list SysEvent) (st : Sys) : option Sys :=
  match evs with
  | [] => Some st
  | ev :: rest =>
      match sysStep ev st with
      | Some st' => sysRun rest st'
      | None => None
      end
  end.

End System.

(** The time at which a callback of the runtime runs; the arrival of an
    answer and the start of a poll have none of their own. *)
Definition eventTime (ev : SysEvent) : option Z :=
  match ev with
  | WatchAt t _ | ScanAt t | PassTo t => Some t
  | _ => None
  end.

(** The event is a change notification for the file name. *)
Definition notifies (filename : string) (ev : SysEvent) : bool :=
  match ev with
  | WatchAt _ (Some f) => String.eqb f filename
  | _ => false
  end.

(** The events go on a burst of change notifications for [filename]: time
    does not run backwards from [cur], and every callback runs less than a
    debounce window after [last], the time of the latest change
    notification for [filename]. *)
Fixpoint inBurst (filename : string) (cur last : Z) (evs : list SysEvent)
    : Prop :=
  match evs with
  | [] => True
  | ev :: rest =>
      match eventTime ev with
      | Some t =>
          (cur <= t < last + debounceMs)%Z
          ∧ inBurst filename t (if notifies filename ev then t else last) rest
      | None => inBurst filename cur last rest
      end
  end.

(** The time of the latest change notification for [filename] among the
    events, [last] if there is none. *)
Fixpoint lastNotified (filename : string) (last : Z) (evs : list SysEvent) : Z :=
  match evs with
  | [] => last
  | ev :: rest =>
      lastNotified filename
        (match eventTime ev with
         | Some t => if notifies filename ev then t else last
         | None => last
         end) rest
  end.

(* ===================================================================== *)
(** ** A host for the examples *)
(* ===================================================================== *)

Module Base64.

(** The value of a base64 digit, in the standard or the URL alphabet. *)
Definition sextet (a : ascii) : option N :=
  let n := N_of_ascii a in
  if (65 <=? n)%N && (n <=? 90)%N then Some (n - 65)%N
  else if (97 <=? n)%N && (n <=? 122)%N then Some (n - 71)%N
  else if (48 <=? n)%N && (n <=? 57)%N then Some (n + 4)%N
  else if (n =? 43)%N || (n =? 45)%N then Some 62%N
  else if (n =? 47)%N || (n =? 95)%N then Some 63%N
  else None.

(** The digits up to the padding; anything else (line breaks) is skipped. *)
Fixpoint sextets (s : string) : list N :=
  match s with
  | EmptyString => []
  | String a r =>
      if (N_of_ascii a =? 61)%N then []
      else match sextet a with
           | Some v => v :: sextets r
           | None => sextets r
           end
  end.

Fixpoint bytes (l : list N) : string :=
  match l with
  | a :: b :: c :: d :: r =>
      String (ascii_of_N (a * 4 + b / 16))
        (String (ascii_of_N ((b mod 16) * 16 + c / 4))
           (String (ascii_of_N ((c mod 4) * 64 + d)) (bytes r)))
  | [a; b; c] =>
      String (ascii_of_N (a * 4 + b / 16))
        (String (ascii_of_N ((b mod 16) * 16 + c / 4)) EmptyString)
  | [a; b] => String (ascii_of_N (a * 4 + b / 16)) EmptyString
  | _ => EmptyString
  end.

(** Decoding of well-formed base64 whose bytes are UTF-8 text. *)
Definition decode (s : string) : string := bytes (sextets s).

End Base64.

(** The byte an array item becomes in [Buffer.from(array)]: a number is
    truncated and taken modulo 256, [true] is 1, [null] and [false] are 0.
    (The host of the examples copies arrays of such items only.) *)
Definition byteOfItem (v : Json) : option ascii :=
  match v with
  | JNum n => Some (ascii_of_N (Z.to_N ((Qnum n ÷ Zpos (Qden n)) mod 256)))
  | JBool true => Some (ascii_of_nat 1)
  | JBool false | JNull => Some (ascii_of_nat 0)
  | _ => None
  end.

Fixpoint bytesOfItems (items : list Json) : option string :=
  match items with
  | [] => Some EmptyString
  | v :: rest =>
      match byteOfItem v, bytesOfItems rest with
      | Some a, Some s => Some (String a s)
      | _, _ => None
      end
  end.

Definition exampleBuffer (v : Json) : option string :=
  match v with
  | JArr items => bytesOfItems items
  | _ => None
  end.

(** An array of strings as a template literal prints it. *)
Fixpoint joinItems (items : list Json) : string :=
  match items with
  | [] => ""
  | [JStr s] => s
  | JStr s :: rest => s +:+ "," +:+ joinItems rest
  | _ :: rest => joinItems rest
  end.

Definition exampleString (v : Json) : string :=
  match v with
  | JArr items => joinItems items
  | JStr s => s
  | _ => ""
  end.

Definition exampleHost : Host :=
  mkHost "/repo/.handoff" Base64.decode exampleBuffer exampleString.

Definition cascade : Target := mkTarget "notify-cascade" "Cascade" "Replit".
Definition replit : Target := mkTarget "notify-replit" "Replit" "Cascade".

(* ===================================================================== *)
(** ** Vocabulary of the statements *)
(* ===================================================================== *)

Definition add_effects (l : list Effect) (w : World) : World :=
  mkWorld (lastHandled w) (lastGitHubSha w) (timers w)
          (now w) (nextTimerId w) (pendingTimeouts w) (effects w ++ l).

(** The effects of one dispatch entered with the maps [handled] and
    [shas]. *)
Definition dispatchEffects (handled : gmap string Q) (shas : gmap string Json)
    (fromAgent context : string) : list Effect :=
  let prompt := composePrompt fromAgent context in
  [ DispatcherEntered handled shas;
    TriggerNotification fromAgent context;
    CopyClipboard prompt;
    NotifyDesktop ("Message from " +:+ fromAgent +:+ " - paste to continue");
    ConsoleLog "";
    ConsoleLog "========================================";
    ConsoleLog (Str.toUpperCase fromAgent +:+ ": CHECK MESSAGES!");
    ConsoleLog "========================================";
    ConsoleLog ("[clipboard] " +:+ prompt);
    ConsoleLog "" ].

(** The maps with which the dispatcher was entered, one pair per dispatch
    of a log. *)
Fixpoint dispatchStates (l : list Effect)
    : list (gmap string Q * gmap string Json) :=
  match l with
  | [] => []
  | DispatcherEntered handled shas :: r => (handled, shas) :: dispatchStates r
  | _ :: r => dispatchStates r
  end.

(** The context a check hands to the dispatcher. *)
Definition localContext (io : LocalIO) : string :=
  match io_read io with
  | ReadOk text => Str.trim text
  | ReadErr _ => ""
  end.

(** The value [sha_slice] prints, if it does not throw. *)
Definition sliceOf {host : Host} (sha : Json) : option string :=
  match sha with
  | JStr s => Some (Str.slice0 7 s)
  | JArr items => Some (stringOf (JArr (take 7 items)))
  | _ => None
  end.

(** The error [sha_slice] throws on a value that has no [slice] to call. *)
Definition sliceError (sha : Json) : JsError :=
  match sha with
  | JUndefined =>
      TypeError "Cannot read properties of undefined (reading 'slice')"
  | JNull => TypeError "Cannot read properties of null (reading 'slice')"
  | _ => TypeError "result.sha.slice is not a function"
  end.

Section Vocabulary.
Context {host : Host}.

Definition localPath (target : Target) : string :=
  path_join LOCAL_FLAG_DIR (name target).

(** What reading a property yields; [None] when it throws. *)
Definition propOf (data : Json) (key : string) : option Json :=
  match data with
  | JUndefined | JNull => None
  | JObj fields => Some (field key fields)
  | _ => Some JUndefined
  end.

(** The content [fetchGitHubFile] makes of [data.content]; [None] when
    [Buffer.from] throws. *)
Definition contentOf (content : Json) : option string :=
  if truthy content then
    match content with
    | JStr c => Some (Str.trim (base64ToUtf8 c))
    | JArr _ | JObj _ => Str.trim <$> bufferToUtf8 content
    | _ => None
    end
  else Some "".

(** What [fetchGitHubFile] returns for a parsed body. *)
Definition fileOf (data : Json) : option GitHubFile :=
  match propOf data "sha", propOf data "content" with
  | Some sha, Some content =>
      match contentOf content with
      | Some text => Some (mkFile sha text)
      | None => None
      end
  | _, _ => None
  end.

(** What [fetchGitHubFile] returns for an answer of the network. *)
Definition fetchResult (out : FetchOutcome) : option GitHubFile :=
  match out with
  | FetchErr _ => None
  | FetchResponse r =>
      if ok r then
        match json r with
        | BodyJson data => fileOf data
        | BodyErr _ => None
        end
      else None
  end.

Definition trackingLine (target : Target) (short : string) : string :=
  "[github] tracking " +:+ name target +:+ " (sha: " +:+ short +:+ ")".

Definition detectedLine (target : Target) : string :=
  "[github] new flag detected: " +:+ name target.

(** The iterations for one signal of successive ticks, one answer of the
    network per tick. *)
Fixpoint pollTicks (nets : list (string → FetchOutcome)) (target : Target)
    : Js unit :=
  match nets with
  | [] => mret tt
  | net :: rest => pollTarget net target;; pollTicks rest target
  end.

(** A tick that changes nothing for a signal whose stored fingerprint is
    [s0]: the fetch fails, or it answers [s0] again. *)
Definition quietTick (s0 : string) (target : Target)
    (net : string → FetchOutcome) : Prop :=
  match fetchResult (net (contents_url (name target))) with
  | None => True
  | Some f => file_sha f = JStr s0
  end.

(** The stored fingerprints are the latest successful answers. *)
Definition tracksFetched (st : RemoteSys) : Prop :=
  ∀ key, map_get (lastGitHubSha (rs_world st)) key
         = lastFetchedSha key (rs_fetched st).

(** A fetch that gives [fetchGitHubFile] nothing to return: a network error,
    a non-success status (404 among them), or a body that cannot be read:
    reading it throws, it is [null], or [Buffer.from] rejects its
    content. *)
Definition fetchFails (out : FetchOutcome) : bool :=
  match out with
  | FetchErr _ => true
  | FetchResponse r =>
      negb (ok r)
      || match json r with
         | BodyErr _ => true
         | BodyJson data =>
             match fileOf data with
             | Some _ => false
             | None => true
             end
         end
  end.

End Vocabulary.

(** A fingerprint of the contents API: a string that is not empty. *)
Definition isFingerprint (v : Json) : Prop :=
  match v with
  | JStr s => s ≠ ""
  | _ => False
  end.


(** The string begins with the encoding of a white space code point. *)
Definition startsWs (s : string) : bool :=
  match s with
  | EmptyString => false
  | String a s1 =>
      Str.is_ws1 a
      || match s1 with
         | EmptyString => false
         | String b s2 =>
             Str.is_ws2 a b
             || match s2 with
                | EmptyString => false
                | String c _ => Str.is_ws3 a b c
                end
         end
  end.

(** The reversed string begins with a reversed encoding of a white space
    code point. *)
Definition startsWsRev (s : string) : bool :=
  match s with
  | EmptyString => false
  | String a s1 =>
      Str.is_ws1 a
      || match s1 with
         | EmptyString => false
         | String b s2 =>
             Str.is_ws2 b a
             || match s2 with
                | EmptyString => false
                | String c _ => Str.is_ws3 c b a
                end
         end
  end.

(** The string ends with the encoding of a white space code point. *)
Definition endsWs (s : string) : bool := startsWsRev (Str.rev s).

(** The string is a sequence of encodings of white space code points and
    nothing else. *)
Fixpoint wsOnly (s : string) : bool :=
  match s with
  | EmptyString => true
  | String a s1 =>
      if Str.is_ws1 a then wsOnly s1 else
      match s1 with
      | EmptyString => false
      | String b s2 =>
          if Str.is_ws2 a b then wsOnly s2 else
          match s2 with
          | EmptyString => false
          | String c s3 => Str.is_ws3 a b c && wsOnly s3
          end
      end
  end.

Fixpoint prefixb (p s : string) : bool :=
  match p, s with
  | EmptyString, _ => true
  | String a p', String b s' => Ascii.eqb a b && prefixb p' s'
  | String _ _, EmptyString => false
  end.

Fixpoint containsb (needle hay : string) : bool :=
  prefixb needle hay
  || match hay with
     | EmptyString => false
     | String _ r => containsb needle r
     end.

Fixpoint lastChar (s : string) : option ascii :=
  match s with
  | EmptyString => None
  | String a EmptyString => Some a
  | String _ r => lastChar r
  end.

(** The checks of a task list that are suspended at the read: they have
    passed the comparison and will dispatch. *)
Fixpoint reading (tasks : list LocalTask) : nat :=
  match tasks with
  | [] => 0
  | AwaitRead _ :: rest => S (reading rest)
  | _ :: rest => reading rest
  end.

Definition isReading (t : LocalTask) : nat :=
  match t with AwaitRead _ => 1 | _ => 0 end.

(** The signal a task checks, if it is still running. *)
Definition taskTarget (t : LocalTask) : option Target :=
  match t with
  | AwaitStat x | AwaitRead x => Some x
  | Over => None
  end.

(** The running checks of a task list are checks of signals of the
    registry. *)
Definition ofRegistry (tasks : list LocalTask) : Prop :=
  Forall (λ t, ∀ x, taskTarget t = Some x → x ∈ TARGETS) tasks.

(** A stat answer that shows the write [m]: an error, or the modification
    time [m]. *)
Definition seesWrite (m : Q) (r : StatResult) : Prop :=
  match r with
  | StatOk m' => (m' == m)%Q
  | StatErr _ => True
  end.

(** A stat answer that shows nothing newer than [T]. *)
Definition noNewerThan (T : Q) (r : StatResult) : Prop :=
  match r with
  | StatOk m => (m <= T)%Q
  | StatErr _ => True
  end.

(** The notifications of a log that come from one agent. *)
Definition notifiedBy (fromAgent : string) (l : list Effect)
    : list (string * string) :=
  filter (λ n, n.1 = fromAgent) (notifications l).

Section VocabularyOfRuns.
Context {host : Host}.

Definition isReadingOf (path : string) (t : LocalTask) : nat :=
  match t with
  | AwaitRead x => if String.eqb (localPath x) path then 1 else 0
  | _ => 0
  end.

(** The checks of a task list that are suspended at the read of [path]. *)
Fixpoint readingOf (path : string) (tasks : list LocalTask) : nat :=
  match tasks with
  | [] => 0
  | t :: rest => isReadingOf path t + readingOf path rest
  end.

(** What holds along a schedule in which the checks of the signal see the
    write [m]: of these checks at most one has passed the comparison, and
    once one has, the stored time stamp is at least [m]. *)
Definition oneWinner (target : Target) (m : Q) (base : list (string * string))
    (st : World * list LocalTask) : Prop :=
  ofRegistry st.2
  ∧ ∃ l, notifiedBy (agent target) (effects st.1) = base ++ l
         ∧ (List.length l + readingOf (localPath target) st.2 <= 1)%nat
         ∧ (List.length l + readingOf (localPath target) st.2 = 1%nat →
            (m <= or_zero (lastHandled st.1 !! localPath target))%Q).

(** What holds along a schedule in which the checks of the signal see
    nothing newer than the stored [T]: none of them passes the
    comparison. *)
Definition quietFor (target : Target) (T : Q) (base : list (string * string))
    (st : World * list LocalTask) : Prop :=
  ofRegistry st.2
  ∧ readingOf (localPath target) st.2 = 0%nat
  ∧ (T <= or_zero (lastHandled st.1 !! localPath target))%Q
  ∧ notifiedBy (agent target) (effects st.1) = base.

End VocabularyOfRuns.

(** The world [debounceLocalHandle] leaves: the timeout registered for the
    signal, if any, is cleared, and a new one is set and registered. *)
Definition debounced (target : Target) (w : World) : World :=
  mkWorld (lastHandled w) (lastGitHubSha w)
          (<[name target := nextTimerId w]> (timers w))
          (now w) (S (nextTimerId w))
          (match timers w !! name target with
           | Some id => filter (λ tm, tm_id tm ≠ id) (pendingTimeouts w)
           | None => pendingTimeouts w
           end ++ [mkTimeout (nextTimerId w) (now w + debounceMs) target])
          (effects w).

(** The world in which the callback of a timeout has started its check: the
    timeout is no longer pending, the clock has reached its due time, the
    signal is no longer registered. *)
Definition fired (tm : Timeout) (w : World) : World :=
  mkWorld (lastHandled w) (lastGitHubSha w)
          (delete (name (tm_target tm)) (timers w))
          (Z.max (now w) (tm_due tm)) (nextTimerId w)
          (filter (λ x, tm_id x ≠ tm_id tm) (pendingTimeouts w))
          (effects w).

(** The timeouts of the runtime and the [timers] map agree: the pending
    timeouts have distinct handles, each belongs to a signal of the registry
    and is the one registered under that signal's name, and every registered
    handle is pending. *)
Definition timersAgree (w : World) : Prop :=
  NoDup (tm_id <$> pendingTimeouts w)
  ∧ (∀ tm, tm ∈ pendingTimeouts w →
       (tm_id tm < nextTimerId w)%nat
       ∧ tm_target tm ∈ TARGETS
       ∧ timers w !! name (tm_target tm) = Some (tm_id tm))
  ∧ (∀ key id, timers w !! key = Some id →
       ∃ tm, tm ∈ pendingTimeouts w ∧ tm_id tm = id
             ∧ name (tm_target tm) = key).

(** The two marker maps hold entries for the signals of the registry only,
    and the stored time stamps are positive. *)
Definition markersOfRegistry {host : Host} (w : World) : Prop :=
  (∀ p v, lastHandled w !! p = Some v →
     (0 < v)%Q ∧ ∃ t, t ∈ TARGETS ∧ p = localPath t)
  ∧ (∀ k s, lastGitHubSha w !! k = Some s → ∃ t, t ∈ TARGETS ∧ k = name t).

(** What every state of the world satisfies. *)
Definition sound {host : Host} (w : World) : Prop :=
  timersAgree w ∧ markersOfRegistry w.

(** What every state of the watcher satisfies. *)
Definition sysSound {host : Host} (st : Sys) : Prop :=
  sound (sys_world st)
  ∧ ofRegistry (sys_checks st)
  ∧ Forall (Forall (λ x, x ∈ TARGETS)) (sys_polls st).

(** The timeouts of a list that are pending, if their handle is. *)
Definition snapshotOf (l : list Timeout) (w : World) : Prop :=
  ∀ tm, tm ∈ l → tm_id tm ∈ tm_id <$> pendingTimeouts w →
        tm ∈ pendingTimeouts w.

(** The pending timeouts of one signal. *)
Definition pendingFor (target : Target) (w : World) : list Timeout :=
  filter (λ tm, name (tm_target tm) = name target) (pendingTimeouts w).

(** The checks of one signal among those that timeouts have started. *)
Definition debouncedFor (target : Target) (st : Sys) : list LocalTask :=
  filter (λ t, taskTarget t = Some target) (sys_debounced st).

(** In the middle of a burst for the signal that began in [st0]: the clock
    shows [cur], the one timeout pending for the signal is due one window
    after [last], and no timeout has started a check of the signal since
    [st0]. *)
Definition midBurst {host : Host} (target : Target) (st0 : Sys)
    (cur last : Z) (st : Sys) : Prop :=
  sysSound st
  ∧ now (sys_world st) = cur
  ∧ (cur < last + debounceMs)%Z
  ∧ (∃ id, pendingFor target (sys_world st)
           = [mkTimeout id (last + debounceMs) target])
  ∧ debouncedFor target st = debouncedFor target st0.

(** The time stamps written to [lastHandled] for a path, in the order of the
    log. *)
Fixpoint handledLog (path : string) (l : list Effect) : list Q :=
  match l with
  | [] => []
  | SetLastHandled p m :: r =>
      if String.eqb p path then m :: handledLog path r else handledLog path r
  | _ :: r => handledLog path r
  end.

(** The number of writes to [lastHandled] in a log. *)
Fixpoint handledCount (l : list Effect) : nat :=
  match l with
  | [] => 0
  | SetLastHandled _ _ :: r => S (handledCount r)
  | _ :: r => handledCount r
  end.

(** The fingerprints written to [lastGitHubSha] for a key, in the order of
    the log. *)
Fixpoint shaLog (key : string) (l : list Effect) : list Json :=
  match l with
  | [] => []
  | SetLastGitHubSha k s :: r =>
      if String.eqb k key then s :: shaLog key r else shaLog key r
  | _ :: r => shaLog key r
  end.

(** Each element is above the one before, the first above [lo]. *)
Fixpoint risingFrom (lo : Q) (l : list Q) : Prop :=
  match l with
  | [] => True
  | x :: r => (lo < x)%Q ∧ risingFrom x r
  end.

(** The last element, or [lo] for the empty list. *)
Fixpoint lastFrom (lo : Q) (l : list Q) : Q :=
  match l with
  | [] => lo
  | x :: r => lastFrom x r
  end.

(** Every successful answer a schedule delivers carries a fingerprint. *)
Definition answersNonEmpty {host : Host} (evs : list RemoteEvent) : Prop :=
  Forall (λ ev, match ev with
                | FetchDone _ out =>
                    match fetchResult out with
                    | Some f => isFingerprint (file_sha f)
                    | None => True
                    end
                | StartPoll => True
                end) evs.

(** For one signal: nothing is stored, written or dispatched yet; or a
    fingerprint is stored and all the writes but the first have been
    dispatched. *)
Definition baselineOnce (t : Target) (st : RemoteSys) : Prop :=
  Forall (Forall (λ x, x ∈ TARGETS)) (rs_polls st)
  ∧ match lastGitHubSha (rs_world st) !! name t with
    | None =>
        shaLog (name t) (effects (rs_world st)) = []
        ∧ notifiedBy (agent t) (effects (rs_world st)) = []
    | Some s =>
        isFingerprint s
        ∧ List.length (shaLog (name t) (effects (rs_world st)))
          = S (List.length (notifiedBy (agent t) (effects (rs_world st))))
    end.

(** Along a schedule: the log has only grown, the time stamps written for
    the path rise strictly from the one stored at the start, and the one
    stored now is the last of them. *)
Definition logRises {host : Host} (p : string) (w0 : World)
    (st : World * list LocalTask) : Prop :=
  ∃ added, effects st.1 = effects w0 ++ added
    ∧ risingFrom (or_zero (lastHandled w0 !! p)) (handledLog p added)
    ∧ (or_zero (lastHandled st.1 !! p)
       == lastFrom (or_zero (lastHandled w0 !! p)) (handledLog p added))%Q.

(** The writes and the dispatches of a schedule balance: what was written
    has been dispatched, or its check is suspended at the read. *)
Definition logBalances (w0 : World) (tasks0 : list LocalTask)
    (st : World * list LocalTask) : Prop :=
  (handledCount (effects st.1) + List.length (notifications (effects w0))
   + reading tasks0
   = List.length (notifications (effects st.1)) + reading st.2
     + handledCount (effects w0))%nat.

(** *** Inputs of the examples *)

Definition ENOENT : JsError :=
  mkError (Some "ENOENT") "ENOENT: no such file or directory".

Definition EACCES : JsError :=
  mkError (Some "EACCES") "EACCES: permission denied".

(** The same answer of the network whatever the URL. *)
Definition answer (out : FetchOutcome) : string → FetchOutcome := λ _, out.

(** A 404: the status is not a success and the body is never read. *)
Definition notFound : FetchOutcome :=
  FetchResponse (mkResponse false (BodyJson JNull)).

Definition networkDown : FetchOutcome :=
  FetchErr (mkError None "fetch failed").

(** A 200 with a parsed body. *)
Definition bodyAnswer (data : Json) : FetchOutcome :=
  FetchResponse (mkResponse true (BodyJson data)).

(** A file of the contents API. *)
Definition fileAnswer (sha : string) (content : option string) : FetchOutcome :=
  bodyAnswer (JObj (("name", JStr "marker") :: ("sha", JStr sha) ::
                    match content with
                    | Some c => [("content", JStr c); ("encoding", JStr "base64")]
                    | None => []
                    end)).


(** Two signals are notified, Cascade's marker at 1000 and again at 1400,
    Replit's at 1500; a scan ticks at 5000 and a poll starts; the checks of
    the scan and the fetch of the poll are answered in some order. *)
Definition exampleRun : list SysEvent :=
  [ WatchAt 1000 (Some "notify-cascade");
    WatchAt 1400 (Some "notify-cascade");
    WatchAt 1500 (Some "notify-replit");
    PassTo 2200;
    StatAnswer 0 (StatOk 1400);
    ScanAt 5000;
    PollAt;
    ReadAnswer 0 (ReadOk "ping");
    StatAnswer 3 (StatErr ENOENT);
    FetchAnswer 0 (fileAnswer "abc123" None);
    WatchAt 5100 (Some "notify-cascade") ].

(** A burst for Cascade's marker (1000, 1010, 1400) with a scan tick inside
    it, whose check of Cascade is answered and dispatches meanwhile. *)
Definition burstRun : list SysEvent :=
  [ WatchAt 1010 (Some "notify-cascade");
    ScanAt 1200;
    StatAnswer 0 (StatOk 1000);
    WatchAt 1400 (Some "notify-cascade");
    ReadAnswer 0 (ReadOk "ping");
    WatchAt 1500 (Some "notify-replit") ].

(** The marker of Cascade is written at 4900 with the content ["one"] and
    again at 5200 with the content ["two"]; a scan ticks at 5000. *)
Definition twoWritesRun : list SysEvent :=
  [ WatchAt 4900 (Some "notify-cascade");
    ScanAt 5000;
    StatAnswer 0 (StatOk 4900);
    ReadAnswer 0 (ReadOk "one");
    StatAnswer 1 (StatErr ENOENT);
    WatchAt 5200 (Some "notify-cascade");
    PassTo 6000;
    StatAnswer 2 (StatOk 5200);
    ReadAnswer 2 (ReadOk "two") ].

(** The marker of Cascade is written at 1000 and handled; a change
    notification at 2000 leaves its modification time as it is. *)
Definition handledRun : list SysEvent :=
  [ WatchAt 1000 (Some "notify-cascade");
    PassTo 1750;
    StatAnswer 0 (StatOk 1000);
    ReadAnswer 0 (ReadOk "ping") ].

Definition touchedRun : list SysEvent :=
  [ WatchAt 2000 (Some "notify-cascade");
    PassTo 5000;
    StatAnswer 1 (StatOk 1000) ].

(* ===================================================================== *)
(** ** Examples *)
(* ===================================================================== *)

Example trim_ping : Str.trim ("  ping" +:+ String (Str.byte 10) "") = "ping".
Proof. reflexivity. Qed.

Example trim_inner_space : Str.trim " a b " = "a b".
Proof. reflexivity. Qed.

(** A byte order mark in front, a no-break space and a line feed behind. *)
Example trim_unicode_space :
  Str.trim (String (Str.byte 239) (String (Str.byte 187) (String (Str.byte 191)
              ("a b" +:+ String (Str.byte 194) (String (Str.byte 160)
                           (String (Str.byte 10) ""))))))
  = "a b".
Proof. reflexivity. Qed.

Example upper_cascade : Str.toUpperCase "Cascade" = "CASCADE".
Proof. reflexivity. Qed.

Example decode_pong : Base64.decode "cG9uZw==" = "pong".
Proof. reflexivity. Qed.

Example decode_ping_newline :
  Base64.decode ("cGlu" +:+ String (Str.byte 10) "Zwo=") = "ping" +:+ String (Str.byte 10) "".
Proof. reflexivity. Qed.

(** Of two members with the same name the later one counts. *)
Example field_later_wins :
  field "sha" [("sha", JStr "a"); ("size", JNum (Q2Qc 5)); ("sha", JStr "b")]
  = JStr "b".
Proof. reflexivity. Qed.

(* ===================================================================== *)
(** ** Running computations *)
(* ===================================================================== *)

Lemma add_effects_nil w : add_effects [] w = w.
Proof. destruct w; unfold add_effects; simpl. by rewrite app_nil_r. Qed.

Lemma with_effect_add e l w :
  with_effect e (add_effects l w) = add_effects (l ++ [e]) w.
Proof. unfold with_effect, add_effects; simpl. by rewrite app_assoc. Qed.

Lemma with_effect_one e w : with_effect e w = add_effects [e] w.
Proof. reflexivity. Qed.

Lemma add_effects_add l1 l2 w :
  add_effects l2 (add_effects l1 w) = add_effects (l1 ++ l2) w.
Proof. unfold add_effects; simpl. by rewrite app_assoc. Qed.

Lemma drop_own_length {A} (l k : list A) : drop (List.length l) (l ++ k) = k.
Proof. induction l; simpl; auto. Qed.

Lemma notifications_app l1 l2 :
  notifications (l1 ++ l2) = notifications l1 ++ notifications l2.
Proof.
  induction l1 as [|e l1 IH]; simpl; [done|].
  destruct e; simpl; by rewrite ?IH.
Qed.

Lemma dispatchStates_app l1 l2 :
  dispatchStates (l1 ++ l2) = dispatchStates l1 ++ dispatchStates l2.
Proof.
  induction l1 as [|e l1 IH]; simpl; [done|].
  destruct e; simpl; by rewrite ?IH.
Qed.

Ltac js_unfold :=
  unfold mbind, mret, Js_bind, Js_ret, emit, get, modify, leave, throw,
    try_catch, block, detach, exec, completion in *.

Lemma triggerNotification_run fromAgent context w :
  triggerNotification fromAgent context w
  = (Normal tt,
     add_effects
       (dispatchEffects (lastHandled w) (lastGitHubSha w) fromAgent context) w).
Proof.
  unfold triggerNotification. js_unfold. cbv beta iota zeta.
  rewrite (with_effect_one _ w). rewrite !with_effect_add. reflexivity.
Qed.

Lemma notifications_dispatch h s a c :
  notifications (dispatchEffects h s a c) = [(a, c)].
Proof. reflexivity. Qed.

Lemma dispatchStates_dispatch h s a c :
  dispatchStates (dispatchEffects h s a c) = [(h, s)].
Proof. reflexivity. Qed.

Lemma emitted_add_effects {A} (m : Js A) w l w0 :
  exec m w = add_effects l w0 → effects w0 = effects w → emitted m w = l.
Proof.
  unfold emitted. intros -> <-. simpl. apply drop_own_length.
Qed.

Lemma emitted_unchanged {A} (m : Js A) w : exec m w = w → emitted m w = [].
Proof.
  intros H. apply (emitted_add_effects m w [] w); [|done].
  by rewrite add_effects_nil.
Qed.

(* ===================================================================== *)
(** ** The registry *)
(* ===================================================================== *)

Lemma registry_cases (t : Target) :
  t ∈ TARGETS →
  t = mkTarget "notify-cascade" "Cascade" "Replit"
  ∨ t = mkTarget "notify-replit" "Replit" "Cascade".
Proof.
  unfold TARGETS. intros Hin.
  apply elem_of_cons in Hin as [->|Hin]; [by left|].
  apply list_elem_of_singleton in Hin as ->. by right.
Qed.

Lemma registry_name_inj (x t : Target) :
  x ∈ TARGETS → t ∈ TARGETS → name x = name t → x = t.
Proof.
  intros [->| ->]%registry_cases [->| ->]%registry_cases; simpl;
    intros H; try done; discriminate H.
Qed.

Lemma registry_agent_inj (x t : Target) :
  x ∈ TARGETS → t ∈ TARGETS → agent x = agent t → x = t.
Proof.
  intros [->| ->]%registry_cases [->| ->]%registry_cases; simpl;
    intros H; try done; discriminate H.
Qed.

Lemma registry_find (t : Target) :
  t ∈ TARGETS → List.find (λ x, String.eqb (name x) (name t)) TARGETS = Some t.
Proof. by intros [->| ->]%registry_cases. Qed.

Lemma registry_find_Some (f : string) (t : Target) :
  List.find (λ x, String.eqb (name x) f) TARGETS = Some t →
  t ∈ TARGETS ∧ name t = f.
Proof.
  intros H. apply List.find_some in H as [Hin Hname].
  split; [by apply list_elem_of_In|]. by apply String.eqb_eq.
Qed.

Lemma registry_all_in : Forall (λ x, x ∈ TARGETS) TARGETS.
Proof. apply Forall_forall. auto. Qed.

Lemma cascade_in : cascade ∈ TARGETS.
Proof. apply elem_of_cons. by left. Qed.

Lemma replit_in : replit ∈ TARGETS.
Proof. apply elem_of_cons. right. by apply list_elem_of_singleton. Qed.

Lemma append_inj_l (p a b : string) : p +:+ a = p +:+ b → a = b.
Proof. induction p as [|c p IH]; simpl; [done|]. intros [=]. auto. Qed.

Lemma path_join_inj dir a b : path_join dir a = path_join dir b → a = b.
Proof.
  unfold path_join. intros H. apply append_inj_l in H.
  by apply (append_inj_l "/") in H.
Qed.

(* ===================================================================== *)
(** ** The local check, run *)
(* ===================================================================== *)

Section LocalFacts.
Context {host : Host}.

Lemma localPath_inj (x y : Target) : localPath x = localPath y → name x = name y.
Proof. apply path_join_inj. Qed.

Lemma registry_path_inj (x t : Target) :
  x ∈ TARGETS → t ∈ TARGETS → localPath x = localPath t → x = t.
Proof. intros Hx Ht H%localPath_inj. by apply registry_name_inj. Qed.

Lemma handleLocalFlag_run target io w :
  handleLocalFlag target io w =
  match io_stat io with
  | StatErr e =>
      if is_ENOENT e then (Normal tt, w)
      else (Normal tt,
            add_effects [ConsoleError ("[local] error: " +:+ err_message e)] w)
  | StatOk m =>
      if Qle_bool m (or_zero (lastHandled w !! localPath target))
      then (Normal tt, w)
      else (Normal tt,
            add_effects
              (SetLastHandled (localPath target) m
                 :: dispatchEffects (<[localPath target := m]> (lastHandled w))
                      (lastGitHubSha w) (agent target) (localContext io))
              (with_lastHandled <[localPath target := m]> w))
  end.
Proof.
  unfold handleLocalFlag, localPath, localContext, fs_stat, fs_readFile.
  destruct (io_stat io) as [m|e].
  - js_unfold. cbv beta iota zeta.
    destruct (Qle_bool m _); [reflexivity|].
    destruct (io_read io) as [text|e'];
      cbv beta iota zeta; rewrite triggerNotification_run;
      rewrite with_effect_one, add_effects_add; reflexivity.
  - js_unfold. cbv beta iota zeta.
    destruct (is_ENOENT e); reflexivity.
Qed.

(** The effects a check appends. *)
Lemma handleLocalFlag_emitted target io w :
  emitted (handleLocalFlag target io) w =
  match io_stat io with
  | StatErr e =>
      if is_ENOENT e then []
      else [ConsoleError ("[local] error: " +:+ err_message e)]
  | StatOk m =>
      if Qle_bool m (or_zero (lastHandled w !! localPath target)) then []
      else SetLastHandled (localPath target) m
             :: dispatchEffects (<[localPath target := m]> (lastHandled w))
                  (lastGitHubSha w) (agent target) (localContext io)
  end.
Proof.
  destruct (io_stat io) as [m|e] eqn:Hs.
  - destruct (Qle_bool m _) eqn:Hle.
    + apply emitted_unchanged. unfold exec.
      by rewrite handleLocalFlag_run, Hs, Hle.
    + eapply emitted_add_effects.
      * unfold exec. by rewrite handleLocalFlag_run, Hs, Hle.
      * reflexivity.
  - destruct (is_ENOENT e) eqn:He.
    + apply emitted_unchanged. unfold exec.
      by rewrite handleLocalFlag_run, Hs, He.
    + eapply emitted_add_effects.
      * unfold exec. by rewrite handleLocalFlag_run, Hs, He.
      * reflexivity.
Qed.

(** The [lastHandled] map a check leaves. *)
Lemma handleLocalFlag_lastHandled target io w :
  lastHandled (exec (handleLocalFlag target io) w) =
  match io_stat io with
  | StatOk m =>
      if Qle_bool m (or_zero (lastHandled w !! localPath target))
      then lastHandled w
      else <[localPath target := m]> (lastHandled w)
  | StatErr _ => lastHandled w
  end.
Proof.
  unfold exec. rewrite handleLocalFlag_run.
  destruct (io_stat io) as [m|e].
  - by destruct (Qle_bool m _).
  - by destruct (is_ENOENT e).
Qed.

(** A check always completes normally: its promise never rejects. *)
Lemma handleLocalFlag_completes target io w :
  completion (handleLocalFlag target io) w = Normal tt.
Proof.
  unfold completion. rewrite handleLocalFlag_run.
  destruct (io_stat io) as [m|e].
  - by destruct (Qle_bool m _).
  - by destruct (is_ENOENT e).
Qed.

(** A stored time stamp is read back as itself, up to the equality of
    rationals. *)
Lemma or_zero_Qeq (v : Q) : (or_zero (Some v) == v)%Q.
Proof.
  unfold or_zero. destruct (Qeq_bool v 0) eqn:H; [|reflexivity].
  apply Qeq_bool_iff in H. by symmetry.
Qed.

Lemma Qle_bool_false_lt (x y : Q) : Qle_bool x y = false ↔ (y < x)%Q.
Proof.
  split.
  - intros H. apply Qnot_le_lt. intros Hle.
    apply Qle_bool_iff in Hle. congruence.
  - intros H. destruct (Qle_bool x y) eqn:E; [|done].
    apply Qle_bool_iff in E. exfalso. eapply Qlt_not_le; eauto.
Qed.

Lemma handleLocalFlag_notifications target io w :
  notifications (emitted (handleLocalFlag target io) w) =
  match io_stat io with
  | StatOk m =>
      if Qle_bool m (or_zero (lastHandled w !! localPath target)) then []
      else [(agent target, localContext io)]
  | StatErr _ => []
  end.
Proof.
  rewrite handleLocalFlag_emitted.
  destruct (io_stat io) as [m|e].
  - by destruct (Qle_bool m _).
  - by destruct (is_ENOENT e).
Qed.

Lemma handleLocalFlag_effects target io w :
  effects (exec (handleLocalFlag target io) w)
  = effects w ++ emitted (handleLocalFlag target io) w.
Proof.
  rewrite handleLocalFlag_emitted. unfold exec. rewrite handleLocalFlag_run.
  destruct (io_stat io) as [m|e].
  - destruct (Qle_bool m _); simpl; by rewrite ?app_nil_r.
  - destruct (is_ENOENT e); simpl; by rewrite ?app_nil_r.
Qed.

(** A check whose stat answers a time not above the stored one, or fails,
    dispatches nothing. *)
Lemma handled_check_silent target io w T :
  lastHandled w !! localPath target = Some T →
  (∀ T2, io_stat io = StatOk T2 → (T2 <= T)%Q) →
  notifications (emitted (handleLocalFlag target io) w) = [].
Proof.
  intros Hst Hle. rewrite handleLocalFlag_notifications.
  destruct (io_stat io) as [m|e]; [|done].
  specialize (Hle m eq_refl).
  destruct (Qle_bool m _) eqn:E; [done|].
  apply Qle_bool_false_lt in E. rewrite Hst in E.
  pose proof (or_zero_Qeq T) as Hz. rewrite Hz in E.
  exfalso. eapply Qlt_not_le; eauto.
Qed.

(** A check leaves the runtime and the fingerprints alone. *)
Lemma handleLocalFlag_runtime target io w :
  timers (exec (handleLocalFlag target io) w) = timers w
  ∧ nextTimerId (exec (handleLocalFlag target io) w) = nextTimerId w
  ∧ pendingTimeouts (exec (handleLocalFlag target io) w) = pendingTimeouts w
  ∧ lastGitHubSha (exec (handleLocalFlag target io) w) = lastGitHubSha w
  ∧ now (exec (handleLocalFlag target io) w) = now w.
Proof.
  unfold exec. rewrite handleLocalFlag_run.
  destruct (io_stat io) as [m|e];
    [destruct (Qle_bool m _)|destruct (is_ENOENT e)]; done.
Qed.

End LocalFacts.

(* ===================================================================== *)
(** ** Interleaved local checks *)
(* ===================================================================== *)

Lemma notifiedBy_app a l1 l2 :
  notifiedBy a (l1 ++ l2) = notifiedBy a l1 ++ notifiedBy a l2.
Proof. unfold notifiedBy. by rewrite notifications_app, filter_app. Qed.

Lemma notifiedBy_dispatch_same h s a c :
  notifiedBy a (dispatchEffects h s a c) = [(a, c)].
Proof.
  unfold notifiedBy. rewrite notifications_dispatch, filter_cons.
  by rewrite decide_True.
Qed.

Lemma notifiedBy_dispatch_other h s a b c :
  b ≠ a → notifiedBy a (dispatchEffects h s b c) = [].
Proof.
  intros Hne. unfold notifiedBy. rewrite notifications_dispatch, filter_cons.
  by rewrite decide_False.
Qed.

Lemma ofRegistry_app l1 l2 : ofRegistry l1 → ofRegistry l2 → ofRegistry (l1 ++ l2).
Proof. intros H1 H2. apply Forall_app. by split. Qed.

Lemma ofRegistry_insert tasks i new :
  ofRegistry tasks → (∀ x, taskTarget new = Some x → x ∈ TARGETS) →
  ofRegistry (<[i := new]> tasks).
Proof. unfold ofRegistry. intros H1 H2. by apply Forall_insert. Qed.

Lemma ofRegistry_scan : ofRegistry fallbackScan.
Proof.
  unfold fallbackScan, forEach_handleLocalFlag, ofRegistry.
  apply Forall_fmap, Forall_forall. intros x Hx y [= <-]. exact Hx.
Qed.

Lemma ofRegistry_lookup tasks i t x :
  ofRegistry tasks → tasks !! i = Some t → taskTarget t = Some x → x ∈ TARGETS.
Proof. intros Hall Hi Ht. eapply Forall_lookup_1 in Hall; [|exact Hi]. by apply Hall. Qed.

Section LocalInterleaving.
Context {host : Host}.

Lemma resumeAfterStat_run target r w :
  resumeAfterStat target r w =
  match r with
  | StatErr e =>
      if is_ENOENT e then (Normal false, w)
      else (Normal false,
            add_effects [ConsoleError ("[local] error: " +:+ err_message e)] w)
  | StatOk m =>
      if Qle_bool m (or_zero (lastHandled w !! localPath target))
      then (Normal false, w)
      else (Normal true,
            add_effects [SetLastHandled (localPath target) m]
              (with_lastHandled <[localPath target := m]> w))
  end.
Proof.
  unfold resumeAfterStat, localPath. destruct r as [m|e].
  - js_unfold. cbv beta iota zeta. by destruct (Qle_bool m _).
  - js_unfold. cbv beta iota zeta. by destruct (is_ENOENT e).
Qed.

Lemma resumeAfterRead_run target r w :
  resumeAfterRead target r w =
  (Normal tt,
   add_effects
     (dispatchEffects (lastHandled w) (lastGitHubSha w) (agent target)
        match r with ReadOk text => Str.trim text | ReadErr _ => "" end) w).
Proof. unfold resumeAfterRead. apply triggerNotification_run. Qed.

(** Run back to back, the two segments are the check. *)
Lemma handleLocalFlag_segments target io w :
  handleLocalFlag target io w =
  match resumeAfterStat target (io_stat io) w with
  | (Normal true, w') => resumeAfterRead target (io_read io) w'
  | (_, w') => (Normal tt, w')
  end.
Proof.
  rewrite handleLocalFlag_run, resumeAfterStat_run.
  destruct (io_stat io) as [m|e].
  - destruct (Qle_bool m _); [done|].
    rewrite resumeAfterRead_run, add_effects_add. reflexivity.
  - by destruct (is_ENOENT e).
Qed.

(** What the arrival of a stat answer does. *)
Lemma localStep_stat i r w tasks st' :
  localStep (StatDone i r) (w, tasks) = Some st' →
  ∃ x, tasks !! i = Some (AwaitStat x)
       ∧ st' =
         match r with
         | StatErr e =>
             (if is_ENOENT e then w
              else add_effects
                     [ConsoleError ("[local] error: " +:+ err_message e)] w,
              <[i := Over]> tasks)
         | StatOk m =>
             if Qle_bool m (or_zero (lastHandled w !! localPath x))
             then (w, <[i := Over]> tasks)
             else (add_effects [SetLastHandled (localPath x) m]
                     (with_lastHandled <[localPath x := m]> w),
                   <[i := AwaitRead x]> tasks)
         end.
Proof.
  simpl. destruct (tasks !! i) as [[x| |]|]; try discriminate.
  rewrite resumeAfterStat_run. intros H. exists x. split; [done|].
  destruct r as [m|e].
  - destruct (Qle_bool m _); by injection H as <-.
  - destruct (is_ENOENT e); by injection H as <-.
Qed.

(** What the arrival of a read answer does. *)
Lemma localStep_read i r w tasks st' :
  localStep (ReadDone i r) (w, tasks) = Some st' →
  ∃ x, tasks !! i = Some (AwaitRead x)
       ∧ st' =
         (add_effects
            (dispatchEffects (lastHandled w) (lastGitHubSha w) (agent x)
               match r with ReadOk text => Str.trim text | ReadErr _ => "" end)
            w,
          <[i := Over]> tasks).
Proof.
  simpl. destruct (tasks !! i) as [[x|x|]|]; try discriminate.
  unfold exec. rewrite resumeAfterRead_run. intros [= <-]. by exists x.
Qed.

Lemma reading_app l1 l2 : reading (l1 ++ l2) = reading l1 + reading l2.
Proof.
  induction l1 as [|t l1 IH]; simpl; [done|].
  destruct t; simpl; by rewrite IH.
Qed.

Lemma reading_scan : reading fallbackScan = 0.
Proof. reflexivity. Qed.

Lemma reading_insert tasks i old new :
  tasks !! i = Some old →
  reading (<[i := new]> tasks) + isReading old = reading tasks + isReading new.
Proof.
  revert i. induction tasks as [|t tasks IH]; intros i Hi; [done|].
  destruct i as [|i]; simpl in *.
  - injection Hi as ->. destruct old, new; simpl; lia.
  - specialize (IH i Hi). destruct t; simpl; lia.
Qed.

Lemma readingOf_app p l1 l2 :
  readingOf p (l1 ++ l2) = readingOf p l1 + readingOf p l2.
Proof. induction l1 as [|t l1 IH]; simpl; [done|]. rewrite IH. lia. Qed.

Lemma readingOf_scan p : readingOf p fallbackScan = 0.
Proof. reflexivity. Qed.

Lemma readingOf_insert p tasks i old new :
  tasks !! i = Some old →
  readingOf p (<[i := new]> tasks) + isReadingOf p old
  = readingOf p tasks + isReadingOf p new.
Proof.
  revert i. induction tasks as [|t tasks IH]; intros i Hi; [done|].
  destruct i as [|i]; simpl in *.
  - injection Hi as ->. lia.
  - specialize (IH i Hi). lia.
Qed.

Lemma isReadingOf_read_same p x :
  localPath x = p → isReadingOf p (AwaitRead x) = 1.
Proof. intros <-. simpl. by rewrite String.eqb_refl. Qed.

Lemma isReadingOf_read_other p x :
  localPath x ≠ p → isReadingOf p (AwaitRead x) = 0.
Proof. intros H. simpl. by apply String.eqb_neq in H as ->. Qed.

(** The agents of two signals of the registry with different paths
    differ. *)
Lemma registry_other_agent (x t : Target) :
  x ∈ TARGETS → t ∈ TARGETS → localPath x ≠ localPath t → agent x ≠ agent t.
Proof. intros Hx Ht Hp Ha. apply Hp. by rewrite (registry_agent_inj x t Hx Ht Ha). Qed.

Lemma localStep_oneWinner target m base ev st st' :
  target ∈ TARGETS →
  localStep ev st = Some st' →
  match ev with
  | StartCheck x => x ∈ TARGETS
  | StatDone i r =>
      ∀ x, st.2 !! i = Some (AwaitStat x) →
           localPath x = localPath target → seesWrite m r
  | _ => True
  end →
  oneWinner target m base st → oneWinner target m base st'.
Proof.
  destruct st as [w tasks]. intros Ht Hstep Hev (Hall & l & Hl & Hle & Hset).
  simpl in Hall, Hl, Hle, Hset, Hev.
  set (p := localPath target) in *.
  destruct ev as [x| |i r|i r].
  - injection Hstep as <-. split; simpl.
    + apply ofRegistry_app; [done|]. constructor; [|done]. by intros y [= <-].
    + exists l. rewrite readingOf_app. simpl. rewrite !Nat.add_0_r. done.
  - injection Hstep as <-. split; simpl.
    + apply ofRegistry_app; [done|apply ofRegistry_scan].
    + exists l. rewrite readingOf_app, readingOf_scan, Nat.add_0_r. done.
  - apply localStep_stat in Hstep as (x & Hi & ->).
    assert (Hx : x ∈ TARGETS) by (by eapply ofRegistry_lookup).
    pose proof (readingOf_insert p tasks i (AwaitStat x) Over Hi) as Hover.
    pose proof (readingOf_insert p tasks i (AwaitStat x) (AwaitRead x) Hi)
      as Hread.
    simpl isReadingOf in Hover, Hread. rewrite !Nat.add_0_r in Hover.
    assert (Hquiet : ∀ w', lastHandled w' !! p = lastHandled w !! p →
              notifiedBy (agent target) (effects w')
              = notifiedBy (agent target) (effects w) →
              oneWinner target m base (w', <[i := Over]> tasks)).
    { intros w' Hlh Hno. split; simpl.
      - apply ofRegistry_insert; [done|]. intros y [=].
      - exists l. fold p. rewrite Hover, Hlh, Hno. done. }
    destruct r as [m'|e].
    + destruct (Qle_bool m' _) eqn:Hcmp; [by apply Hquiet|].
      apply Qle_bool_false_lt in Hcmp.
      destruct (decide (localPath x = p)) as [Hp|Hp].
      * rewrite Hp in Hcmp. specialize (Hev x Hi Hp). simpl in Hev.
        rewrite (proj2 (String.eqb_eq _ _) Hp) in Hread.
        assert (Hzero : List.length l + readingOf p tasks = 0).
        { destruct (decide (List.length l + readingOf p tasks = 1)) as [H1|H1];
            [|lia].
          specialize (Hset H1). exfalso.
          apply (Qlt_not_le _ _ Hcmp). by rewrite Hev. }
        split; simpl.
        -- apply ofRegistry_insert; [done|]. by intros y [= <-].
        -- exists l. fold p. rewrite notifiedBy_app, Hl. simpl.
           rewrite app_nil_r. split; [done|]. split; [lia|].
           intros _. rewrite Hp, lookup_insert_eq.
           rewrite (or_zero_Qeq m'). by rewrite Hev; apply Qle_refl.
      * rewrite (proj2 (String.eqb_neq _ _) Hp) in Hread.
        rewrite !Nat.add_0_r in Hread.
        split; simpl.
        -- apply ofRegistry_insert; [done|]. by intros y [= <-].
        -- exists l. fold p. rewrite notifiedBy_app, Hl. simpl.
           rewrite app_nil_r, Hread, lookup_insert_ne by done. done.
    + destruct (is_ENOENT e); apply Hquiet; try done.
      simpl. rewrite notifiedBy_app. simpl. by rewrite app_nil_r.
  - apply localStep_read in Hstep as (x & Hi & ->).
    assert (Hx : x ∈ TARGETS) by (by eapply ofRegistry_lookup).
    pose proof (readingOf_insert p tasks i (AwaitRead x) Over Hi) as Hover.
    simpl isReadingOf in Hover. rewrite Nat.add_0_r in Hover.
    split; simpl.
    { apply ofRegistry_insert; [done|]. intros y [=]. }
    rewrite notifiedBy_app, Hl. fold p.
    destruct (decide (localPath x = p)) as [Hp|Hp].
    + assert (x = target) as -> by (by apply registry_path_inj).
      rewrite String.eqb_refl in Hover.
      rewrite notifiedBy_dispatch_same.
      eexists (l ++ [_]). rewrite app_assoc. split; [reflexivity|].
      rewrite length_app. simpl. split; [lia|].
      intros H1. apply Hset. lia.
    + rewrite (proj2 (String.eqb_neq _ _) Hp), Nat.add_0_r in Hover.
      rewrite notifiedBy_dispatch_other
        by (by apply registry_other_agent).
      exists l. rewrite app_nil_r, Hover. done.
Qed.

Lemma localRun_oneWinner target m base evs st st' :
  target ∈ TARGETS →
  localRun evs st = Some st' →
  Forall (λ x, x ∈ TARGETS) (startedTargets evs) →
  Forall (λ xr, localPath xr.1 = localPath target → seesWrite m xr.2)
    (statDeliveries evs st) →
  oneWinner target m base st → oneWinner target m base st'.
Proof.
  intros Ht. revert st. induction evs as [|ev evs IH];
    intros st Hrun Hst Hans Hinv; simpl in Hrun.
  - by injection Hrun as <-.
  - destruct (localStep ev st) as [st1|] eqn:Hstep; [|discriminate].
    simpl in Hans. rewrite Hstep in Hans.
    apply Forall_app in Hans as [Hnow Hans].
    change (startedTargets (ev :: evs))
      with (match ev with
            | StartCheck t => [t]
            | StartScan => TARGETS
            | _ => []
            end ++ startedTargets evs) in Hst.
    apply Forall_app in Hst as [Hev Hst].
    apply (IH st1 Hrun Hst Hans).
    eapply localStep_oneWinner; [exact Ht|exact Hstep| |exact Hinv].
    destruct ev as [x| |i r|i r]; try done.
    + by apply Forall_cons in Hev as [? _].
    + intros x Hi Hp. rewrite Hi in Hnow.
      apply Forall_cons in Hnow as [Hnow _]. by apply Hnow.
Qed.

Lemma localStep_quietFor target T base ev st st' :
  target ∈ TARGETS →
  localStep ev st = Some st' →
  match ev with
  | StartCheck x => x ∈ TARGETS
  | StatDone i r =>
      ∀ x, st.2 !! i = Some (AwaitStat x) →
           localPath x = localPath target → noNewerThan T r
  | _ => True
  end →
  quietFor target T base st → quietFor target T base st'.
Proof.
  destruct st as [w tasks]. intros Ht Hstep Hev (Hall & Hnone & Hle & Hno).
  simpl in Hall, Hnone, Hle, Hno, Hev.
  set (p := localPath target) in *.
  destruct ev as [x| |i r|i r].
  - injection Hstep as <-. split; simpl.
    + apply ofRegistry_app; [done|]. constructor; [|done]. by intros y [= <-].
    + fold p. rewrite readingOf_app. simpl. rewrite Hnone. done.
  - injection Hstep as <-. split; simpl.
    + apply ofRegistry_app; [done|apply ofRegistry_scan].
    + fold p. rewrite readingOf_app, readingOf_scan, Hnone. done.
  - apply localStep_stat in Hstep as (x & Hi & ->).
    assert (Hx : x ∈ TARGETS) by (by eapply ofRegistry_lookup).
    pose proof (readingOf_insert p tasks i (AwaitStat x) Over Hi) as Hover.
    pose proof (readingOf_insert p tasks i (AwaitStat x) (AwaitRead x) Hi)
      as Hread.
    simpl isReadingOf in Hover, Hread. rewrite !Nat.add_0_r in Hover.
    assert (Hquiet : ∀ w', lastHandled w' !! p = lastHandled w !! p →
              notifiedBy (agent target) (effects w')
              = notifiedBy (agent target) (effects w) →
              quietFor target T base (w', <[i := Over]> tasks)).
    { intros w' Hlh Hn. split; simpl.
      - apply ofRegistry_insert; [done|]. intros y [=].
      - fold p. rewrite Hover, Hlh, Hn. done. }
    destruct r as [m'|e].
    + destruct (Qle_bool m' _) eqn:Hcmp; [by apply Hquiet|].
      apply Qle_bool_false_lt in Hcmp.
      destruct (decide (localPath x = p)) as [Hp|Hp].
      * exfalso. rewrite Hp in Hcmp. specialize (Hev x Hi Hp). simpl in Hev.
        apply (Qlt_not_le _ _ Hcmp). by apply Qle_trans with T.
      * rewrite (proj2 (String.eqb_neq _ _) Hp) in Hread.
        rewrite !Nat.add_0_r in Hread.
        split; simpl.
        -- apply ofRegistry_insert; [done|]. by intros y [= <-].
        -- fold p. rewrite notifiedBy_app, Hno. simpl.
           rewrite app_nil_r, Hread, lookup_insert_ne by done. done.
    + destruct (is_ENOENT e); apply Hquiet; try done.
      simpl. rewrite notifiedBy_app. simpl. by rewrite app_nil_r.
  - apply localStep_read in Hstep as (x & Hi & ->).
    assert (Hx : x ∈ TARGETS) by (by eapply ofRegistry_lookup).
    pose proof (readingOf_insert p tasks i (AwaitRead x) Over Hi) as Hover.
    simpl isReadingOf in Hover. rewrite Nat.add_0_r in Hover.
    destruct (decide (localPath x = p)) as [Hp|Hp].
    { rewrite (proj2 (String.eqb_eq _ _) Hp) in Hover. lia. }
    rewrite (proj2 (String.eqb_neq _ _) Hp), Nat.add_0_r in Hover.
    split; simpl.
    { apply ofRegistry_insert; [done|]. intros y [=]. }
    fold p. rewrite notifiedBy_app, Hno.
    rewrite notifiedBy_dispatch_other by (by apply registry_other_agent).
    rewrite app_nil_r, Hover. done.
Qed.

Lemma localRun_quietFor target T base evs st st' :
  target ∈ TARGETS →
  localRun evs st = Some st' →
  Forall (λ x, x ∈ TARGETS) (startedTargets evs) →
  Forall (λ xr, localPath xr.1 = localPath target → noNewerThan T xr.2)
    (statDeliveries evs st) →
  quietFor target T base st → quietFor target T base st'.
Proof.
  intros Ht. revert st. induction evs as [|ev evs IH];
    intros st Hrun Hst Hans Hinv; simpl in Hrun.
  - by injection Hrun as <-.
  - destruct (localStep ev st) as [st1|] eqn:Hstep; [|discriminate].
    simpl in Hans. rewrite Hstep in Hans.
    apply Forall_app in Hans as [Hnow Hans].
    change (startedTargets (ev :: evs))
      with (match ev with
            | StartCheck t => [t]
            | StartScan => TARGETS
            | _ => []
            end ++ startedTargets evs) in Hst.
    apply Forall_app in Hst as [Hev Hst].
    apply (IH st1 Hrun Hst Hans).
    eapply localStep_quietFor; [exact Ht|exact Hstep| |exact Hinv].
    destruct ev as [x| |i r|i r]; try done.
    + by apply Forall_cons in Hev as [? _].
    + intros x Hi Hp. rewrite Hi in Hnow.
      apply Forall_cons in Hnow as [Hnow _]. by apply Hnow.
Qed.

End LocalInterleaving.

Section LocalClaims.
Context {host : Host}.

(** C1. A local-channel check dispatches if and only if the marker file
    exists (stat answers) and its modification time is strictly greater than
    the stored [lastHandledTimestamp] (read as the code reads it,
    [lastHandled.get(filePath) || 0]).  When a check sees the file with a
    time [T] above the stored one, it fires exactly one notification and
    stores [T]; afterwards, while [T] is the stored time, a check that sees
    an equal or smaller time (or no file) fires nothing, and neither does a
    tick of the fallback scan for that signal: however the checks that the
    scan and the timers start interleave, as long as the stat answers for
    the signal show nothing newer than [T], no notification is added for
    it. *)
Theorem local_dispatch_iff_newer (target : Target) (io : LocalIO) (w : World) :
  let prev := or_zero (lastHandled w !! localPath target) in
  (notifications (emitted (handleLocalFlag target io) w) ≠ []
     ↔ ∃ m, io_stat io = StatOk m ∧ (prev < m)%Q)
  ∧ ∀ T, io_stat io = StatOk T → (prev < T)%Q →
      notifications (emitted (handleLocalFlag target io) w)
        = [(agent target, localContext io)]
      ∧ lastHandled (exec (handleLocalFlag target io) w) !! localPath target
        = Some T
      ∧ (∀ w2 io2,
           lastHandled w2 !! localPath target = Some T →
           (∀ T2, io_stat io2 = StatOk T2 → (T2 <= T)%Q) →
           notifications (emitted (handleLocalFlag target io2) w2) = [])
      ∧ (∀ w2 evs st,
           target ∈ TARGETS →
           lastHandled w2 !! localPath target = Some T →
           localRun (StartScan :: evs) (w2, []) = Some st →
           Forall (λ x, x ∈ TARGETS) (startedTargets evs) →
           Forall (λ xr, localPath xr.1 = localPath target
                         → noNewerThan T xr.2)
                  (statDeliveries (StartScan :: evs) (w2, [])) →
           notifiedBy (agent target) (effects st.1)
           = notifiedBy (agent target) (effects w2)).
Proof.
  intros prev. split.
  - rewrite handleLocalFlag_notifications. fold prev.
    destruct (io_stat io) as [m|e].
    + destruct (Qle_bool m prev) eqn:E.
      * split; [done|]. intros (m' & [= <-] & Hlt).
        apply Qle_bool_false_lt in Hlt. congruence.
      * split; [|done]. intros _. exists m. split; [done|].
        by apply Qle_bool_false_lt.
    + split; [done|]. intros (m' & [=] & _).
  - intros T Hs Hlt. apply Qle_bool_false_lt in Hlt.
    repeat split.
    + rewrite handleLocalFlag_notifications, Hs. fold prev. by rewrite Hlt.
    + rewrite handleLocalFlag_lastHandled, Hs. fold prev. rewrite Hlt.
      apply lookup_insert_eq.
    + intros w2 io2 Hst Hle. by apply (handled_check_silent _ _ _ T).
    + intros w2 evs st Hin Hst Hrun Hreg Hans.
      destruct (localRun_quietFor target T
                  (notifiedBy (agent target) (effects w2))
                  (StartScan :: evs) (w2, []) st Hin Hrun)
        as (_ & _ & _ & Hno); [| | |exact Hno].
      * change (startedTargets (StartScan :: evs))
          with (TARGETS ++ startedTargets evs).
        apply Forall_app. split; [apply registry_all_in|done].
      * exact Hans.
      * split; [constructor|]. split; [done|]. split; [|done].
        simpl. rewrite Hst. by rewrite (or_zero_Qeq T); apply Qle_refl.
Qed.

(** C4. A check that dispatches has written the new modification time to
    [lastHandled] before: the dispatcher is entered with that time stored
    for the path, the write comes first in the log, and the time is already
    stored when the check suspends at the read that precedes the dispatch;
    when the read answer arrives, the dispatcher is entered with the maps as
    they then are.  Hence, however the steps of the checks that scans and
    timers start interleave, if every stat answer for the signal shows the
    same modification time (or fails), at most one notification is
    dispatched for the signal. *)
Theorem local_store_before_dispatch (target : Target) :
  (∀ io w, notifications (emitted (handleLocalFlag target io) w) ≠ [] →
     ∃ m, io_stat io = StatOk m
          ∧ emitted (handleLocalFlag target io) w
            = SetLastHandled (localPath target) m
                :: dispatchEffects (<[localPath target := m]> (lastHandled w))
                     (lastGitHubSha w) (agent target) (localContext io)
          ∧ ∀ handled shas,
              (handled, shas)
                ∈ dispatchStates (emitted (handleLocalFlag target io) w) →
              handled !! localPath target = Some m)
  ∧ (∀ io w, handleLocalFlag target io w =
             match resumeAfterStat target (io_stat io) w with
             | (Normal true, w') => resumeAfterRead target (io_read io) w'
             | (_, w') => (Normal tt, w')
             end)
  ∧ (∀ r w w', resumeAfterStat target r w = (Normal true, w') →
       ∃ m, r = StatOk m
            ∧ lastHandled w' !! localPath target = Some m
            ∧ notifications (effects w') = notifications (effects w))
  ∧ (∀ r w,
       dispatchStates (emitted (resumeAfterRead target r) w)
       = [(lastHandled w, lastGitHubSha w)])
  ∧ (∀ evs w st m,
       target ∈ TARGETS →
       localRun evs (w, []) = Some st →
       Forall (λ x, x ∈ TARGETS) (startedTargets evs) →
       Forall (λ xr, localPath xr.1 = localPath target → seesWrite m xr.2)
              (statDeliveries evs (w, [])) →
       ∃ l, notifiedBy (agent target) (effects st.1)
            = notifiedBy (agent target) (effects w) ++ l
            ∧ (List.length l <= 1)%nat).
Proof.
  split; [|split; [|split; [|split]]].
  - intros io w. rewrite handleLocalFlag_notifications, handleLocalFlag_emitted.
    destruct (io_stat io) as [m|e]; [|done].
    destruct (Qle_bool m _); [done|]. intros _. exists m.
    split; [done|]. split; [done|].
    intros handled shas Hin. simpl in Hin.
    apply list_elem_of_singleton in Hin. injection Hin as -> ->.
    apply lookup_insert_eq.
  - apply handleLocalFlag_segments.
  - intros r w w'. rewrite resumeAfterStat_run.
    destruct r as [m|e].
    + destruct (Qle_bool m _); [discriminate|].
      intros [= <-]. exists m. split; [done|]. simpl.
      rewrite lookup_insert_eq, notifications_app. simpl.
      by rewrite app_nil_r.
    + destruct (is_ENOENT e); discriminate.
  - intros r w.
    erewrite emitted_add_effects;
      [|unfold exec; rewrite resumeAfterRead_run; reflexivity|reflexivity].
    reflexivity.
  - intros evs w st m Hin Hrun Hst Hans.
    destruct (localRun_oneWinner target m
                (notifiedBy (agent target) (effects w)) evs (w, []) st
                Hin Hrun Hst Hans)
      as (_ & l & Hl & Hle & _).
    + split; [constructor|]. exists []. simpl.
      rewrite app_nil_r. split; [done|]. split; [lia|]. intros [=].
    + exists l. split; [done|]. lia.
Qed.

End LocalClaims.

Lemma local_dispatch_iff_newer_witness :
  let io := mkLocalIO (StatOk 1700000000000) (ReadOk " ping ") in
  let w1 := exec (handleLocalFlag (host := exampleHost) cascade io) initialWorld in
  let evs := [ StartScan; StatDone 1 (StatErr ENOENT);
               StatDone 0 (StatOk 1700000000000) ] in
  let st := default (w1, []) (localRun (host := exampleHost) evs (w1, [])) in
  notifications (emitted (handleLocalFlag (host := exampleHost) cascade io)
                         initialWorld) = [("Cascade", "ping")]
  ∧ notifications (emitted (handleLocalFlag (host := exampleHost) cascade io) w1)
    = []
  ∧ localRun (host := exampleHost) evs (w1, []) = Some st
  ∧ notifiedBy "Cascade" (effects st.1) = notifiedBy "Cascade" (effects w1).
Proof.
  intros io w1 evs st.
  destruct (local_dispatch_iff_newer (host := exampleHost) cascade io initialWorld)
    as [_ H].
  destruct (H 1700000000000%Q eq_refl eq_refl) as (Hone & Hstored & Hnext & Hscan).
  assert (Hrun : localRun (host := exampleHost) evs (w1, []) = Some st)
    by (vm_compute; reflexivity).
  split; [exact Hone|]. split; [|split; [exact Hrun|]].
  - apply Hnext; [exact Hstored|].
    intros T2 [= <-]. apply Qle_refl.
  - apply (Hscan w1 [StatDone 1 (StatErr ENOENT);
                     StatDone 0 (StatOk 1700000000000)] st cascade_in
             Hstored Hrun).
    + constructor.
    + assert (E : statDeliveries (host := exampleHost) evs (w1, [])
                  = [(replit, StatErr ENOENT); (cascade, StatOk 1700000000000)])
        by (vm_compute; reflexivity).
      unfold evs in E. rewrite E.
      repeat constructor. intros _. apply Qle_refl.
Defined.

Lemma local_store_before_dispatch_witness :
  let evs := [ StartScan; StartCheck cascade;
               StatDone 0 (StatOk 5); StatDone 2 (StatOk 5);
               StatDone 1 (StatOk 9);
               ReadDone 0 (ReadOk "ping"); ReadDone 1 (ReadOk "pong") ] in
  let st := default (initialWorld, [])
              (localRun (host := exampleHost) evs (initialWorld, [])) in
  localRun (host := exampleHost) evs (initialWorld, []) = Some st
  ∧ notifications (effects st.1) = [("Cascade", "ping"); ("Replit", "pong")]
  ∧ ∃ l, notifiedBy "Cascade" (effects st.1) = [] ++ l ∧ (List.length l <= 1)%nat.
Proof.
  intros evs st.
  assert (Hrun : localRun (host := exampleHost) evs (initialWorld, []) = Some st)
    by (vm_compute; reflexivity).
  split; [exact Hrun|]. split; [vm_compute; reflexivity|].
  destruct (local_store_before_dispatch (host := exampleHost) cascade)
    as (_ & _ & _ & _ & Hrace).
  apply (Hrace evs initialWorld st 5%Q cascade_in Hrun).
  - repeat constructor; try apply cascade_in; apply replit_in.
  - assert (E : statDeliveries (host := exampleHost) evs (initialWorld, [])
                = [(cascade, StatOk 5); (cascade, StatOk 5); (replit, StatOk 9)])
      by (vm_compute; reflexivity).
    rewrite E.
    repeat constructor; try reflexivity. intros H. discriminate H.
Defined.

(* ===================================================================== *)
(** ** The remote poll, run *)
(* ===================================================================== *)

Lemma strictEq_eq (a b : Json) : strictEq a b = true → a = b.
Proof.
  destruct a, b; simpl; try done.
  - intros H. f_equal. by apply Bool.eqb_prop.
  - intros H. f_equal. apply Qc_is_canon. by apply Qeq_bool_iff.
  - intros H. f_equal. by apply String.eqb_eq.
Qed.

Lemma strictEq_string (s t : string) :
  strictEq (JStr s) (JStr t) = String.eqb s t.
Proof. reflexivity. Qed.

Lemma strictEq_fingerprint (s0 : string) (v : Json) :
  v ≠ JStr s0 → strictEq (JStr s0) v = false.
Proof.
  intros Hne. destruct (strictEq (JStr s0) v) eqn:E; [|done].
  apply strictEq_eq in E. congruence.
Qed.

Lemma truthy_fingerprint (v : Json) : isFingerprint v → truthy v = true.
Proof. destruct v as [| | | |s| |]; simpl; try done. by destruct s. Qed.

Lemma map_get_None (m : gmap string Json) k : m !! k = None → map_get m k = JUndefined.
Proof. unfold map_get. by intros ->. Qed.

Lemma map_get_Some (m : gmap string Json) k v : m !! k = Some v → map_get m k = v.
Proof. unfold map_get. by intros ->. Qed.

Lemma map_get_insert (m : gmap string Json) k v : map_get (<[k := v]> m) k = v.
Proof. unfold map_get. by rewrite lookup_insert_eq. Qed.

Lemma map_get_insert_ne (m : gmap string Json) k k' v :
  k ≠ k' → map_get (<[k := v]> m) k' = map_get m k'.
Proof. unfold map_get. intros H. by rewrite lookup_insert_ne. Qed.

Section RemoteFacts.
Context {host : Host}.

Lemma fetchGitHubFile_run net filePath w :
  fetchGitHubFile net filePath w
  = (Normal (fetchResult (net (contents_url filePath))), w).
Proof.
  unfold fetchGitHubFile, fetchResult, fetch, response_json.
  destruct (net (contents_url filePath)) as [e|r]; [reflexivity|].
  js_unfold. cbv beta iota zeta.
  destruct (ok r); [|reflexivity]. cbn [negb].
  destruct (json r) as [e|data]; [reflexivity|].
  unfold data_sha, data_content, data_prop, decode_content, fileOf, propOf,
    contentOf.
  js_unfold.
  destruct data as [| |b|n|s|items|fields]; try reflexivity.
  destruct (field "content" fields) as [| |b|n|s|items|fs]; cbn [truthy];
    try reflexivity.
  - by destruct b.
  - by destruct (negb (Qeq_bool n 0)).
  - by destruct (Str.truthy s).
  - by destruct (bufferToUtf8 _).
  - by destruct (bufferToUtf8 _).
Qed.

Lemma sha_slice_run sha w :
  sha_slice sha w =
  match sliceOf sha with
  | Some short => (Normal short, w)
  | None => (Throw (sliceError sha), w)
  end.
Proof. by destruct sha. Qed.

Lemma pollTarget_run net target w :
  pollTarget net target w =
  match fetchResult (net (contents_url (name target))) with
  | None => (Normal tt, w)
  | Some f =>
      let prevSha := map_get (lastGitHubSha w) (name target) in
      if strictEq prevSha (file_sha f) then (Normal tt, w)
      else
        let stored := <[name target := file_sha f]> (lastGitHubSha w) in
        let w1 := with_lastGitHubSha (λ _, stored) w in
        if truthy prevSha then
          (Normal tt,
           add_effects
             (SetLastGitHubSha (name target) (file_sha f)
                :: ConsoleLog (detectedLine target)
                :: dispatchEffects (lastHandled w) stored
                     (agent target) (file_content f))
             w1)
        else
          match sliceOf (file_sha f) with
          | Some short =>
              (Normal tt,
               add_effects
                 [SetLastGitHubSha (name target) (file_sha f);
                  ConsoleLog (trackingLine target short)]
                 w1)
          | None =>
              (Throw (sliceError (file_sha f)),
               add_effects [SetLastGitHubSha (name target) (file_sha f)] w1)
          end
  end.
Proof.
  unfold pollTarget, block. unfold mbind at 1, Js_bind at 1.
  rewrite fetchGitHubFile_run.
  destruct (fetchResult _) as [f|]; [|reflexivity].
  js_unfold. cbv beta iota zeta.
  destruct (strictEq _ _); [reflexivity|].
  destruct (truthy _); cbn [negb].
  - rewrite triggerNotification_run.
    rewrite !with_effect_one, !add_effects_add. reflexivity.
  - rewrite sha_slice_run. destruct (sliceOf _); [|reflexivity].
    rewrite !with_effect_one, !add_effects_add. reflexivity.
Qed.

(** The effects one iteration appends. *)
Lemma pollTarget_emitted net target w :
  emitted (pollTarget net target) w =
  match fetchResult (net (contents_url (name target))) with
  | None => []
  | Some f =>
      let prevSha := map_get (lastGitHubSha w) (name target) in
      if strictEq prevSha (file_sha f) then []
      else if truthy prevSha then
        SetLastGitHubSha (name target) (file_sha f)
          :: ConsoleLog (detectedLine target)
          :: dispatchEffects (lastHandled w)
               (<[name target := file_sha f]> (lastGitHubSha w))
               (agent target) (file_content f)
      else
        SetLastGitHubSha (name target) (file_sha f)
          :: match sliceOf (file_sha f) with
             | Some short => [ConsoleLog (trackingLine target short)]
             | None => []
             end
  end.
Proof.
  destruct (fetchResult _) as [f|] eqn:Hf; cbv zeta.
  - destruct (strictEq _ _) eqn:Hb;
      [|destruct (truthy _) eqn:Hp; [|destruct (sliceOf _) eqn:Hsl]].
    + apply emitted_unchanged. unfold exec.
      by rewrite pollTarget_run, Hf; cbv zeta; rewrite Hb.
    + eapply emitted_add_effects;
        [unfold exec; rewrite pollTarget_run, Hf; cbv zeta;
         rewrite Hb, Hp; reflexivity | reflexivity].
    + eapply emitted_add_effects;
        [unfold exec; rewrite pollTarget_run, Hf; cbv zeta;
         rewrite Hb, Hp, Hsl; reflexivity | reflexivity].
    + eapply emitted_add_effects;
        [unfold exec; rewrite pollTarget_run, Hf; cbv zeta;
         rewrite Hb, Hp, Hsl; reflexivity | reflexivity].
  - apply emitted_unchanged. unfold exec. by rewrite pollTarget_run, Hf.
Qed.

(** The [lastGitHubSha] map one iteration leaves. *)
Lemma pollTarget_lastGitHubSha net target w :
  lastGitHubSha (exec (pollTarget net target) w) =
  match fetchResult (net (contents_url (name target))) with
  | None => lastGitHubSha w
  | Some f =>
      if strictEq (map_get (lastGitHubSha w) (name target)) (file_sha f)
      then lastGitHubSha w
      else <[name target := file_sha f]> (lastGitHubSha w)
  end.
Proof.
  unfold exec. rewrite pollTarget_run.
  destruct (fetchResult _) as [f|]; [|done]. cbv zeta.
  destruct (strictEq _ _); [done|].
  destruct (truthy _); [done|]. by destruct (sliceOf _).
Qed.

(** What [lastGitHubSha.get] reads after one iteration. *)
Lemma pollTarget_stored net target w k :
  map_get (lastGitHubSha (exec (pollTarget net target) w)) k =
  match fetchResult (net (contents_url (name target))) with
  | None => map_get (lastGitHubSha w) k
  | Some f => if String.eqb (name target) k then file_sha f
              else map_get (lastGitHubSha w) k
  end.
Proof.
  rewrite pollTarget_lastGitHubSha.
  destruct (fetchResult _) as [f|]; [|done].
  destruct (String.eqb (name target) k) eqn:E.
  - apply String.eqb_eq in E as <-.
    destruct (strictEq _ _) eqn:Hb; [by apply strictEq_eq|].
    apply map_get_insert.
  - apply String.eqb_neq in E.
    destruct (strictEq _ _); [done|]. by apply map_get_insert_ne.
Qed.

Lemma pollTarget_notifications net target w :
  notifications (emitted (pollTarget net target) w) =
  match fetchResult (net (contents_url (name target))) with
  | None => []
  | Some f =>
      let prevSha := map_get (lastGitHubSha w) (name target) in
      if strictEq prevSha (file_sha f) then []
      else if truthy prevSha then [(agent target, file_content f)]
      else []
  end.
Proof.
  rewrite pollTarget_emitted.
  destruct (fetchResult _) as [f|]; [|done]. cbv zeta.
  destruct (strictEq _ _); [done|].
  destruct (truthy _); [done|]. by destruct (sliceOf _).
Qed.

(** An iteration throws exactly when it records a value that has no [slice]
    over a record that is absent or falsy. *)
Lemma pollTarget_completion net target w :
  completion (pollTarget net target) w =
  match fetchResult (net (contents_url (name target))) with
  | None => Normal tt
  | Some f =>
      let prevSha := map_get (lastGitHubSha w) (name target) in
      if strictEq prevSha (file_sha f) then Normal tt
      else if truthy prevSha then Normal tt
      else match sliceOf (file_sha f) with
           | Some _ => Normal tt
           | None => Throw (sliceError (file_sha f))
           end
  end.
Proof.
  unfold completion. rewrite pollTarget_run.
  destruct (fetchResult _) as [f|]; [|done]. cbv zeta.
  destruct (strictEq _ _); [done|].
  destruct (truthy _); [done|]. by destruct (sliceOf _).
Qed.

Lemma pollTarget_effects net target w :
  effects (exec (pollTarget net target) w)
  = effects w ++ emitted (pollTarget net target) w.
Proof.
  rewrite pollTarget_emitted. unfold exec. rewrite pollTarget_run.
  destruct (fetchResult _) as [f|]; [|by rewrite app_nil_r]. cbv zeta.
  destruct (strictEq _ _); [by rewrite app_nil_r|].
  destruct (truthy _); [done|]. by destruct (sliceOf _).
Qed.

(** An iteration of the poll leaves the local channel and the runtime
    alone. *)
Lemma pollTarget_frame net target w :
  lastHandled (exec (pollTarget net target) w) = lastHandled w
  ∧ timers (exec (pollTarget net target) w) = timers w
  ∧ now (exec (pollTarget net target) w) = now w
  ∧ nextTimerId (exec (pollTarget net target) w) = nextTimerId w
  ∧ pendingTimeouts (exec (pollTarget net target) w) = pendingTimeouts w.
Proof.
  unfold exec. rewrite pollTarget_run.
  destruct (fetchResult _) as [f|]; [|done]. cbv zeta.
  destruct (strictEq _ _); [done|].
  destruct (truthy _); [done|]. by destruct (sliceOf _).
Qed.

Lemma pollTarget_other_key net target w k :
  k ≠ name target →
  lastGitHubSha (exec (pollTarget net target) w) !! k = lastGitHubSha w !! k.
Proof.
  intros Hk. rewrite pollTarget_lastGitHubSha.
  destruct (fetchResult _); [|done].
  destruct (strictEq _ _); [done|]. by rewrite lookup_insert_ne.
Qed.

End RemoteFacts.

(* ===================================================================== *)
(** ** The prompt *)
(* ===================================================================== *)

Lemma prefixb_app p s : prefixb p (p +:+ s) = true.
Proof.
  induction p as [|a p IH]; simpl; [done|].
  by rewrite Ascii.eqb_refl, IH.
Qed.

Lemma includes_containsb needle hay :
  Str.includes needle hay → containsb needle hay = true.
Proof.
  intros (pre & post & ->).
  induction pre as [|a pre IH].
  - change ("" +:+ needle +:+ post) with (needle +:+ post).
    pose proof (prefixb_app needle post) as Hp.
    destruct (needle +:+ post); simpl; by rewrite Hp.
  - change (String a pre +:+ needle +:+ post)
      with (String a (pre +:+ needle +:+ post)).
    simpl. rewrite IH. apply orb_true_r.
Qed.

Lemma lastChar_app (a b : string) :
  b ≠ EmptyString → lastChar (a +:+ b) = lastChar b.
Proof.
  intros Hb. induction a as [|c a IH]; simpl; [done|].
  destruct (a +:+ b) eqn:E; [|done].
  destruct a; simpl in E; [by subst|discriminate].
Qed.

Lemma append_assoc_r (a b c : string) : (a +:+ b) +:+ c = a +:+ b +:+ c.
Proof.
  induction a as [|x a IH]; [done|].
  change (String x ((a +:+ b) +:+ c) = String x (a +:+ b +:+ c)).
  by f_equal.
Qed.

Lemma truthy_nonempty c : c ≠ "" → Str.truthy c = true.
Proof. by destruct c. Qed.

(** C8. The prompt of every dispatch starts with the name of the
    originating agent.  With an empty context it is the agent followed by the
    fixed sentence, which holds no ["Context:"] and does not end with an
    empty clause; with a non-empty context it ends with that context. *)
Theorem prompt_embeds_agent_and_context (fromAgent context : string) (w : World) :
  CopyClipboard (composePrompt fromAgent context)
    ∈ effects (exec (triggerNotification fromAgent context) w)
  ∧ Str.startsWith fromAgent (composePrompt fromAgent context)
  ∧ (context = "" →
       composePrompt fromAgent context = fromAgent +:+ PROMPT_BODY
       ∧ ¬ Str.includes "Context:" PROMPT_BODY
       ∧ ¬ Str.endsWith "Context: " (composePrompt fromAgent context)
       ∧ ¬ Str.endsWith "Context:" (composePrompt fromAgent context))
  ∧ (context ≠ "" →
       composePrompt fromAgent context
         = fromAgent +:+ PROMPT_BODY +:+ " Context: " +:+ context
       ∧ Str.endsWith context (composePrompt fromAgent context)).
Proof.
  split; [|split; [|split]].
  - unfold exec. rewrite triggerNotification_run. simpl.
    apply elem_of_app. right. set_solver.
  - unfold composePrompt. destruct (Str.truthy context); eexists; reflexivity.
  - intros ->. simpl.
    assert (Hlast : lastChar (fromAgent +:+ PROMPT_BODY) = Some "."%char)
      by (by rewrite lastChar_app).
    repeat split.
    + intros H%includes_containsb. vm_compute in H. discriminate.
    + intros [pre Hp]. unfold composePrompt in Hp. simpl in Hp.
      rewrite Hp, lastChar_app in Hlast by done. discriminate.
    + intros [pre Hp]. unfold composePrompt in Hp. simpl in Hp.
      rewrite Hp, lastChar_app in Hlast by done. discriminate.
  - intros Hc. unfold composePrompt. rewrite (truthy_nonempty _ Hc).
    split; [done|].
    exists (fromAgent +:+ PROMPT_BODY +:+ " Context: ").
    by rewrite !append_assoc_r.
Qed.

Lemma prompt_embeds_agent_and_context_witness :
  composePrompt "Cascade" "" = "Cascade" +:+ PROMPT_BODY
  ∧ Str.endsWith "ping" (composePrompt "Cascade" "ping").
Proof.
  split.
  - apply (prompt_embeds_agent_and_context "Cascade" "" initialWorld).
    reflexivity.
  - apply (prompt_embeds_agent_and_context "Cascade" "ping" initialWorld).
    discriminate.
Defined.

(* ===================================================================== *)
(** ** First observations and errors of the local channel *)
(* ===================================================================== *)

Section LocalFirst.
Context {host : Host}.

Lemma pollTarget_unset_silent net target w :
  lastGitHubSha w !! name target = None →
  notifications (emitted (pollTarget net target) w) = [].
Proof.
  intros Hn. rewrite pollTarget_notifications, (map_get_None _ _ Hn).
  destruct (fetchResult _) as [f|]; [|done]. cbv zeta.
  by destruct (strictEq _ _).
Qed.

(** C6. [lastHandled] is empty when the script is loaded.  While no time
    stamp is stored for a signal, a check that finds its marker file with a
    positive modification time dispatches exactly one notification, whatever
    the read answers: the local channel has no baseline.  The remote channel
    has one: while no fingerprint is stored for a signal, an iteration of the
    poll dispatches nothing, whatever the fetch answers. *)
Theorem local_first_file_dispatched (target : Target) (io : LocalIO)
    (w : World) (m : Q) :
  lastHandled initialWorld = ∅
  ∧ (lastHandled w !! localPath target = None →
     io_stat io = StatOk m → (0 < m)%Q →
     notifications (emitted (handleLocalFlag target io) w)
       = [(agent target, localContext io)]
     ∧ lastHandled (exec (handleLocalFlag target io) w) !! localPath target
       = Some m)
  ∧ (∀ net, lastGitHubSha w !! name target = None →
     notifications (emitted (pollTarget net target) w) = []).
Proof.
  split; [reflexivity|split].
  - intros Hnone Hs Hpos.
    rewrite handleLocalFlag_notifications, handleLocalFlag_lastHandled, Hs, Hnone.
    simpl. apply Qle_bool_false_lt in Hpos. rewrite Hpos.
    split; [done|]. apply lookup_insert_eq.
  - intros net Hnone. by apply pollTarget_unset_silent.
Qed.

(** C7, as amended.  A check whose stat fails with ENOENT changes nothing and
    logs nothing.  Any other stat error is logged with [console.error].  A
    read error is not logged: it is swallowed and the check dispatches with
    the empty context.  In every case the check completes normally (its
    promise does not reject) and leaves alone the time stamps of the other
    paths, the fingerprints, and the timers. *)
Theorem local_errors_contained (target : Target) (io : LocalIO) (w : World) :
  (∀ e, io_stat io = StatErr e → is_ENOENT e = true →
     handleLocalFlag target io w = (Normal tt, w))
  ∧ (∀ e, io_stat io = StatErr e → is_ENOENT e = false →
     handleLocalFlag target io w
     = (Normal tt,
        add_effects [ConsoleError ("[local] error: " +:+ err_message e)] w))
  ∧ (∀ m e, io_stat io = StatOk m → io_read io = ReadErr e →
     (or_zero (lastHandled w !! localPath target) < m)%Q →
     emitted (handleLocalFlag target io) w
     = SetLastHandled (localPath target) m
         :: dispatchEffects (<[localPath target := m]> (lastHandled w))
              (lastGitHubSha w) (agent target) "")
  ∧ completion (handleLocalFlag target io) w = Normal tt
  ∧ (∀ p, p ≠ localPath target →
     lastHandled (exec (handleLocalFlag target io) w) !! p = lastHandled w !! p)
  ∧ lastGitHubSha (exec (handleLocalFlag target io) w) = lastGitHubSha w
  ∧ timers (exec (handleLocalFlag target io) w) = timers w
  ∧ pendingTimeouts (exec (handleLocalFlag target io) w) = pendingTimeouts w.
Proof.
  split; [|split; [|split; [|split; [|split]]]].
  - intros e Hs He. by rewrite handleLocalFlag_run, Hs, He.
  - intros e Hs He. by rewrite handleLocalFlag_run, Hs, He.
  - intros m e Hs Hr Hlt. rewrite handleLocalFlag_emitted, Hs.
    apply Qle_bool_false_lt in Hlt. rewrite Hlt.
    unfold localContext. by rewrite Hr.
  - apply handleLocalFlag_completes.
  - intros p Hp. rewrite handleLocalFlag_lastHandled.
    destruct (io_stat io) as [m|e]; [|done].
    destruct (Qle_bool m _); [done|]. by rewrite lookup_insert_ne.
  - unfold exec. rewrite handleLocalFlag_run.
    destruct (io_stat io) as [m|e].
    + by destruct (Qle_bool m _).
    + by destruct (is_ENOENT e).
Qed.

End LocalFirst.

Lemma local_first_file_dispatched_witness :
  notifications
    (emitted (handleLocalFlag (host := exampleHost) cascade
                (mkLocalIO (StatOk 1700000000000) (ReadOk "ping")))
             initialWorld)
  = [("Cascade", "ping")].
Proof.
  apply (local_first_file_dispatched (host := exampleHost) cascade
           (mkLocalIO (StatOk 1700000000000) (ReadOk "ping"))
           initialWorld 1700000000000).
  - reflexivity.
  - reflexivity.
  - reflexivity.
Defined.

Lemma local_errors_contained_witness :
  handleLocalFlag (host := exampleHost) cascade
    (mkLocalIO (StatErr ENOENT) (ReadErr ENOENT)) initialWorld
  = (Normal tt, initialWorld)
  ∧ emitted (handleLocalFlag (host := exampleHost) cascade
               (mkLocalIO (StatOk 5) (ReadErr EACCES))) initialWorld
    = SetLastHandled "/repo/.handoff/notify-cascade" 5
        :: dispatchEffects (<["/repo/.handoff/notify-cascade" := 5%Q]> ∅) ∅
             "Cascade" "".
Proof.
  split.
  - eapply (local_errors_contained (host := exampleHost) cascade
              (mkLocalIO (StatErr ENOENT) (ReadErr ENOENT)) initialWorld);
      reflexivity.
  - eapply (local_errors_contained (host := exampleHost) cascade
              (mkLocalIO (StatOk 5) (ReadErr EACCES)) initialWorld);
      reflexivity.
Defined.

(** C7 as stated fails for read errors: the marker exists and is new, the
    read fails with EACCES, and nothing is logged as an error; the check
    dispatches with the empty context instead. *)
Lemma read_error_is_not_logged :
  let io := mkLocalIO (StatOk 5) (ReadErr EACCES) in
  let log := emitted (handleLocalFlag (host := exampleHost) cascade io)
                     initialWorld in
  (∀ line, ConsoleError line ∉ log)
  ∧ notifications log = [("Cascade", "")].
Proof.
  cbv zeta. rewrite handleLocalFlag_emitted. simpl.
  split; [|reflexivity].
  intros line Hin. unfold dispatchEffects in Hin.
  repeat (apply elem_of_cons in Hin as [Hin|Hin]; [discriminate Hin|]).
  by apply not_elem_of_nil in Hin.
Qed.

(* ===================================================================== *)
(** ** Trimming *)
(* ===================================================================== *)

Lemma trimStart_spec_bounded n :
  ∀ s, (String.length s < n)%nat →
    startsWs (Str.trimStart s) = false
    ∧ ∃ pre, s = pre +:+ Str.trimStart s ∧ wsOnly pre = true.
Proof.
  induction n as [|n IH]; intros s Hlen; [lia|].
  destruct s as [|a s1]; [split; [done|by exists ""]|].
  simpl in Hlen. simpl Str.trimStart at 1 2.
  destruct (Str.is_ws1 a) eqn:H1.
  { destruct (IH s1 ltac:(lia)) as (Hs & pre & Hpre & Hws). split; [done|].
    exists (String a pre). split.
    - change (String a s1 = String a (pre +:+ Str.trimStart s1)). by f_equal.
    - simpl. by rewrite H1. }
  destruct s1 as [|b s2].
  { split; [simpl; by rewrite H1|by exists ""]. }
  simpl in Hlen.
  destruct (Str.is_ws2 a b) eqn:H2.
  { destruct (IH s2 ltac:(lia)) as (Hs & pre & Hpre & Hws). split; [done|].
    exists (String a (String b pre)). split.
    - change (String a (String b s2)
              = String a (String b (pre +:+ Str.trimStart s2))).
      by do 2 f_equal.
    - simpl. by rewrite H1, H2. }
  destruct s2 as [|c s3].
  { split; [simpl; by rewrite H1, H2|by exists ""]. }
  simpl in Hlen.
  destruct (Str.is_ws3 a b c) eqn:H3.
  { destruct (IH s3 ltac:(lia)) as (Hs & pre & Hpre & Hws). split; [done|].
    exists (String a (String b (String c pre))). split.
    - change (String a (String b (String c s3))
              = String a (String b (String c (pre +:+ Str.trimStart s3)))).
      by do 3 f_equal.
    - simpl. by rewrite H1, H2, H3. }
  split; [simpl; by rewrite H1, H2, H3|by exists ""].
Qed.

Lemma list_ascii_app (a b : string) :
  list_ascii_of_string (a +:+ b)
  = list_ascii_of_string a ++ list_ascii_of_string b.
Proof.
  induction a as [|x a IH]; [done|].
  change (x :: list_ascii_of_string (a +:+ b)
          = x :: (list_ascii_of_string a ++ list_ascii_of_string b)).
  by f_equal.
Qed.

Lemma string_of_list_app (l k : list ascii) :
  string_of_list_ascii (l ++ k)
  = string_of_list_ascii l +:+ string_of_list_ascii k.
Proof.
  induction l as [|x l IH]; [done|].
  change (String x (string_of_list_ascii (l ++ k))
          = String x (string_of_list_ascii l +:+ string_of_list_ascii k)).
  by f_equal.
Qed.

Lemma rev_app (a b : string) : Str.rev (a +:+ b) = Str.rev b +:+ Str.rev a.
Proof.
  unfold Str.rev. by rewrite list_ascii_app, rev_app_distr, string_of_list_app.
Qed.

Lemma rev_involutive (s : string) : Str.rev (Str.rev s) = s.
Proof.
  unfold Str.rev.
  by rewrite list_ascii_of_string_of_list_ascii, List.rev_involutive,
    string_of_list_ascii_of_string.
Qed.

Lemma rev_cons (a : ascii) (s : string) :
  Str.rev (String a s) = Str.rev s +:+ String a "".
Proof. change (String a s) with (String a "" +:+ s). by rewrite rev_app. Qed.

Lemma append_assoc_l (a b c : string) : a +:+ b +:+ c = (a +:+ b) +:+ c.
Proof. by rewrite append_assoc_r. Qed.

(** The first byte of a two-byte or three-byte white space encoding is no
    white space by itself, and the first two bytes of a three-byte one are
    no two-byte one. *)
Lemma ws2_not_ws1 (a b : ascii) : Str.is_ws2 a b = true → Str.is_ws1 a = false.
Proof.
  unfold Str.is_ws2, Str.is_ws1. cbv zeta. intros H.
  apply andb_true_iff in H as [H _]. apply Nat.eqb_eq in H. by rewrite H.
Qed.

Ltac split_ws H :=
  cbv zeta in H;
  repeat match type of H with
         | (_ || _) = true => apply orb_true_iff in H as [H|H]
         | (_ && _) = true => apply andb_true_iff in H as [H _]
         end;
  apply Nat.eqb_eq in H.

Lemma ws3_not_ws1 (a b c : ascii) :
  Str.is_ws3 a b c = true → Str.is_ws1 a = false.
Proof.
  unfold Str.is_ws3, Str.is_ws1. intros H.
  split_ws H; cbv zeta; by rewrite H.
Qed.

Lemma ws3_not_ws2 (a b c : ascii) :
  Str.is_ws3 a b c = true → Str.is_ws2 a b = false.
Proof.
  unfold Str.is_ws3, Str.is_ws2. intros H.
  split_ws H; by rewrite H.
Qed.

Lemma wsOnly_app_bounded n :
  ∀ p q, (String.length p < n)%nat →
    wsOnly p = true → wsOnly q = true → wsOnly (p +:+ q) = true.
Proof.
  induction n as [|n IH]; intros p q Hlen Hp Hq; [lia|].
  destruct p as [|a p1]; [done|]. simpl in Hlen.
  change (String a p1 +:+ q) with (String a (p1 +:+ q)).
  simpl in Hp |- *.
  destruct (Str.is_ws1 a); [apply IH; [lia|done..]|].
  destruct p1 as [|b p2]; [done|]. simpl in Hlen.
  change (String b p2 +:+ q) with (String b (p2 +:+ q)). cbv iota.
  destruct (Str.is_ws2 a b); [apply IH; [lia|done..]|].
  destruct p2 as [|c p3]; [done|]. simpl in Hlen.
  change (String c p3 +:+ q) with (String c (p3 +:+ q)). cbv iota.
  apply andb_true_iff in Hp as [-> Hp]. apply IH; [lia|done..].
Qed.

Lemma wsOnly_app (p q : string) :
  wsOnly p = true → wsOnly q = true → wsOnly (p +:+ q) = true.
Proof. apply (wsOnly_app_bounded (S (String.length p))). lia. Qed.

Lemma trimStartRev_spec_bounded n :
  ∀ s, (String.length s < n)%nat →
    startsWsRev (Str.trimStartRev s) = false
    ∧ ∃ pre, s = pre +:+ Str.trimStartRev s ∧ wsOnly (Str.rev pre) = true.
Proof.
  induction n as [|n IH]; intros s Hlen; [lia|].
  destruct s as [|a s1]; [split; [done|by exists ""]|].
  simpl in Hlen. simpl Str.trimStartRev at 1 2.
  destruct (Str.is_ws1 a) eqn:H1.
  { destruct (IH s1 ltac:(lia)) as (Hs & pre & Hpre & Hws). split; [done|].
    exists (String a pre). split.
    - change (String a s1 = String a (pre +:+ Str.trimStartRev s1)). by f_equal.
    - rewrite rev_cons. apply wsOnly_app; [done|]. simpl. by rewrite H1. }
  destruct s1 as [|b s2].
  { split; [simpl; by rewrite H1|by exists ""]. }
  simpl in Hlen.
  destruct (Str.is_ws2 b a) eqn:H2.
  { destruct (IH s2 ltac:(lia)) as (Hs & pre & Hpre & Hws). split; [done|].
    exists (String a (String b pre)). split.
    - change (String a (String b s2)
              = String a (String b (pre +:+ Str.trimStartRev s2))).
      by do 2 f_equal.
    - rewrite !rev_cons, append_assoc_r. apply wsOnly_app; [done|].
      change (wsOnly (String b (String a "")) = true). simpl.
      by rewrite (ws2_not_ws1 b a H2), H2. }
  destruct s2 as [|c s3].
  { split; [simpl; by rewrite H1, H2|by exists ""]. }
  simpl in Hlen.
  destruct (Str.is_ws3 c b a) eqn:H3.
  { destruct (IH s3 ltac:(lia)) as (Hs & pre & Hpre & Hws). split; [done|].
    exists (String a (String b (String c pre))). split.
    - change (String a (String b (String c s3))
              = String a (String b (String c (pre +:+ Str.trimStartRev s3)))).
      by do 3 f_equal.
    - rewrite !rev_cons, !append_assoc_r. apply wsOnly_app; [done|].
      change (wsOnly (String c (String b (String a ""))) = true). simpl.
      by rewrite (ws3_not_ws1 c b a H3), (ws3_not_ws2 c b a H3), H3. }
  split; [simpl; by rewrite H1, H2, H3|by exists ""].
Qed.

Lemma startsWs_prefix (p q : string) :
  startsWs p = true → startsWs (p +:+ q) = true.
Proof.
  destruct p as [|a [|b [|c p]]]; simpl; try done.
  - rewrite orb_false_r. intros ->. by destruct q.
  - rewrite orb_false_r. intros H.
    change (startsWs (String a (String b q)) = true). simpl.
    apply orb_true_iff in H as [-> | ->]; [done|].
    rewrite orb_true_l. apply orb_true_r.
Qed.

(** [trim] removes a prefix and a suffix made of white space only, and what
    is left neither begins nor ends with white space. *)
Lemma trim_spec (s : string) :
  startsWs (Str.trim s) = false
  ∧ endsWs (Str.trim s) = false
  ∧ ∃ pre post, s = pre +:+ Str.trim s +:+ post
                ∧ wsOnly pre = true ∧ wsOnly post = true.
Proof.
  destruct (trimStart_spec_bounded (S (String.length s)) s ltac:(lia))
    as (Hstart & pre & Hpre & Hws).
  set (x := Str.trimStart s) in *.
  destruct (trimStartRev_spec_bounded (S (String.length (Str.rev x)))
              (Str.rev x) ltac:(lia)) as (Hend & post & Hpost & Hwsr).
  assert (Hx : x = Str.trimEnd x +:+ Str.rev post).
  { unfold Str.trimEnd. rewrite <- rev_app, <- Hpost. by rewrite rev_involutive. }
  unfold Str.trim. fold x. split; [|split].
  - destruct (startsWs (Str.trimEnd x)) eqn:E; [|done].
    apply (startsWs_prefix _ (Str.rev post)) in E. rewrite <- Hx in E. congruence.
  - unfold endsWs, Str.trimEnd. by rewrite rev_involutive.
  - exists pre, (Str.rev post). split; [by rewrite <- Hx|]. by split.
Qed.

(** A string without white space at either end is left as it is. *)
Lemma trimStart_fixed (s : string) : startsWs s = false → Str.trimStart s = s.
Proof.
  destruct s as [|a [|b [|c r]]]; simpl; try done.
  - rewrite orb_false_r. by intros ->.
  - rewrite orb_false_r. intros H. apply orb_false_iff in H as [-> ->]. done.
  - intros H. apply orb_false_iff in H as [-> H].
    apply orb_false_iff in H as [-> ->]. done.
Qed.

Lemma trimStartRev_fixed (s : string) :
  startsWsRev s = false → Str.trimStartRev s = s.
Proof.
  destruct s as [|a [|b [|c r]]]; simpl; try done.
  - rewrite orb_false_r. by intros ->.
  - rewrite orb_false_r. intros H. apply orb_false_iff in H as [-> ->]. done.
  - intros H. apply orb_false_iff in H as [-> H].
    apply orb_false_iff in H as [-> ->]. done.
Qed.

Lemma trim_fixed (s : string) :
  startsWs s = false → endsWs s = false → Str.trim s = s.
Proof.
  intros Hs He. unfold Str.trim, Str.trimEnd. rewrite (trimStart_fixed s Hs).
  unfold endsWs in He. rewrite (trimStartRev_fixed _ He). apply rev_involutive.
Qed.

Lemma trim_idempotent (s : string) : Str.trim (Str.trim s) = Str.trim s.
Proof. destruct (trim_spec s) as (Hs & He & _). by apply trim_fixed. Qed.

(** The three properties of a trimmed text. *)
Lemma trimmed (s : string) :
  startsWs (Str.trim s) = false
  ∧ endsWs (Str.trim s) = false
  ∧ Str.trim (Str.trim s) = Str.trim s.
Proof.
  destruct (trim_spec s) as (Hs & He & _).
  split; [done|]. split; [done|]. apply trim_idempotent.
Qed.

(** A text between white space is what [trim] leaves of the whole. *)
Example trim_between :
  wsOnly (" " +:+ String (Str.byte 9) "") = true
  ∧ wsOnly "ping" = false
  ∧ wsOnly "" = true.
Proof. by vm_compute. Qed.

(* ===================================================================== *)
(** ** The remote channel *)
(* ===================================================================== *)

Section RemoteClaims.
Context {host : Host}.

Lemma fetchFails_result out : fetchFails out = true ↔ fetchResult out = None.
Proof.
  unfold fetchFails, fetchResult. destruct out as [e|r]; [done|].
  destruct (ok r); simpl; [|done].
  destruct (json r) as [e|data]; [done|]. by destruct (fileOf data).
Qed.

Lemma pollTarget_failed net target w :
  fetchFails (net (contents_url (name target))) = true →
  pollTarget net target w = (Normal tt, w).
Proof.
  intros H%fetchFails_result. by rewrite pollTarget_run, H.
Qed.

Lemma pollTarget_same_sha net target w f s :
  fetchResult (net (contents_url (name target))) = Some f →
  file_sha f = JStr s →
  lastGitHubSha w !! name target = Some (JStr s) →
  pollTarget net target w = (Normal tt, w).
Proof.
  intros Hf Hsha Hs. rewrite pollTarget_run, Hf. cbv zeta.
  rewrite (map_get_Some _ _ _ Hs), Hsha, strictEq_string.
  by rewrite String.eqb_refl.
Qed.

Lemma pollTicks_quiet s0 target nets w :
  lastGitHubSha w !! name target = Some (JStr s0) →
  Forall (quietTick s0 target) nets →
  pollTicks nets target w = (Normal tt, w).
Proof.
  intros Hs Hq. induction Hq as [|net nets Hn _ IH]; [reflexivity|].
  simpl. unfold mbind, Js_bind.
  assert (pollTarget net target w = (Normal tt, w)) as ->; [|exact IH].
  unfold quietTick in Hn.
  destruct (fetchResult _) as [f|] eqn:Hf.
  - by apply (pollTarget_same_sha _ _ _ f s0).
  - by apply pollTarget_failed, fetchFails_result.
Qed.

Lemma pollTicks_failed target nets w :
  Forall (λ net, fetchFails (net (contents_url (name target))) = true) nets →
  pollTicks nets target w = (Normal tt, w).
Proof.
  intros Hq. induction Hq as [|net nets Hn _ IH]; [reflexivity|].
  simpl. unfold mbind, Js_bind. by rewrite pollTarget_failed.
Qed.

Lemma unset_sha_silent net target w f :
  lastGitHubSha w !! name target = None →
  fetchResult (net (contents_url (name target))) = Some f →
  notifications (emitted (pollTarget net target) w) = []
  ∧ map_get (lastGitHubSha (exec (pollTarget net target) w)) (name target)
    = file_sha f
  ∧ (file_sha f ≠ JUndefined →
     lastGitHubSha (exec (pollTarget net target) w) !! name target
     = Some (file_sha f)).
Proof.
  intros Hn Hf. split; [by apply pollTarget_unset_silent|]. split.
  - by rewrite pollTarget_stored, Hf, String.eqb_refl.
  - intros Hdef. rewrite pollTarget_lastGitHubSha, Hf, (map_get_None _ _ Hn).
    destruct (strictEq JUndefined (file_sha f)) eqn:E.
    + apply strictEq_eq in E. congruence.
    + apply lookup_insert_eq.
Qed.


(** C3. A failed fetch leaves the whole world unchanged, [lastGitHubSha]
    included, and dispatches nothing.  After any run of failed ticks the next
    tick therefore does exactly what it would have done before them; in
    particular, when no fingerprint was stored, the first successful answer
    is recorded as the baseline and dispatches nothing. *)
Theorem failed_fetch_is_no_update (target : Target) (w : World)
    (fails : list (string → FetchOutcome)) (net : string → FetchOutcome) :
  Forall (λ n, fetchFails (n (contents_url (name target))) = true) fails →
  Forall (λ n, pollTarget n target w = (Normal tt, w)
               ∧ emitted (pollTarget n target) w = []) fails
  ∧ pollTicks fails target w = (Normal tt, w)
  ∧ pollTarget net target (exec (pollTicks fails target) w)
    = pollTarget net target w
  ∧ (∀ f, lastGitHubSha w !! name target = None →
       fetchResult (net (contents_url (name target))) = Some f →
       notifications
         (emitted (pollTarget net target) (exec (pollTicks fails target) w)) = []
       ∧ map_get
           (lastGitHubSha
              (exec (pollTarget net target) (exec (pollTicks fails target) w)))
           (name target) = file_sha f
       ∧ (file_sha f ≠ JUndefined →
          lastGitHubSha
            (exec (pollTarget net target) (exec (pollTicks fails target) w))
            !! name target = Some (file_sha f))).
Proof.
  intros Hfails.
  assert (Hrun : pollTicks fails target w = (Normal tt, w))
    by by apply pollTicks_failed.
  split; [|split; [done|split]].
  - eapply Forall_impl; [exact Hfails|]. intros n Hn. cbv beta in Hn.
    pose proof (pollTarget_failed n target w Hn) as Hp. split; [done|].
    apply emitted_unchanged. unfold exec. by rewrite Hp.
  - unfold exec. by rewrite Hrun.
  - intros f Hn Hf.
    assert (exec (pollTicks fails target) w = w) as ->
      by (unfold exec; by rewrite Hrun).
    by apply unset_sha_silent.
Qed.

(** C2.  While no fingerprint is stored for a signal, the first successful
    answer is recorded and dispatches nothing.  Once a fingerprint [s0] (a
    string that is not empty, as the contents API answers) is stored, ticks
    that fail or answer [s0] again change nothing, and the first answer with
    another fingerprint dispatches exactly one notification, whose context
    is the fetched content, and is recorded. *)
Theorem remote_baseline_then_change (target : Target) (w : World)
    (net : string → FetchOutcome) (f : GitHubFile) :
  fetchResult (net (contents_url (name target))) = Some f →
  (lastGitHubSha w !! name target = None →
     notifications (emitted (pollTarget net target) w) = []
     ∧ (file_sha f ≠ JUndefined →
        lastGitHubSha (exec (pollTarget net target) w) !! name target
        = Some (file_sha f)))
  ∧ (∀ s0 quiet,
       lastGitHubSha w !! name target = Some (JStr s0) → s0 ≠ "" →
       file_sha f ≠ JStr s0 →
       Forall (quietTick s0 target) quiet →
       exec (pollTicks quiet target) w = w
       ∧ notifications
           (emitted (pollTarget net target) (exec (pollTicks quiet target) w))
         = [(agent target, file_content f)]
       ∧ lastGitHubSha
           (exec (pollTarget net target) (exec (pollTicks quiet target) w))
           !! name target = Some (file_sha f)).
Proof.
  intros Hf. split.
  - intros Hn. destruct (unset_sha_silent net target w f Hn Hf) as (H1 & _ & H3).
    by split.
  - intros s0 quiet Hs Hne Hdiff Hq.
    assert (Hrun : exec (pollTicks quiet target) w = w)
      by (unfold exec; by rewrite (pollTicks_quiet s0)).
    rewrite Hrun. split; [done|].
    rewrite pollTarget_notifications, pollTarget_lastGitHubSha, Hf.
    cbv zeta. rewrite (map_get_Some _ _ _ Hs).
    rewrite (strictEq_fingerprint s0 (file_sha f)) by done.
    split; [|apply lookup_insert_eq].
    simpl. destruct s0; [done|reflexivity].
Qed.

End RemoteClaims.

Lemma failed_fetch_is_no_update_witness :
  let fails := [answer notFound; answer networkDown; answer notFound] in
  let w3 := exec (pollTicks (host := exampleHost) fails replit) initialWorld in
  w3 = initialWorld
  ∧ notifications
      (emitted (pollTarget (host := exampleHost)
                  (answer (fileAnswer "abc123" (Some "cG9uZw=="))) replit) w3)
    = [].
Proof.
  cbv zeta.
  pose proof (failed_fetch_is_no_update (host := exampleHost) replit initialWorld
                [answer notFound; answer networkDown; answer notFound]
                (answer (fileAnswer "abc123" (Some "cG9uZw==")))) as H.
  destruct H as (_ & Hrun & _ & Hbase).
  - repeat constructor.
  - split.
    + unfold exec. by rewrite Hrun.
    + apply (Hbase (mkFile (JStr "abc123") "pong")); reflexivity.
Defined.

Lemma remote_baseline_then_change_witness :
  let tick1 := answer (fileAnswer "abc123" None) in
  let tick2 := answer (fileAnswer "def456" (Some "cG9uZw==")) in
  let w1 := exec (pollTarget (host := exampleHost) tick1 replit) initialWorld in
  notifications (emitted (pollTarget (host := exampleHost) tick1 replit)
                         initialWorld) = []
  ∧ notifications (emitted (pollTarget (host := exampleHost) tick2 replit) w1)
    = [("Replit", "pong")].
Proof.
  cbv zeta. split.
  - apply (remote_baseline_then_change (host := exampleHost) replit initialWorld
             (answer (fileAnswer "abc123" None)) (mkFile (JStr "abc123") ""));
      reflexivity.
  - eapply (remote_baseline_then_change (host := exampleHost) replit _
              (answer (fileAnswer "def456" (Some "cG9uZw==")))
              (mkFile (JStr "def456") "pong") eq_refl)
      with (s0 := "abc123") (quiet := []).
    + reflexivity.
    + discriminate.
    + discriminate.
    + constructor.
Defined.

(** The test for a first sighting is [!prevSha]: a recorded value that is
    falsy (which no fingerprint is) counts as no record, so the answer that
    follows it is tracked as a baseline again and dispatches nothing. *)
Example falsy_record_is_no_record :
  let tick1 := answer (fileAnswer "" None) in
  let tick2 := answer (fileAnswer "def456" (Some "cG9uZw==")) in
  let w1 := exec (pollTarget (host := exampleHost) tick1 replit) initialWorld in
  lastGitHubSha w1 !! "notify-replit" = Some (JStr "")
  ∧ fetchResult (host := exampleHost) (tick2 (contents_url "notify-replit"))
    = Some (mkFile (JStr "def456") "pong")
  ∧ notifications (emitted (pollTarget (host := exampleHost) tick2 replit) w1)
    = [].
Proof.
  cbv zeta. split; [|split].
  - rewrite pollTarget_lastGitHubSha. reflexivity.
  - reflexivity.
  - rewrite pollTarget_notifications.
    change (fetchResult _) with (Some (mkFile (JStr "def456") "pong")). cbv zeta.
    rewrite pollTarget_lastGitHubSha.
    change (fetchResult (answer (fileAnswer "" None) _))
      with (Some (mkFile (JStr "") "")).
    reflexivity.
Qed.

(** A listing of a directory is an array: it has no [sha] and no
    [content]. *)
Example directory_listing :
  fetchResult (host := exampleHost) (bodyAnswer (JArr []))
  = Some (mkFile JUndefined "").
Proof. reflexivity. Qed.

(* ===================================================================== *)
(** ** The stored fingerprint under interleaved polls *)
(* ===================================================================== *)

Lemma lastFetchedSha_snoc key l k f :
  lastFetchedSha key (l ++ [(k, f)])
  = if String.eqb k key then file_sha f else lastFetchedSha key l.
Proof. unfold lastFetchedSha. by rewrite foldl_app. Qed.

Section RemoteInvariant.
Context {host : Host}.

Lemma fetchedFile_result out target w :
  fetchedFile out target w = fetchResult out.
Proof.
  unfold fetchedFile, completion. rewrite fetchGitHubFile_run. simpl.
  by destruct (fetchResult out).
Qed.

Lemma remoteStep_tracks ev st st' :
  remoteStep ev st = Some st' → tracksFetched st → tracksFetched st'.
Proof.
  intros Hstep Hinv. destruct ev as [|i out]; simpl in Hstep.
  - injection Hstep as <-. exact Hinv.
  - destruct (rs_polls st !! i) as [[|target rest]|]; try discriminate.
    injection Hstep as <-. intros key. simpl.
    rewrite pollTarget_stored, fetchedFile_result.
    change ((λ _ : string, out) (contents_url (name target))) with out.
    destruct (fetchResult out) as [f|].
    + rewrite lastFetchedSha_snoc.
      destruct (String.eqb (name target) key); [done|apply Hinv].
    + rewrite app_nil_r. apply Hinv.
Qed.

Lemma remoteRun_tracks evs st st' :
  remoteRun evs st = Some st' → tracksFetched st → tracksFetched st'.
Proof.
  revert st. induction evs as [|ev evs IH]; intros st Hrun Hinv; simpl in Hrun.
  - by injection Hrun as <-.
  - destruct (remoteStep ev st) as [st1|] eqn:Hstep; [|discriminate].
    eapply IH; [exact Hrun|]. by eapply remoteStep_tracks.
Qed.

(** C9. An iteration that dispatches has written the new fingerprint to
    [lastGitHubSha] before: the dispatcher is entered with that fingerprint
    stored for the signal, and the write comes first in the log.  After any
    successful answer, [lastGitHubSha.get] reads the fingerprint answered.
    Whatever the interleaving of polls, started from an empty map and no
    poll in flight, what [lastGitHubSha.get] reads for a signal is, in every
    state reached, the fingerprint of the latest successful answer for it.
    An answer that carries the stored fingerprint changes nothing and
    dispatches nothing. *)
Theorem remote_store_before_dispatch (target : Target)
    (net : string → FetchOutcome) (w : World) :
  (notifications (emitted (pollTarget net target) w) ≠ [] →
     ∃ f, fetchResult (net (contents_url (name target))) = Some f
          ∧ emitted (pollTarget net target) w
            = SetLastGitHubSha (name target) (file_sha f)
                :: ConsoleLog (detectedLine target)
                :: dispatchEffects (lastHandled w)
                     (<[name target := file_sha f]> (lastGitHubSha w))
                     (agent target) (file_content f)
          ∧ (∀ handled shas,
               (handled, shas)
                 ∈ dispatchStates (emitted (pollTarget net target) w) →
               shas !! name target = Some (file_sha f))
          ∧ lastGitHubSha (exec (pollTarget net target) w) !! name target
            = Some (file_sha f))
  ∧ (∀ f, fetchResult (net (contents_url (name target))) = Some f →
       map_get (lastGitHubSha (exec (pollTarget net target) w)) (name target)
       = file_sha f)
  ∧ (∀ evs w0 st, lastGitHubSha w0 = ∅ →
       remoteRun evs (mkRemoteSys w0 [] []) = Some st →
       ∀ key, map_get (lastGitHubSha (rs_world st)) key
              = lastFetchedSha key (rs_fetched st))
  ∧ (∀ f s, fetchResult (net (contents_url (name target))) = Some f →
       file_sha f = JStr s →
       lastGitHubSha w !! name target = Some (JStr s) →
       pollTarget net target w = (Normal tt, w)
       ∧ notifications (emitted (pollTarget net target) w) = []).
Proof.
  split; [|split; [|split]].
  - rewrite pollTarget_notifications, pollTarget_emitted, pollTarget_lastGitHubSha.
    destruct (fetchResult _) as [f|]; [|done]. cbv zeta.
    destruct (strictEq _ _); [done|].
    destruct (truthy _); [|done].
    intros _. exists f. split; [done|]. split; [done|].
    split; [|apply lookup_insert_eq].
    intros handled shas Hin. simpl in Hin.
    apply list_elem_of_singleton in Hin. injection Hin as -> ->.
    apply lookup_insert_eq.
  - intros f Hf. by rewrite pollTarget_stored, Hf, String.eqb_refl.
  - intros evs w0 st Hempty Hrun.
    apply (remoteRun_tracks evs (mkRemoteSys w0 [] []) st Hrun).
    intros key. simpl. by rewrite Hempty.
  - intros f s Hf Hsha Hs.
    pose proof (pollTarget_same_sha net target w f s Hf Hsha Hs) as Hp.
    split; [done|].
    assert (emitted (pollTarget net target) w = []) as ->; [|done].
    apply emitted_unchanged. unfold exec. by rewrite Hp.
Qed.

End RemoteInvariant.

Lemma remote_store_before_dispatch_witness :
  let evs := [ StartPoll;
               FetchDone 0 (fileAnswer "abc123" None);
               StartPoll;
               FetchDone 1 (fileAnswer "def456" (Some "cG9uZw=="));
               FetchDone 0 notFound ] in
  let init := mkRemoteSys initialWorld [] [] in
  let st := default init (remoteRun (host := exampleHost) evs init) in
  remoteRun (host := exampleHost) evs init = Some st
  ∧ lastFetchedSha "notify-cascade" (rs_fetched st) = JStr "def456"
  ∧ dispatchStates (effects (rs_world st))
    = [(∅, {["notify-cascade" := JStr "def456"]})]
  ∧ map_get (lastGitHubSha (rs_world st)) "notify-cascade"
    = lastFetchedSha "notify-cascade" (rs_fetched st).
Proof.
  intros evs init st.
  assert (Hrun : remoteRun (host := exampleHost) evs init = Some st)
    by (vm_compute; reflexivity).
  split; [exact Hrun|]. split; [vm_compute; reflexivity|].
  split; [vm_compute; reflexivity|].
  destruct (remote_store_before_dispatch (host := exampleHost) cascade
              (answer notFound) initialWorld) as (_ & _ & Hinv & _).
  exact (Hinv evs initialWorld st eq_refl Hrun "notify-cascade").
Defined.

(* ===================================================================== *)
(** ** What the log of the poller adds up to *)
(* ===================================================================== *)

Lemma shaLog_app key l1 l2 : shaLog key (l1 ++ l2) = shaLog key l1 ++ shaLog key l2.
Proof.
  induction l1 as [|e l1 IH]; [done|].
  destruct e; simpl; rewrite ?IH; try done.
  by destruct (String.eqb key0 key).
Qed.

Lemma shaLog_dispatch key h s a c : shaLog key (dispatchEffects h s a c) = [].
Proof. reflexivity. Qed.

Lemma notifiedBy_cons_sha a k s l :
  notifiedBy a (SetLastGitHubSha k s :: l) = notifiedBy a l.
Proof. reflexivity. Qed.

Lemma notifiedBy_cons_log a x l : notifiedBy a (ConsoleLog x :: l) = notifiedBy a l.
Proof. reflexivity. Qed.

Section RemoteCounts.
Context {host : Host}.

(** An iteration for one signal writes and dispatches nothing for
    another. *)
Lemma pollTarget_other_signal net x t w :
  x ∈ TARGETS → t ∈ TARGETS → name x ≠ name t →
  shaLog (name t) (emitted (pollTarget net x) w) = []
  ∧ notifiedBy (agent t) (emitted (pollTarget net x) w) = []
  ∧ lastGitHubSha (exec (pollTarget net x) w) !! name t
    = lastGitHubSha w !! name t.
Proof.
  intros Hx Ht Hname.
  assert (Hagent : agent x ≠ agent t).
  { intros H. apply Hname. by rewrite (registry_agent_inj x t Hx Ht H). }
  assert (Heqb : String.eqb (name x) (name t) = false)
    by (by apply String.eqb_neq).
  split; [|split; [|by apply pollTarget_other_key]].
  - rewrite pollTarget_emitted.
    destruct (fetchResult _) as [f|]; [|done]. cbv zeta.
    destruct (strictEq _ _); [done|].
    destruct (truthy _); simpl; rewrite Heqb; [done|].
    by destruct (sliceOf _).
  - rewrite pollTarget_emitted.
    destruct (fetchResult _) as [f|]; [|done]. cbv zeta.
    destruct (strictEq _ _); [done|].
    destruct (truthy _).
    + rewrite notifiedBy_cons_sha, notifiedBy_cons_log.
      by apply notifiedBy_dispatch_other.
    + rewrite notifiedBy_cons_sha. by destruct (sliceOf _).
Qed.

Lemma remoteStep_polls ev st st' :
  remoteStep ev st = Some st' →
  Forall (Forall (λ x, x ∈ TARGETS)) (rs_polls st) →
  Forall (Forall (λ x, x ∈ TARGETS)) (rs_polls st').
Proof.
  intros Hstep Hpolls. destruct ev as [|i out]; simpl in Hstep.
  - injection Hstep as <-. simpl.
    apply Forall_app. split; [done|]. constructor; [|done].
    apply registry_all_in.
  - destruct (rs_polls st !! i) as [[|x rest]|] eqn:Hi; try discriminate.
    injection Hstep as <-. simpl.
    apply Forall_insert; [done|].
    eapply Forall_lookup_1 in Hpolls; [|exact Hi].
    apply Forall_cons in Hpolls as [_ Hrest].
    by destruct (completion _ _).
Qed.

Lemma remoteStep_baselineOnce t ev st st' :
  t ∈ TARGETS →
  remoteStep ev st = Some st' →
  match ev with
  | FetchDone _ out =>
      match fetchResult out with
      | Some f => isFingerprint (file_sha f)
      | None => True
      end
  | StartPoll => True
  end →
  baselineOnce t st → baselineOnce t st'.
Proof.
  intros Ht Hstep Hev [Hpolls Hcount].
  split; [by eapply remoteStep_polls|].
  destruct ev as [|i out]; simpl in Hstep.
  - injection Hstep as <-. exact Hcount.
  - destruct (rs_polls st !! i) as [[|x rest]|] eqn:Hi; try discriminate.
    injection Hstep as <-.
    assert (Hx : x ∈ TARGETS).
    { eapply Forall_lookup_1 in Hpolls; [|exact Hi].
      by apply Forall_cons in Hpolls as [? _]. }
    simpl. rewrite pollTarget_effects, shaLog_app, notifiedBy_app, !length_app.
    destruct (decide (name x = name t)) as [Hsame|Hname].
    + apply (registry_name_inj x t Hx Ht) in Hsame as ->.
      rewrite pollTarget_emitted, pollTarget_lastGitHubSha.
      change ((λ _ : string, out) (contents_url (name t))) with out.
      destruct (fetchResult out) as [f|].
      2:{ simpl. rewrite !app_nil_r, !Nat.add_0_r. exact Hcount. }
      cbv zeta. unfold map_get.
      destruct (lastGitHubSha (rs_world st) !! name t) as [s|] eqn:Hs; simpl.
      * destruct Hcount as [Hs0 Hlen].
        destruct (strictEq s (file_sha f)) eqn:Hb.
        -- rewrite Hs. simpl. rewrite !Nat.add_0_r. done.
        -- rewrite (truthy_fingerprint s Hs0), lookup_insert_eq.
           simpl. rewrite String.eqb_refl. simpl.
           rewrite notifiedBy_cons_sha, notifiedBy_cons_log.
           rewrite notifiedBy_dispatch_same. simpl. split; [done|lia].
      * destruct Hcount as [Hsets Hnot].
        destruct (file_sha f) as [| | | |s| |] eqn:Hsha; try done.
        simpl. rewrite lookup_insert_eq, String.eqb_refl, Hsets, Hnot.
        simpl. done.
    + destruct (pollTarget_other_signal (λ _, out) x t (rs_world st) Hx Ht Hname)
        as (-> & -> & ->).
      simpl. rewrite !app_nil_r, !Nat.add_0_r. exact Hcount.
Qed.

Lemma remoteRun_baselineOnce t evs st st' :
  t ∈ TARGETS →
  remoteRun evs st = Some st' →
  answersNonEmpty evs →
  baselineOnce t st → baselineOnce t st'.
Proof.
  intros Ht. revert st. induction evs as [|ev evs IH];
    intros st Hrun Hans Hinv; simpl in Hrun.
  - by injection Hrun as <-.
  - destruct (remoteStep ev st) as [st1|] eqn:Hstep; [|discriminate].
    apply Forall_cons in Hans as [Hev Hans].
    apply (IH st1 Hrun Hans).
    by apply (remoteStep_baselineOnce t ev st).
Qed.

(** X3. The baseline is taken once.  From the start (nothing stored, empty
    log), however the polls interleave, as long as the fingerprints answered
    are non-empty: for each signal of the registry, the notifications
    dispatched for it are as many as the fingerprints written for it, less
    the first one.  Every recorded change after the baseline is dispatched
    exactly once, and nothing else is. *)
Theorem remote_dispatch_count (t : Target) (evs : list RemoteEvent)
    (w0 : World) (st : RemoteSys) :
  t ∈ TARGETS →
  lastGitHubSha w0 = ∅ → effects w0 = [] →
  remoteRun evs (mkRemoteSys w0 [] []) = Some st →
  answersNonEmpty evs →
  List.length (notifiedBy (agent t) (effects (rs_world st)))
  = pred (List.length (shaLog (name t) (effects (rs_world st)))).
Proof.
  intros Ht Hempty Hlog Hrun Hans.
  destruct (remoteRun_baselineOnce t evs (mkRemoteSys w0 [] []) st Ht Hrun Hans)
    as [_ Hcount].
  - split; [constructor|]. simpl. rewrite Hempty, lookup_empty, Hlog. done.
  - destruct (lastGitHubSha (rs_world st) !! name t).
    + destruct Hcount as [_ ->]. reflexivity.
    + destruct Hcount as [-> ->]. reflexivity.
Qed.

End RemoteCounts.

Lemma remote_dispatch_count_witness :
  let evs := [ StartPoll;
               FetchDone 0 (fileAnswer "abc123" None);
               FetchDone 0 notFound;
               StartPoll;
               FetchDone 1 (fileAnswer "def456" (Some "cG9uZw=="));
               FetchDone 1 notFound;
               StartPoll;
               FetchDone 2 (fileAnswer "abc123" None) ] in
  let init := mkRemoteSys initialWorld [] [] in
  let st := default init (remoteRun (host := exampleHost) evs init) in
  shaLog "notify-cascade" (effects (rs_world st))
  = [JStr "abc123"; JStr "def456"; JStr "abc123"]
  ∧ List.length (notifiedBy "Cascade" (effects (rs_world st))) = 2%nat.
Proof.
  intros evs init st.
  assert (Hrun : remoteRun (host := exampleHost) evs init = Some st)
    by (vm_compute; reflexivity).
  assert (Hlog : shaLog "notify-cascade" (effects (rs_world st))
                 = [JStr "abc123"; JStr "def456"; JStr "abc123"])
    by (vm_compute; reflexivity).
  split; [exact Hlog|].
  assert (Hans : answersNonEmpty (host := exampleHost) evs)
    by (unfold answersNonEmpty, evs; repeat constructor; discriminate).
  pose proof (remote_dispatch_count (host := exampleHost) cascade evs
                initialWorld st cascade_in eq_refl eq_refl Hrun Hans) as Hc.
  change (name cascade) with "notify-cascade" in Hc.
  change (agent cascade) with "Cascade" in Hc.
  rewrite Hlog in Hc. exact Hc.
Defined.

(* ===================================================================== *)
(** ** What the log of the local checks adds up to *)
(* ===================================================================== *)

Lemma handledCount_app l1 l2 :
  handledCount (l1 ++ l2) = (handledCount l1 + handledCount l2)%nat.
Proof.
  induction l1 as [|e l1 IH]; [done|]. destruct e; simpl; by rewrite ?IH.
Qed.

Lemma handledLog_app p l1 l2 :
  handledLog p (l1 ++ l2) = handledLog p l1 ++ handledLog p l2.
Proof.
  induction l1 as [|e l1 IH]; [done|].
  destruct e; simpl; rewrite ?IH; try done.
  by destruct (String.eqb filePath p).
Qed.

Lemma risingFrom_snoc lo l x :
  risingFrom lo l → (lastFrom lo l < x)%Q → risingFrom lo (l ++ [x]).
Proof.
  revert lo. induction l as [|y l IH]; intros lo Hr Hx; simpl in *; [done|].
  destruct Hr as [Hy Hr]. split; [done|]. by apply IH.
Qed.

Lemma lastFrom_snoc lo l x : lastFrom lo (l ++ [x]) = x.
Proof. revert lo. induction l as [|y l IH]; intros lo; simpl; [done|]. apply IH. Qed.

Lemma risingFrom_lastFrom lo l : risingFrom lo l → (lo <= lastFrom lo l)%Q.
Proof.
  revert lo. induction l as [|y l IH]; intros lo Hr; simpl in *.
  - apply Qle_refl.
  - destruct Hr as [Hy Hr]. apply Qle_trans with y; [by apply Qlt_le_weak|].
    by apply IH.
Qed.

Section LocalLog.
Context {host : Host}.

Lemma localStep_logRises p w0 ev st st' :
  localStep ev st = Some st' → logRises p w0 st → logRises p w0 st'.
Proof.
  destruct st as [w tasks]. intros Hstep (added & Heff & Hrise & Hlast).
  simpl in Heff, Hlast.
  assert (Hkeep : ∀ l w', effects w' = effects w ++ l → handledLog p l = [] →
            lastHandled w' !! p = lastHandled w !! p →
            ∀ tasks', logRises p w0 (w', tasks')).
  { intros l w' He Hl Hs tasks'. exists (added ++ l). simpl.
    rewrite He, Heff, app_assoc, handledLog_app, Hl, app_nil_r, Hs. done. }
  destruct ev as [x| |i r|i r].
  - injection Hstep as <-. by exists added.
  - injection Hstep as <-. by exists added.
  - apply localStep_stat in Hstep as (x & Hi & ->).
    destruct r as [m|e].
    + destruct (Qle_bool m _) eqn:Hcmp.
      * apply (Hkeep []); by rewrite ?app_nil_r.
      * apply Qle_bool_false_lt in Hcmp.
        destruct (String.eqb (localPath x) p) eqn:Hp.
        -- apply String.eqb_eq in Hp. subst p.
           exists (added ++ [SetLastHandled (localPath x) m]). simpl.
           rewrite Heff, app_assoc, handledLog_app. simpl.
           rewrite String.eqb_refl, lookup_insert_eq, lastFrom_snoc.
           split; [done|]. split; [|apply or_zero_Qeq].
           apply risingFrom_snoc; [done|]. by rewrite <- Hlast.
        -- apply (Hkeep [SetLastHandled (localPath x) m]); simpl.
           ++ done.
           ++ by rewrite Hp.
           ++ apply String.eqb_neq in Hp. by rewrite lookup_insert_ne.
    + destruct (is_ENOENT e).
      * apply (Hkeep []); by rewrite ?app_nil_r.
      * by apply (Hkeep [ConsoleError ("[local] error: " +:+ err_message e)]).
  - apply localStep_read in Hstep as (x & Hi & ->).
    by eapply Hkeep.
Qed.

Lemma localRun_logRises p w0 evs st st' :
  localRun evs st = Some st' → logRises p w0 st → logRises p w0 st'.
Proof.
  revert st. induction evs as [|ev evs IH]; intros st Hrun Hinv; simpl in Hrun.
  - by injection Hrun as <-.
  - destruct (localStep ev st) as [st1|] eqn:Hstep; [|discriminate].
    apply (IH st1 Hrun). by eapply localStep_logRises.
Qed.

Lemma localStep_logBalances w0 tasks0 ev st st' :
  localStep ev st = Some st' →
  logBalances w0 tasks0 st → logBalances w0 tasks0 st'.
Proof.
  destruct st as [w tasks]. unfold logBalances. simpl. intros Hstep Hbal.
  destruct ev as [x| |i r|i r].
  - injection Hstep as <-. simpl. rewrite reading_app. simpl. lia.
  - injection Hstep as <-. simpl. rewrite reading_app, reading_scan. lia.
  - apply localStep_stat in Hstep as (x & Hi & ->).
    pose proof (reading_insert tasks i (AwaitStat x) Over Hi) as Hover.
    pose proof (reading_insert tasks i (AwaitStat x) (AwaitRead x) Hi) as Hread.
    simpl in Hover, Hread.
    destruct r as [m|e].
    + destruct (Qle_bool m _); simpl.
      * lia.
      * rewrite handledCount_app, notifications_app. simpl.
        rewrite app_nil_r. lia.
    + destruct (is_ENOENT e); simpl; [lia|].
      rewrite handledCount_app, notifications_app. simpl.
      rewrite app_nil_r. lia.
  - apply localStep_read in Hstep as (x & Hi & ->). simpl.
    pose proof (reading_insert tasks i (AwaitRead x) Over Hi) as Hover.
    simpl in Hover.
    rewrite handledCount_app, notifications_app, notifications_dispatch.
    rewrite length_app. simpl. lia.
Qed.

Lemma localRun_logBalances w0 tasks0 evs st st' :
  localRun evs st = Some st' →
  logBalances w0 tasks0 st → logBalances w0 tasks0 st'.
Proof.
  revert st. induction evs as [|ev evs IH]; intros st Hrun Hinv; simpl in Hrun.
  - by injection Hrun as <-.
  - destruct (localStep ev st) as [st1|] eqn:Hstep; [|discriminate].
    apply (IH st1 Hrun). by eapply localStep_logBalances.
Qed.

(** X4. Whatever the checks, the stat answers and the interleaving, the
    time stamps written to [lastHandled] for a path rise strictly, starting
    above the one stored before; the stored one is always the last written,
    so it never decreases. *)
Theorem handled_times_rise (p : string) (evs : list LocalEvent)
    (w0 : World) (tasks0 : list LocalTask) (st : World * list LocalTask) :
  localRun evs (w0, tasks0) = Some st →
  ∃ added, effects st.1 = effects w0 ++ added
    ∧ risingFrom (or_zero (lastHandled w0 !! p)) (handledLog p added)
    ∧ (or_zero (lastHandled st.1 !! p)
       == lastFrom (or_zero (lastHandled w0 !! p)) (handledLog p added))%Q
    ∧ (or_zero (lastHandled w0 !! p) <= or_zero (lastHandled st.1 !! p))%Q.
Proof.
  intros Hrun.
  destruct (localRun_logRises p w0 evs (w0, tasks0) st Hrun)
    as (added & Heff & Hrise & Hlast).
  - exists []. simpl. rewrite app_nil_r. repeat split; try apply Qeq_refl.
  - exists added. repeat split; try done.
    rewrite Hlast. by apply risingFrom_lastFrom.
Qed.

(** X5. Every write to [lastHandled] is followed by exactly one dispatch,
    even when the read fails: along any schedule started with no check in
    flight, the writes the schedule adds to the log are as many as the
    notifications it adds plus the checks still suspended at the read. *)
Theorem handled_writes_are_dispatched (evs : list LocalEvent) (w0 : World)
    (st : World * list LocalTask) :
  localRun evs (w0, []) = Some st →
  (handledCount (effects st.1) - handledCount (effects w0)
   = List.length (notifications (effects st.1))
     - List.length (notifications (effects w0)) + reading st.2)%nat
  ∧ (handledCount (effects w0) <= handledCount (effects st.1))%nat
  ∧ (List.length (notifications (effects w0))
     <= List.length (notifications (effects st.1)))%nat.
Proof.
  intros Hrun.
  pose proof (localRun_logBalances w0 [] evs (w0, []) st Hrun) as Hbal.
  unfold logBalances in Hbal. simpl in Hbal. specialize (Hbal ltac:(lia)).
  destruct (localRun_logRises "" w0 evs (w0, []) st Hrun) as (added & Heff & _).
  { exists []. simpl. rewrite app_nil_r. repeat split; try apply Qeq_refl. }
  rewrite Heff in *. rewrite handledCount_app, notifications_app, length_app in *.
  lia.
Qed.

End LocalLog.

Lemma handled_times_rise_witness :
  let evs := [ StartCheck cascade; StartCheck cascade;
               StatDone 0 (StatOk 5); StatDone 1 (StatOk 7);
               ReadDone 1 (ReadOk "seven"); ReadDone 0 (ReadErr EACCES);
               StartScan; StatDone 2 (StatOk 6) ] in
  let st := default (initialWorld, [])
              (localRun (host := exampleHost) evs (initialWorld, [])) in
  handledLog "/repo/.handoff/notify-cascade" (effects st.1) = [5%Q; 7%Q]
  ∧ ∃ added, effects st.1 = [] ++ added
      ∧ risingFrom 0 (handledLog "/repo/.handoff/notify-cascade" added).
Proof.
  intros evs st.
  assert (Hrun : localRun (host := exampleHost) evs (initialWorld, []) = Some st)
    by (vm_compute; reflexivity).
  split; [vm_compute; reflexivity|].
  destruct (handled_times_rise (host := exampleHost)
              "/repo/.handoff/notify-cascade" evs initialWorld [] st Hrun)
    as (added & Heff & Hrise & _).
  exists added. split; [exact Heff|exact Hrise].
Defined.

Lemma handled_writes_are_dispatched_witness :
  let evs := [ StartScan;
               StatDone 0 (StatOk 5); StatDone 1 (StatOk 7);
               ReadDone 0 (ReadErr EACCES) ] in
  let st := default (initialWorld, [])
              (localRun (host := exampleHost) evs (initialWorld, [])) in
  handledCount (effects st.1) = 2%nat
  ∧ notifications (effects st.1) = [("Cascade", "")]
  ∧ reading st.2 = 1%nat.
Proof.
  intros evs st.
  assert (Hrun : localRun (host := exampleHost) evs (initialWorld, []) = Some st)
    by (vm_compute; reflexivity).
  assert (Hn : notifications (effects st.1) = [("Cascade", "")])
    by (vm_compute; reflexivity).
  assert (Hr : reading st.2 = 1%nat) by (vm_compute; reflexivity).
  destruct (handled_writes_are_dispatched (host := exampleHost) evs
              initialWorld st Hrun) as (Hbal & _ & _).
  rewrite Hn, Hr in Hbal. simpl in Hbal.
  split; [lia|]. by split.
Defined.

(** Between two checks of one signal the later answer can be dispatched
    first: the writes rise (5, then 7) while the notifications come in the
    order the reads complete. *)
Example dispatch_order_follows_reads :
  let evs := [ StartCheck cascade; StartCheck cascade;
               StatDone 0 (StatOk 5); StatDone 1 (StatOk 7);
               ReadDone 1 (ReadOk "seven"); ReadDone 0 (ReadOk "five") ] in
  (λ st, (handledLog "/repo/.handoff/notify-cascade" (effects st.1),
          notifications (effects st.1)))
    <$> localRun (host := exampleHost) evs (initialWorld, [])
  = Some ([5%Q; 7%Q], [("Cascade", "seven"); ("Cascade", "five")]).
Proof. vm_compute. reflexivity. Qed.

(* ===================================================================== *)
(** ** The timers *)
(* ===================================================================== *)

Lemma ids_filter_NoDup (P : Timeout → Prop) `{∀ x, Decision (P x)} l :
  NoDup (tm_id <$> l) → NoDup (tm_id <$> filter P l).
Proof.
  induction l as [|x l IH]; [done|]. rewrite fmap_cons, filter_cons.
  intros Hnd. apply NoDup_cons in Hnd as [Hx Hnd].
  destruct (decide (P x)); [|by apply IH].
  rewrite fmap_cons. apply NoDup_cons. split; [|by apply IH].
  intros Hin. apply Hx.
  apply list_elem_of_fmap in Hin as (y & Hy & Hin).
  apply list_elem_of_filter in Hin as [_ Hin].
  rewrite Hy. by apply list_elem_of_fmap_2.
Qed.

Lemma same_id_same_timeout l (x y : Timeout) :
  NoDup (tm_id <$> l) → x ∈ l → y ∈ l → tm_id x = tm_id y → x = y.
Proof.
  induction l as [|z l IH]; intros Hnd Hx Hy Hid; [by apply elem_of_nil in Hx|].
  rewrite fmap_cons in Hnd. apply NoDup_cons in Hnd as [Hz Hnd].
  apply elem_of_cons in Hx as [->|Hx]; apply elem_of_cons in Hy as [->|Hy].
  - done.
  - exfalso. apply Hz. rewrite Hid. by apply list_elem_of_fmap_2.
  - exfalso. apply Hz. rewrite <- Hid. by apply list_elem_of_fmap_2.
  - by apply IH.
Qed.

Lemma filter_agree {A} (P Q : A → Prop) `{∀ x, Decision (P x)}
    `{∀ x, Decision (Q x)} (l : list A) :
  (∀ x, x ∈ l → (P x ↔ Q x)) → filter P l = filter Q l.
Proof.
  induction l as [|x l IH]; intros Hext; [done|].
  rewrite !filter_cons.
  assert (IH' : filter P l = filter Q l)
    by (apply IH; intros y Hy; apply Hext; by right).
  destruct (decide (P x)) as [Hp|Hp].
  - rewrite decide_True by (apply Hext; [by left|done]). by f_equal.
  - rewrite decide_False; [done|]. intros Hq. apply Hp. apply Hext; [by left|done].
Qed.

Lemma filter_none {A} (P : A → Prop) `{∀ x, Decision (P x)} (l : list A) :
  (∀ x, x ∈ l → ¬ P x) → filter P l = [].
Proof.
  induction l as [|x l IH]; intros Hno; [done|].
  rewrite filter_cons, decide_False by (apply Hno; by left).
  apply IH. intros y Hy. apply Hno. by right.
Qed.

Lemma filter_all {A} (P : A → Prop) `{∀ x, Decision (P x)} (l : list A) :
  (∀ x, x ∈ l → P x) → filter P l = l.
Proof.
  induction l as [|x l IH]; intros Hall; [done|].
  rewrite filter_cons, decide_True by (apply Hall; by left).
  f_equal. apply IH. intros y Hy. apply Hall. by right.
Qed.

Lemma debounce_general target w :
  debounceLocalHandle target w = (Normal tt, debounced target w).
Proof.
  unfold debounceLocalHandle, setTimeout, clearTimeout, debounced.
  js_unfold. cbv beta iota zeta.
  destruct w as [lh sha tms nw nid pend eff].
  unfold with_timers, with_pending.
  cbn [timers pendingTimeouts nextTimerId now lastHandled lastGitHubSha effects].
  destruct (tms !! name target) as [id|] eqn:Hid.
  - rewrite bool_decide_eq_true_2 by eauto.
    cbn [timers pendingTimeouts nextTimerId now lastHandled lastGitHubSha effects].
    rewrite Hid. reflexivity.
  - rewrite bool_decide_eq_false_2 by (intros [? ?]; discriminate).
    reflexivity.
Qed.

Lemma onWatchEvent_run filename w :
  onWatchEvent filename w =
  (Normal tt,
   match filename with
   | None => w
   | Some f =>
       if Str.truthy f then
         match List.find (λ t, String.eqb (name t) f) TARGETS with
         | Some target => debounced target w
         | None => w
         end
       else w
   end).
Proof.
  unfold onWatchEvent, block. destruct filename as [f|]; [|reflexivity].
  destruct (Str.truthy f); [|reflexivity].
  destruct (List.find _ TARGETS) as [target|]; [|reflexivity].
  change (negb true) with false. cbv iota.
  by rewrite debounce_general.
Qed.

Lemma onWatchEvent_registry target w :
  target ∈ TARGETS →
  onWatchEvent (Some (name target)) w = (Normal tt, debounced target w).
Proof.
  intros Ht. rewrite onWatchEvent_run.
  assert (Str.truthy (name target) = true) as ->
    by (by destruct (registry_cases target Ht) as [-> | ->]).
  by rewrite registry_find.
Qed.

Lemma fireTimeout_general tm w :
  fireTimeout tm w =
  if bool_decide (tm_id tm ∈ tm_id <$> pendingTimeouts w)
  then (Normal [handleLocalFlag_call (tm_target tm)], fired tm w)
  else (Normal [], w).
Proof.
  unfold fireTimeout. js_unfold. cbv beta iota zeta.
  destruct (bool_decide _); [|reflexivity].
  unfold debounceCallback, with_pending, with_now, with_timers, fired.
  js_unfold. reflexivity.
Qed.

Lemma timersAgree_same_runtime w w' :
  timers w' = timers w → nextTimerId w' = nextTimerId w →
  pendingTimeouts w' = pendingTimeouts w →
  timersAgree w → timersAgree w'.
Proof. unfold timersAgree. by intros -> -> ->. Qed.

Lemma debounced_timersAgree target w :
  target ∈ TARGETS → timersAgree w → timersAgree (debounced target w).
Proof.
  intros Ht (Hnd & Hpend & Hreg). unfold timersAgree, debounced. simpl.
  set (kept := match timers w !! name target with
               | Some id => filter (λ tm, tm_id tm ≠ id) (pendingTimeouts w)
               | None => pendingTimeouts w
               end).
  assert (Hkept : ∀ tm, tm ∈ kept ↔
            tm ∈ pendingTimeouts w ∧ name (tm_target tm) ≠ name target).
  { intros tm. unfold kept.
    destruct (timers w !! name target) as [id|] eqn:Hid.
    - rewrite list_elem_of_filter. split.
      + intros [Hne Hin]. split; [done|]. intros Hname.
        destruct (Hpend tm Hin) as (_ & _ & Htm). rewrite Hname, Hid in Htm.
        by injection Htm as ->.
      + intros [Hin Hname]. split; [|done]. intros Hsame.
        destruct (Hreg _ _ Hid) as (tm' & Hin' & Hid' & Hname').
        apply Hname. rewrite <- Hname'. f_equal. f_equal.
        apply (same_id_same_timeout (pendingTimeouts w)); [done..|].
        by rewrite Hid'.
    - split; [|by intros [? _]]. intros Hin. split; [done|]. intros Hname.
      destruct (Hpend tm Hin) as (_ & _ & Htm). by rewrite Hname, Hid in Htm. }
  assert (Hkept_nd : NoDup (tm_id <$> kept)).
  { unfold kept. destruct (timers w !! name target); [|done].
    by apply ids_filter_NoDup. }
  split; [|split].
  - rewrite fmap_app. apply NoDup_app. split; [done|]. split.
    + intros i Hi Hnew. simpl in Hnew. apply list_elem_of_singleton in Hnew as ->.
      apply list_elem_of_fmap in Hi as (tm & Htm & Hin).
      apply Hkept in Hin as [Hin _]. destruct (Hpend tm Hin) as (Hlt & _). lia.
    + simpl. apply NoDup_singleton.
  - intros tm Hin. apply elem_of_app in Hin as [Hin|Hin].
    + apply Hkept in Hin as [Hin Hname].
      destruct (Hpend tm Hin) as (Hlt & Htar & Hr).
      split; [lia|]. split; [done|]. by rewrite lookup_insert_ne.
    + apply list_elem_of_singleton in Hin as ->. simpl.
      split; [lia|]. split; [done|]. apply lookup_insert_eq.
  - intros key id Hkey. destruct (decide (key = name target)) as [->|Hne].
    + rewrite lookup_insert_eq in Hkey. injection Hkey as <-.
      eexists. split; [apply elem_of_app; right; by apply list_elem_of_singleton|].
      done.
    + rewrite lookup_insert_ne in Hkey by done.
      destruct (Hreg _ _ Hkey) as (tm & Hin & Hid & Hname).
      exists tm. split; [|done]. apply elem_of_app. left.
      apply Hkept. split; [done|]. by rewrite Hname.
Qed.

Lemma fired_timersAgree tm w :
  tm ∈ pendingTimeouts w → timersAgree w → timersAgree (fired tm w).
Proof.
  intros Hin (Hnd & Hpend & Hreg). unfold timersAgree, fired. simpl.
  assert (Hother : ∀ x, x ∈ pendingTimeouts w → tm_id x ≠ tm_id tm →
            name (tm_target x) ≠ name (tm_target tm)).
  { intros x Hx Hne Hname. apply Hne.
    destruct (Hpend x Hx) as (_ & _ & H1). destruct (Hpend tm Hin) as (_ & _ & H2).
    rewrite Hname, H2 in H1. by injection H1. }
  split; [by apply ids_filter_NoDup|]. split.
  - intros x Hx. apply list_elem_of_filter in Hx as [Hne Hx].
    destruct (Hpend x Hx) as (Hlt & Htar & Hr).
    split; [done|]. split; [done|].
    rewrite lookup_delete_ne; [done|]. intros H. by apply (Hother x Hx Hne).
  - intros key id Hkey.
    destruct (decide (key = name (tm_target tm))) as [->|Hne].
    { by rewrite lookup_delete_eq in Hkey. }
    rewrite lookup_delete_ne in Hkey by done.
    destruct (Hreg _ _ Hkey) as (x & Hx & Hid & Hname).
    exists x. split; [|done]. apply list_elem_of_filter. split; [|done].
    intros Hsame. apply Hne. rewrite <- Hname. f_equal. f_equal.
    by apply (same_id_same_timeout (pendingTimeouts w)).
Qed.

(** The world after the callbacks of the timeouts of a list have run. *)
Lemma fireAll_run l w :
  NoDup (tm_id <$> l) → (∀ tm, tm ∈ l → tm ∈ pendingTimeouts w) →
  fireAll l w
  = (Normal (handleLocalFlag_call <$> (tm_target <$> l)),
     foldl (λ w tm, fired tm w) w l).
Proof.
  revert w. induction l as [|tm rest IH]; intros w Hnd Hin; [reflexivity|].
  rewrite fmap_cons in Hnd. apply NoDup_cons in Hnd as [Hfresh Hnd].
  cbn [fireAll]. unfold mbind at 1, Js_bind at 1.
  rewrite fireTimeout_general.
  rewrite bool_decide_eq_true_2
    by (apply list_elem_of_fmap_2, Hin; by left).
  unfold mbind at 1, Js_bind at 1. rewrite IH; [reflexivity|done|].
  intros x Hx. unfold fired. cbn [pendingTimeouts].
  apply list_elem_of_filter. split; [|apply Hin; by right].
  intros Hid. apply Hfresh. rewrite <- Hid. by apply list_elem_of_fmap_2.
Qed.

Lemma firedAll_frame l w :
  lastHandled (foldl (λ w tm, fired tm w) w l) = lastHandled w
  ∧ lastGitHubSha (foldl (λ w tm, fired tm w) w l) = lastGitHubSha w
  ∧ effects (foldl (λ w tm, fired tm w) w l) = effects w
  ∧ nextTimerId (foldl (λ w tm, fired tm w) w l) = nextTimerId w.
Proof.
  revert w. induction l as [|tm rest IH]; intros w; [done|].
  cbn [foldl]. destruct (IH (fired tm w)) as (-> & -> & -> & ->). done.
Qed.

Lemma firedAll_pending l w :
  pendingTimeouts (foldl (λ w tm, fired tm w) w l)
  = filter (λ x, tm_id x ∉ tm_id <$> l) (pendingTimeouts w).
Proof.
  revert w. induction l as [|tm rest IH]; intros w.
  - simpl. symmetry. apply filter_all. intros x _. apply not_elem_of_nil.
  - cbn [foldl]. rewrite IH. unfold fired. cbn [pendingTimeouts].
    rewrite list_filter_filter. apply filter_agree. intros x _.
    rewrite fmap_cons, not_elem_of_cons. tauto.
Qed.

Lemma firedAll_now l w t :
  (now w <= t)%Z → Forall (λ tm, (tm_due tm <= t)%Z) l →
  (now w <= now (foldl (λ w tm, fired tm w) w l) <= t)%Z.
Proof.
  revert w. induction l as [|tm rest IH]; intros w Hnow Hdue; [simpl; lia|].
  apply Forall_cons in Hdue as [Htm Hdue]. cbn [foldl].
  assert (now (fired tm w) <= t)%Z as H1 by (simpl; lia).
  specialize (IH (fired tm w) H1 Hdue). simpl in IH. lia.
Qed.

Lemma firedAll_timersAgree l w :
  NoDup (tm_id <$> l) → (∀ tm, tm ∈ l → tm ∈ pendingTimeouts w) →
  timersAgree w → timersAgree (foldl (λ w tm, fired tm w) w l).
Proof.
  revert w. induction l as [|tm rest IH]; intros w Hnd Hin Hagree; [done|].
  rewrite fmap_cons in Hnd. apply NoDup_cons in Hnd as [Hfresh Hnd].
  cbn [foldl]. apply IH; [done| |apply fired_timersAgree; [apply Hin; by left|done]].
  intros x Hx. unfold fired. cbn [pendingTimeouts].
  apply list_elem_of_filter. split; [|apply Hin; by right].
  intros Hid. apply Hfresh. rewrite <- Hid. by apply list_elem_of_fmap_2.
Qed.

(** The timeouts due by [t]. *)
Lemma due_facts t w :
  timersAgree w →
  let due := filter (λ tm, (tm_due tm <= t)%Z) (pendingTimeouts w) in
  NoDup (tm_id <$> due)
  ∧ (∀ tm, tm ∈ due → tm ∈ pendingTimeouts w)
  ∧ Forall (λ tm, (tm_due tm <= t)%Z) due
  ∧ Forall (λ tm, tm_target tm ∈ TARGETS) due.
Proof.
  intros (Hnd & Hpend & _) due. split; [by apply ids_filter_NoDup|].
  assert (Hin : ∀ tm, tm ∈ due → tm ∈ pendingTimeouts w).
  { intros tm H. by apply list_elem_of_filter in H as [_ ?]. }
  split; [done|]. split; apply Forall_forall; intros tm H.
  - by apply list_elem_of_filter in H as [? _].
  - by destruct (Hpend tm (Hin tm H)) as (_ & ? & _).
Qed.

Lemma advanceTo_run t w :
  timersAgree w →
  let due := filter (λ tm, (tm_due tm <= t)%Z) (pendingTimeouts w) in
  let w' := foldl (λ w tm, fired tm w) w due in
  advanceTo t w
  = (Normal (handleLocalFlag_call <$> (tm_target <$> due)),
     with_now (Z.max (now w') t) w').
Proof.
  intros Hagree due w'.
  destruct (due_facts t w Hagree) as (Hnd & Hin & _).
  unfold advanceTo. unfold mbind at 1, Js_bind at 1, get at 1.
  unfold mbind at 1, Js_bind at 1. fold due. rewrite fireAll_run by done.
  reflexivity.
Qed.

Lemma pending_after_due t w :
  timersAgree w →
  filter (λ x, tm_id x ∉ tm_id
                 <$> filter (λ tm, (tm_due tm <= t)%Z) (pendingTimeouts w))
         (pendingTimeouts w)
  = filter (λ tm, (t < tm_due tm)%Z) (pendingTimeouts w).
Proof.
  intros (Hnd & _). apply filter_agree. intros x Hx. split.
  - intros Hnot. destruct (decide (t < tm_due x)%Z) as [|Hdue]; [done|].
    exfalso. apply Hnot. apply list_elem_of_fmap_2.
    apply list_elem_of_filter. split; [lia|done].
  - intros Hlate Hin. apply list_elem_of_fmap in Hin as (y & Hy & Hin).
    apply list_elem_of_filter in Hin as [Hdue Hin].
    assert (x = y) as -> by by apply (same_id_same_timeout (pendingTimeouts w)).
    lia.
Qed.

(** After [debounceLocalHandle] the one timeout pending for the signal is
    the new one, and the timeouts of the other signals are as before. *)
Lemma debounced_pending target w :
  timersAgree w →
  pendingFor target (debounced target w)
    = [mkTimeout (nextTimerId w) (now w + debounceMs) target]
  ∧ filter (λ tm, name (tm_target tm) ≠ name target)
           (pendingTimeouts (debounced target w))
    = filter (λ tm, name (tm_target tm) ≠ name target) (pendingTimeouts w).
Proof.
  intros (Hnd & Hpend & Hreg).
  set (kept := match timers w !! name target with
               | Some id => filter (λ tm, tm_id tm ≠ id) (pendingTimeouts w)
               | None => pendingTimeouts w
               end).
  assert (Hsame : ∀ x, x ∈ pendingTimeouts w →
            name (tm_target x) = name target →
            timers w !! name target = Some (tm_id x)).
  { intros x Hx Hname. destruct (Hpend x Hx) as (_ & _ & Hr). by rewrite <- Hname. }
  assert (Hnone : filter (λ tm, name (tm_target tm) = name target) kept = []).
  { apply filter_none. intros x Hx Hname. unfold kept in Hx.
    destruct (timers w !! name target) as [id|] eqn:Hid.
    - apply list_elem_of_filter in Hx as [Hne Hx].
      specialize (Hsame x Hx Hname). by injection Hsame as ->.
    - by specialize (Hsame x Hx Hname). }
  assert (Hothers : filter (λ tm, name (tm_target tm) ≠ name target) kept
                    = filter (λ tm, name (tm_target tm) ≠ name target)
                        (pendingTimeouts w)).
  { unfold kept. destruct (timers w !! name target) as [id|] eqn:Hid; [|done].
    rewrite list_filter_filter. apply filter_agree. intros x Hx.
    split; [by intros [? _]|]. intros Hname. split; [done|].
    intros Hsame'. destruct (Hreg _ _ Hid) as (y & Hy & Hyid & Hyname).
    apply Hname. rewrite <- Hyname. f_equal. f_equal.
    apply (same_id_same_timeout (pendingTimeouts w)); [done..|]. by rewrite Hyid. }
  unfold pendingFor, debounced. cbn [pendingTimeouts]. fold kept.
  rewrite !filter_app, Hnone, Hothers.
  rewrite !filter_cons, !filter_nil. cbn [tm_target].
  rewrite decide_True by done. rewrite decide_False by (intros H; by apply H).
  by rewrite app_nil_r.
Qed.

(** [debounceLocalHandle] for one signal leaves the timeouts of another
    alone. *)
Lemma debounced_pending_other x target w :
  timersAgree w → name x ≠ name target →
  pendingFor target (debounced x w) = pendingFor target w.
Proof.
  intros Hagree Hne.
  destruct (debounced_pending x w Hagree) as [_ Hothers].
  assert (Hvia : ∀ l : list Timeout,
            filter (λ tm, name (tm_target tm) = name target) l
            = filter (λ tm, name (tm_target tm) = name target)
                (filter (λ tm, name (tm_target tm) ≠ name x) l)).
  { intros l. rewrite list_filter_filter. apply filter_agree.
    intros tm _. split; [|by intros [? _]]. intros H. split; [done|].
    intros E. apply Hne. by rewrite <- E. }
  unfold pendingFor. rewrite (Hvia (pendingTimeouts (debounced x w))), Hothers.
  by rewrite <- Hvia.
Qed.

Section TimerTheorems.
Context {host : Host}.

Lemma with_now_sound t w : sound w → sound (with_now t w).
Proof. by intros [? ?]. Qed.

Lemma firedAll_sound l w :
  NoDup (tm_id <$> l) → (∀ tm, tm ∈ l → tm ∈ pendingTimeouts w) →
  sound w → sound (foldl (λ w tm, fired tm w) w l).
Proof.
  intros Hnd Hin [Hagree [Hlh Hsha]]. split; [by apply firedAll_timersAgree|].
  destruct (firedAll_frame l w) as (E1 & E2 & _).
  split; intros ? ?; rewrite ?E1, ?E2; [apply Hlh|apply Hsha].
Qed.

Lemma advanceTo_sound t w : sound w → sound (advanceTo t w).2.
Proof.
  intros Hs. rewrite advanceTo_run by apply Hs. cbn [snd].
  destruct (due_facts t w (proj1 Hs)) as (Hnd & Hin & _).
  by apply with_now_sound, firedAll_sound.
Qed.

(** X8. When time passes to [t], exactly the timeouts due by [t] fire, each
    once, in the order they were set: the callbacks complete normally and
    start one check each, afterwards the pending timeouts are those that
    were pending and are due after [t], in the same order, the timeouts and
    the [timers] map still agree, and the markers and the log are
    untouched. *)
Theorem time_fires_due_timeouts (t : Z) (w : World) :
  sound w →
  completion (advanceTo t) w
  = Normal (handleLocalFlag_call
              <$> (tm_target
                     <$> filter (λ tm, (tm_due tm <= t)%Z) (pendingTimeouts w)))
  ∧ pendingTimeouts (exec (advanceTo t) w)
    = filter (λ tm, (t < tm_due tm)%Z) (pendingTimeouts w)
  ∧ timersAgree (exec (advanceTo t) w)
  ∧ lastGitHubSha (exec (advanceTo t) w) = lastGitHubSha w
  ∧ lastHandled (exec (advanceTo t) w) = lastHandled w
  ∧ effects (exec (advanceTo t) w) = effects w.
Proof.
  intros Hs. pose proof (advanceTo_sound t w Hs) as [Hagree _].
  unfold completion, exec in *.
  rewrite advanceTo_run in * by apply Hs. cbn [fst snd] in *.
  split; [done|].
  destruct (firedAll_frame
              (filter (λ tm, (tm_due tm <= t)%Z) (pendingTimeouts w)) w)
    as (E1 & E2 & E3 & _).
  split; [|by split].
  cbn [with_now pendingTimeouts]. rewrite firedAll_pending.
  apply pending_after_due, Hs.
Qed.

(** X9. A change notification for a signal of the registry, in any state in
    which the timeouts and the [timers] map agree: afterwards exactly one
    timeout is pending for that signal, the new one, due one debounce window
    from now and registered under the signal's name; the timeouts of the
    other signals are as before; the markers and the log are untouched.  A
    notification without a file name, or for a name that is no signal's,
    changes nothing. *)
Theorem watch_event_rearms_signal (target : Target) (w : World) :
  target ∈ TARGETS → timersAgree w →
  let w' := exec (onWatchEvent (Some (name target))) w in
  filter (λ tm, name (tm_target tm) = name target) (pendingTimeouts w')
    = [mkTimeout (nextTimerId w) (now w + debounceMs) target]
  ∧ filter (λ tm, name (tm_target tm) ≠ name target) (pendingTimeouts w')
    = filter (λ tm, name (tm_target tm) ≠ name target) (pendingTimeouts w)
  ∧ timers w' !! name target = Some (nextTimerId w)
  ∧ lastHandled w' = lastHandled w
  ∧ lastGitHubSha w' = lastGitHubSha w
  ∧ effects w' = effects w
  ∧ onWatchEvent None w = (Normal tt, w)
  ∧ ∀ f, Forall (λ t, name t ≠ f) TARGETS →
         onWatchEvent (Some f) w = (Normal tt, w).
Proof.
  intros Ht Hagree w'.
  assert (Hw' : w' = debounced target w)
    by (unfold w', exec; by rewrite onWatchEvent_registry).
  destruct (debounced_pending target w Hagree) as [Hsame Hothers].
  rewrite Hw'. split; [exact Hsame|]. split; [exact Hothers|].
  unfold debounced. cbn [timers lastHandled lastGitHubSha effects].
  rewrite lookup_insert_eq. repeat split; try done.
  intros f Hf. rewrite onWatchEvent_run. f_equal.
  destruct (Str.truthy f); [|done].
  destruct (List.find (λ t, String.eqb (name t) f) TARGETS) as [x|] eqn:Hfind;
    [|done].
  apply registry_find_Some in Hfind as [Hin Hname].
  eapply Forall_forall in Hf; [|exact Hin]. done.
Qed.

End TimerTheorems.

(* ===================================================================== *)
(** ** The whole watcher *)
(* ===================================================================== *)

Section SystemInvariant.
Context {host : Host}.

Lemma or_zero_nonneg (w : World) p :
  markersOfRegistry w → (0 <= or_zero (lastHandled w !! p))%Q.
Proof.
  intros [Hlh _]. destruct (lastHandled w !! p) as [v|] eqn:Hv; [|done].
  destruct (Hlh p v Hv) as [Hpos _].
  rewrite (or_zero_Qeq v). by apply Qlt_le_weak.
Qed.

(** The arrival of an answer leaves the runtime and the fingerprints
    alone. *)
Lemma localStep_runtime ev w tasks w' tasks' :
  localStep ev (w, tasks) = Some (w', tasks') →
  timers w' = timers w
  ∧ nextTimerId w' = nextTimerId w
  ∧ pendingTimeouts w' = pendingTimeouts w
  ∧ now w' = now w
  ∧ lastGitHubSha w' = lastGitHubSha w.
Proof.
  intros Hstep. destruct ev as [x| |i r|i r].
  - by injection Hstep as <- <-.
  - by injection Hstep as <- <-.
  - apply localStep_stat in Hstep as (x & Hi & Heq).
    destruct r as [m|e]; [destruct (Qle_bool m _)|destruct (is_ENOENT e)];
      by injection Heq as -> ->.
  - apply localStep_read in Hstep as (x & Hi & Heq). by injection Heq as -> ->.
Qed.

Lemma timersAgree_same_runtime' w w' :
  timers w' = timers w → nextTimerId w' = nextTimerId w →
  pendingTimeouts w' = pendingTimeouts w →
  timersAgree w → timersAgree w'.
Proof. apply timersAgree_same_runtime. Qed.

Lemma localStep_sound ev w tasks w' tasks' :
  localStep ev (w, tasks) = Some (w', tasks') →
  match ev with StartCheck x => x ∈ TARGETS | _ => True end →
  sound w → ofRegistry tasks → sound w' ∧ ofRegistry tasks'.
Proof.
  intros Hstep Hev [Hagree Hm] Hreg.
  destruct (localStep_runtime ev w tasks w' tasks' Hstep)
    as (E1 & E2 & E3 & _ & E5).
  assert (Hagree' : timersAgree w') by by apply (timersAgree_same_runtime w).
  pose proof Hm as [Hlh Hsha].
  destruct ev as [x| |i r|i r].
  - injection Hstep as <- <-. split; [done|].
    apply ofRegistry_app; [done|]. constructor; [|done]. by intros y [= <-].
  - injection Hstep as <- <-. split; [done|].
    apply ofRegistry_app; [done|apply ofRegistry_scan].
  - apply localStep_stat in Hstep as (x & Hi & Heq).
    assert (Hx : x ∈ TARGETS) by (by eapply ofRegistry_lookup).
    pose proof (or_zero_nonneg w (localPath x) Hm) as Hnn.
    assert (Hover : ofRegistry (<[i := Over]> tasks))
      by (apply ofRegistry_insert; [done|]; intros y [=]).
    destruct r as [m|e].
    + destruct (Qle_bool m _) eqn:Hcmp; injection Heq as -> ->.
      * by split.
      * apply Qle_bool_false_lt in Hcmp. split.
        -- split; [done|]. split; [|done]. simpl.
           intros p v Hv. destruct (decide (p = localPath x)) as [->|Hne].
           ++ rewrite lookup_insert_eq in Hv. injection Hv as <-.
              split; [by eapply Qle_lt_trans|]. by exists x.
           ++ rewrite lookup_insert_ne in Hv by done. by apply Hlh.
        -- apply ofRegistry_insert; [done|]. by intros y [= <-].
    + destruct (is_ENOENT e); injection Heq as -> ->; by split.
  - apply localStep_read in Hstep as (x & Hi & Heq). injection Heq as -> ->.
    split; [by split|]. apply ofRegistry_insert; [done|]. intros y [=].
Qed.

Lemma pollTarget_sound net target w :
  target ∈ TARGETS → sound w → sound (exec (pollTarget net target) w).
Proof.
  intros Ht [Hagree [Hlh Hsha]].
  destruct (pollTarget_frame net target w) as (E1 & E2 & _ & E4 & E5).
  split; [by apply (timersAgree_same_runtime w)|].
  split; [by rewrite E1|].
  rewrite pollTarget_lastGitHubSha.
  destruct (fetchResult _) as [f|]; [|done].
  destruct (strictEq _ _); [done|].
  intros k s Hk. destruct (decide (k = name target)) as [->|Hne].
  - by exists target.
  - rewrite lookup_insert_ne in Hk by done. by apply (Hsha k s).
Qed.

Lemma onWatchEvent_sound filename w :
  sound w → sound (exec (onWatchEvent filename) w).
Proof.
  intros Hs. unfold exec. rewrite onWatchEvent_run. cbn [snd].
  destruct filename as [f|]; [|done].
  destruct (Str.truthy f); [|done].
  destruct (List.find (λ t, String.eqb (name t) f) TARGETS) as [target|]
    eqn:Hfind; [|done].
  apply registry_find_Some in Hfind as [Hin _].
  destruct Hs as [Ht Hm]. split; [by apply debounced_timersAgree|exact Hm].
Qed.

(** The checks that timeouts start are checks of signals of the
    registry. *)
Lemma started_ofRegistry t w :
  sound w → ofRegistry (startedBy (advanceTo t w).1).
Proof.
  intros [Hagree _]. rewrite advanceTo_run by done. cbn [fst startedBy].
  destruct (due_facts t w Hagree) as (_ & _ & _ & Hreg).
  unfold ofRegistry. apply Forall_fmap, Forall_fmap.
  eapply Forall_impl; [exact Hreg|]. by intros tm Hin y [= <-].
Qed.

Lemma sysStep_sound ev st st' :
  sysStep ev st = Some st' → sysSound st → sysSound st'.
Proof.
  intros Hstep (Hs & Hchecks & Hpolls).
  destruct ev as [t filename|t|t|i r|i r| |i out]; cbn [sysStep] in Hstep.
  - injection Hstep as <-. split; [|split]; simpl; [| |done].
    + by apply onWatchEvent_sound, advanceTo_sound.
    + apply ofRegistry_app; [done|by apply started_ofRegistry].
  - injection Hstep as <-. split; [|split]; simpl; [| |done].
    + by apply advanceTo_sound.
    + apply ofRegistry_app; [done|].
      apply ofRegistry_app; [by apply started_ofRegistry|apply ofRegistry_scan].
  - injection Hstep as <-. split; [|split]; simpl; [| |done].
    + by apply advanceTo_sound.
    + apply ofRegistry_app; [done|by apply started_ofRegistry].
  - destruct (localStep _ _) as [[w' tasks']|] eqn:Hl; [|discriminate].
    injection Hstep as <-.
    destruct (localStep_sound _ _ _ _ _ Hl I Hs Hchecks). by split.
  - destruct (localStep _ _) as [[w' tasks']|] eqn:Hl; [|discriminate].
    injection Hstep as <-.
    destruct (localStep_sound _ _ _ _ _ Hl I Hs Hchecks). by split.
  - injection Hstep as <-. split; [done|]. split; [done|]. simpl.
    apply Forall_app. split; [done|]. constructor; [|done].
    apply registry_all_in.
  - destruct (remoteStep _ _) as [rs|] eqn:Hr; [|discriminate].
    injection Hstep as <-. simpl.
    pose proof (remoteStep_polls _ _ _ Hr Hpolls) as Hpolls'.
    split; [|by split].
    cbn [remoteStep rs_polls rs_world] in Hr.
    destruct (sys_polls st !! i) as [[|x rest]|] eqn:Hi; try discriminate.
    injection Hr as <-. simpl. apply pollTarget_sound; [|done].
    eapply Forall_lookup_1 in Hpolls; [|exact Hi].
    by apply Forall_cons in Hpolls as [? _].
Qed.

Lemma sysRun_sound evs st st' :
  sysRun evs st = Some st' → sysSound st → sysSound st'.
Proof.
  revert st. induction evs as [|ev evs IH]; intros st Hrun Hs; simpl in Hrun.
  - by injection Hrun as <-.
  - destruct (sysStep ev st) as [st1|] eqn:Hstep; [|discriminate].
    apply (IH st1 Hrun). by eapply sysStep_sound.
Qed.

Lemma initialWorld_sound : sound initialWorld.
Proof.
  split; [split; [constructor|split]|split]; simpl.
  - intros tm H. by apply elem_of_nil in H.
  - intros key id H. by rewrite lookup_empty in H.
  - intros p v H. by rewrite lookup_empty in H.
  - intros k s H. by rewrite lookup_empty in H.
Qed.

Lemma initialSys_sound : sysSound initialSys.
Proof. split; [apply initialWorld_sound|]. split; constructor. Qed.

(** X6. In every state the watcher reaches from its start, whatever the
    change notifications, scans, polls and the passing of time, and whatever
    the file system and the network answer, and however the checks and the
    polls interleave: every callback of the local channel completes normally
    there (the watch callback, the timeouts, both segments of a check); the
    pending timeouts have distinct handles and belong to signals of the
    registry; a timeout is pending for a signal exactly when the [timers]
    map holds its handle under the signal's name; so at most one timeout is
    pending per signal. *)
Theorem timers_agree_in_every_state (evs : list SysEvent) (st : Sys) :
  sysRun evs initialSys = Some st →
  let w := sys_world st in
  ((∀ filename, completion (onWatchEvent filename) w = Normal tt)
   ∧ (∀ t, ∃ started, completion (advanceTo t) w = Normal started)
   ∧ (∀ target r, ∃ b, completion (resumeAfterStat target r) w = Normal b)
   ∧ (∀ target r, completion (resumeAfterRead target r) w = Normal tt))
  ∧ NoDup (tm_id <$> pendingTimeouts w)
  ∧ (∀ tm, tm ∈ pendingTimeouts w →
       tm_target tm ∈ TARGETS
       ∧ timers w !! name (tm_target tm) = Some (tm_id tm))
  ∧ (∀ key id, timers w !! key = Some id →
       ∃ tm, tm ∈ pendingTimeouts w ∧ tm_id tm = id
             ∧ name (tm_target tm) = key)
  ∧ (∀ tm1 tm2, tm1 ∈ pendingTimeouts w → tm2 ∈ pendingTimeouts w →
       name (tm_target tm1) = name (tm_target tm2) → tm1 = tm2).
Proof.
  intros Hrun w.
  destruct (sysRun_sound evs initialSys st Hrun initialSys_sound)
    as ((Hagree & _) & _).
  pose proof Hagree as (Hnd & Hpend & Hreg). fold w in Hnd, Hpend, Hreg, Hagree.
  split; [|split; [done|]; split; [|split; [done|]]].
  - split; [|split; [|split]].
    + intros filename. unfold completion. by rewrite onWatchEvent_run.
    + intros t. eexists. unfold completion. by rewrite advanceTo_run.
    + intros target r. unfold completion. rewrite resumeAfterStat_run.
      destruct r as [m|e];
        [destruct (Qle_bool m _)|destruct (is_ENOENT e)]; by eexists.
    + intros target r. unfold completion. by rewrite resumeAfterRead_run.
  - intros tm Hin. by destruct (Hpend tm Hin) as (_ & ? & ?).
  - intros tm1 tm2 H1 H2 Hname.
    apply (same_id_same_timeout (pendingTimeouts w)); [done..|].
    destruct (Hpend tm1 H1) as (_ & _ & E1).
    destruct (Hpend tm2 H2) as (_ & _ & E2).
    rewrite Hname, E2 in E1. by injection E1.
Qed.

(** X7. In every state the watcher reaches from its start, the two marker
    maps hold entries for the signals of the registry only, [lastHandled]
    under their paths and [lastGitHubSha] under their names, and every
    stored time stamp is positive (so [lastHandled.get(filePath) || 0] reads
    a stored time stamp as it is); the checks and the polls in flight are
    checks and polls of signals of the registry. *)
Theorem markers_of_registry_in_every_state (evs : list SysEvent) (st : Sys) :
  sysRun evs initialSys = Some st →
  let w := sys_world st in
  (∀ p v, lastHandled w !! p = Some v →
     (0 < v)%Q ∧ (or_zero (Some v) == v)%Q
     ∧ ∃ t, t ∈ TARGETS ∧ p = localPath t)
  ∧ (∀ k s, lastGitHubSha w !! k = Some s → ∃ t, t ∈ TARGETS ∧ k = name t)
  ∧ ofRegistry (sys_checks st)
  ∧ Forall (Forall (λ x, x ∈ TARGETS)) (sys_polls st).
Proof.
  intros Hrun w.
  destruct (sysRun_sound evs initialSys st Hrun initialSys_sound)
    as ((_ & Hlh & Hsha) & Hchecks & Hpolls).
  fold w in Hlh, Hsha. split; [|by split].
  intros p v Hv. destruct (Hlh p v Hv) as [Hpos Ht].
  split; [done|]. split; [apply or_zero_Qeq|done].
Qed.

End SystemInvariant.

Lemma exampleRun_runs :
  let st := default initialSys (sysRun (host := exampleHost) exampleRun initialSys) in
  sysRun (host := exampleHost) exampleRun initialSys = Some st.
Proof. vm_compute. reflexivity. Qed.

Lemma timers_agree_in_every_state_witness :
  let st := default initialSys (sysRun (host := exampleHost) exampleRun initialSys) in
  (tm_due <$> pendingTimeouts (sys_world st)) = [5850%Z]
  ∧ NoDup (tm_id <$> pendingTimeouts (sys_world st)).
Proof.
  intros st. split; [vm_compute; reflexivity|].
  by destruct (timers_agree_in_every_state (host := exampleHost) exampleRun st
                 exampleRun_runs) as (_ & Hnd & _).
Defined.

Lemma markers_of_registry_in_every_state_witness :
  let st := default initialSys (sysRun (host := exampleHost) exampleRun initialSys) in
  lastHandled (sys_world st) !! "/repo/.handoff/notify-cascade" = Some 1400%Q
  ∧ ∃ t, t ∈ TARGETS ∧ "/repo/.handoff/notify-cascade"
                        = localPath (host := exampleHost) t.
Proof.
  intros st.
  assert (H : lastHandled (sys_world st) !! "/repo/.handoff/notify-cascade"
              = Some 1400%Q) by (vm_compute; reflexivity).
  split; [exact H|].
  destruct (markers_of_registry_in_every_state (host := exampleHost) exampleRun
              st exampleRun_runs) as (Hlh & _).
  by destruct (Hlh _ _ H) as (_ & _ & Ht).
Defined.

Lemma time_fires_due_timeouts_witness :
  let w := exec (onWatchEvent (Some "notify-replit"))
             (with_now 1500
                (exec (onWatchEvent (Some "notify-cascade"))
                   (with_now 1000 initialWorld))) in
  (tm_due <$> pendingTimeouts w) = [1750; 2250]%Z
  ∧ (tm_due <$> pendingTimeouts (exec (advanceTo 2000%Z) w)) = [2250%Z]
  ∧ completion (advanceTo 2000%Z) w = Normal [AwaitStat cascade].
Proof.
  intros w.
  assert (Hp : (tm_due <$> pendingTimeouts w) = [1750; 2250]%Z)
    by (vm_compute; reflexivity).
  split; [exact Hp|].
  assert (Hs : sound (host := exampleHost) w).
  { apply onWatchEvent_sound, with_now_sound, onWatchEvent_sound, with_now_sound,
      initialWorld_sound. }
  destruct (time_fires_due_timeouts (host := exampleHost) 2000%Z w Hs)
    as (-> & -> & _).
  split; vm_compute; reflexivity.
Defined.

Lemma watch_event_rearms_signal_witness :
  let w := exec (onWatchEvent (Some "notify-replit"))
             (with_now 1500
                (exec (onWatchEvent (Some "notify-cascade"))
                   (with_now 1000 initialWorld))) in
  let w' := exec (onWatchEvent (Some "notify-cascade")) w in
  filter (λ tm, name (tm_target tm) = "notify-cascade") (pendingTimeouts w')
  = [mkTimeout 2 2250 cascade].
Proof.
  intros w w'.
  assert (Hs : sound (host := exampleHost) w).
  { apply onWatchEvent_sound, with_now_sound, onWatchEvent_sound, with_now_sound,
      initialWorld_sound. }
  destruct (watch_event_rearms_signal cascade w cascade_in (proj1 Hs)) as (Hone & _).
  exact Hone.
Defined.

(* ===================================================================== *)
(** ** The debounce window *)
(* ===================================================================== *)

Lemma filter_fmap {A B} (f : A → B) (P : B → Prop) `{∀ y, Decision (P y)}
    (l : list A) :
  filter P (f <$> l) = f <$> filter (λ x, P (f x)) l.
Proof.
  induction l as [|a l IH]; [done|].
  rewrite fmap_cons, !filter_cons.
  destruct (decide (P (f a))); rewrite ?fmap_cons; by f_equal.
Qed.

Lemma filter_comm {A} (P Q : A → Prop) `{∀ x, Decision (P x)}
    `{∀ x, Decision (Q x)} (l : list A) :
  filter P (filter Q l) = filter Q (filter P l).
Proof.
  rewrite !list_filter_filter. apply filter_agree. intros x _. tauto.
Qed.

(** Among the pending timeouts, those of the signal are those whose target
    is the signal's entry of the registry. *)
Lemma pendingFor_target target w :
  target ∈ TARGETS → timersAgree w →
  filter (λ tm, Some (tm_target tm) = Some target) (pendingTimeouts w)
  = pendingFor target w.
Proof.
  intros Ht (_ & Hpend & _). apply filter_agree. intros tm Hin.
  destruct (Hpend tm Hin) as (_ & Hreg & _). split.
  - by intros [= ->].
  - intros Hname. f_equal. by apply registry_name_inj.
Qed.

Lemma pendingFor_elem target w tm0 :
  target ∈ TARGETS → timersAgree w → pendingFor target w = [tm0] →
  tm_target tm0 = target.
Proof.
  intros Ht (_ & Hpend & _) Hp.
  assert (Hin : tm0 ∈ pendingFor target w) by (rewrite Hp; by left).
  apply list_elem_of_filter in Hin as [Hname Hin].
  destruct (Hpend tm0 Hin) as (_ & Hreg & _). by apply registry_name_inj.
Qed.

(** The checks of the signal among those that the timeouts due by [t]
    start. *)
Lemma started_for target t w :
  target ∈ TARGETS → timersAgree w →
  filter (λ c, taskTarget c = Some target) (startedBy (advanceTo t w).1)
  = handleLocalFlag_call
      <$> (tm_target
             <$> filter (λ tm, (tm_due tm <= t)%Z) (pendingFor target w)).
Proof.
  intros Ht Hagree. rewrite advanceTo_run by done. cbn [fst startedBy].
  rewrite !filter_fmap. do 2 f_equal.
  change (λ x, taskTarget (handleLocalFlag_call (tm_target x)) = Some target)
    with (λ x, Some (tm_target x) = Some target).
  rewrite filter_comm. by rewrite pendingFor_target.
Qed.

Lemma pendingFor_after target t w :
  timersAgree w →
  pendingFor target (advanceTo t w).2
  = filter (λ tm, (t < tm_due tm)%Z) (pendingFor target w).
Proof.
  intros Hagree. rewrite advanceTo_run by done. cbn [snd].
  unfold pendingFor. cbn [with_now pendingTimeouts].
  rewrite firedAll_pending, pending_after_due by done.
  apply filter_comm.
Qed.

Lemma advance_now t w :
  timersAgree w → (now w <= t)%Z → now (advanceTo t w).2 = t.
Proof.
  intros Hagree Hnow. rewrite advanceTo_run by done. cbn [snd with_now now].
  destruct (due_facts t w Hagree) as (_ & _ & Hdue & _).
  pose proof (firedAll_now _ w t Hnow Hdue). lia.
Qed.

Section Burst.
Context {host : Host}.

(** A change notification for the signal opens a burst. *)
Lemma burst_opens target st0 t0 :
  target ∈ TARGETS → sysSound st0 → (now (sys_world st0) <= t0)%Z →
  ∃ sa, sysStep (WatchAt t0 (Some (name target))) st0 = Some sa
        ∧ midBurst target sa t0 t0 sa.
Proof.
  intros Ht Hs Hnow. eexists. split; [reflexivity|].
  pose proof (sysStep_sound (WatchAt t0 (Some (name target))) st0 _ eq_refl Hs)
    as Hs'.
  split; [exact Hs'|]. cbn [sys_world].
  destruct Hs as ([Hagree Hm] & _).
  pose proof (advanceTo_sound t0 _ (conj Hagree Hm)) as [Hagree1 _].
  unfold exec. rewrite onWatchEvent_registry by done. cbn [snd].
  split; [by apply advance_now|].
  split; [unfold debounceMs; lia|]. split; [|done].
  eexists. destruct (debounced_pending target _ Hagree1) as [-> _].
  by rewrite advance_now.
Qed.

(** What the callback of [fs.watch] does to the timeout of the signal. *)
Lemma watch_keeps_or_rearms target filename w tm0 :
  target ∈ TARGETS → timersAgree w → pendingFor target w = [tm0] →
  pendingFor target (exec (onWatchEvent filename) w)
  = (if match filename with
        | Some f => String.eqb f (name target)
        | None => false
        end
     then [mkTimeout (nextTimerId w) (now w + debounceMs) target]
     else [tm0])
  ∧ now (exec (onWatchEvent filename) w) = now w.
Proof.
  intros Ht Hagree Hp. unfold exec.
  destruct filename as [f|]; [|by rewrite onWatchEvent_run].
  destruct (String.eqb f (name target)) eqn:E.
  - apply String.eqb_eq in E as ->. rewrite onWatchEvent_registry by done.
    cbn [snd]. by destruct (debounced_pending target w Hagree) as [-> _].
  - apply String.eqb_neq in E. rewrite onWatchEvent_run. cbn [snd].
    destruct (Str.truthy f); [|done].
    destruct (List.find _ TARGETS) as [x|] eqn:Hfind; [|done].
    apply registry_find_Some in Hfind as [Hx Hname].
    rewrite debounced_pending_other; [done|done|]. by rewrite Hname.
Qed.

Lemma sysStep_midBurst target st0 cur last ev st st' :
  target ∈ TARGETS →
  sysStep ev st = Some st' →
  match eventTime ev with
  | Some t => (cur <= t < last + debounceMs)%Z
  | None => True
  end →
  midBurst target st0 cur last st →
  midBurst target st0
    (match eventTime ev with Some t => t | None => cur end)
    (match eventTime ev with
     | Some t => if notifies (name target) ev then t else last
     | None => last
     end) st'.
Proof.
  intros Ht Hstep Hev (Hs & Hnow & Hwin & (id & Hp) & Hdeb).
  pose proof (sysStep_sound ev st st' Hstep Hs) as Hs'.
  split; [exact Hs'|].
  destruct Hs as ([Hagree Hm] & _).
  set (tm0 := mkTimeout id (last + debounceMs) target) in *.
  assert (Htimed : ∀ t, (cur <= t < last + debounceMs)%Z →
            pendingFor target (advanceTo t (sys_world st)).2 = [tm0]
            ∧ now (advanceTo t (sys_world st)).2 = t
            ∧ timersAgree (advanceTo t (sys_world st)).2
            ∧ filter (λ c, taskTarget c = Some target)
                     (startedBy (advanceTo t (sys_world st)).1) = []).
  { intros t Hin. split; [|split; [|split]].
    - rewrite pendingFor_after, Hp by done.
      rewrite filter_cons, decide_True by (simpl; lia). done.
    - apply advance_now; [done|lia].
    - by apply (advanceTo_sound t _ (conj Hagree Hm)).
    - rewrite started_for, Hp by done.
      rewrite filter_cons, decide_False by (simpl; lia). done. }
  destruct ev as [t filename|t|t|i r|i r| |i out];
    cbn [sysStep eventTime notifies] in *.
  - injection Hstep as <-. cbn [sys_world].
    destruct (Htimed t Hev) as (Hp1 & Hnow1 & Hagree1 & Hnone).
    destruct (watch_keeps_or_rearms target filename _ tm0 Ht Hagree1 Hp1)
      as [Hp2 Hnow2].
    rewrite Hnow2, Hnow1. split; [done|].
    unfold debouncedFor. cbn [sys_debounced].
    rewrite filter_app, Hnone, app_nil_r, Hp2, Hnow1.
    destruct filename as [f|]; [destruct (String.eqb f (name target))|].
    + split; [unfold debounceMs; lia|]. split; [by eexists|done].
    + split; [lia|]. split; [by exists id|done].
    + split; [lia|]. split; [by exists id|done].
  - injection Hstep as <-. cbn [sys_world].
    destruct (Htimed t Hev) as (Hp1 & Hnow1 & _ & Hnone).
    split; [done|]. split; [lia|]. split; [by exists id|].
    unfold debouncedFor. cbn [sys_debounced].
    by rewrite filter_app, Hnone, app_nil_r.
  - injection Hstep as <-. cbn [sys_world].
    destruct (Htimed t Hev) as (Hp1 & Hnow1 & _ & Hnone).
    split; [done|]. split; [lia|]. split; [by exists id|].
    unfold debouncedFor. cbn [sys_debounced].
    by rewrite filter_app, Hnone, app_nil_r.
  - destruct (localStep _ _) as [[w' tasks']|] eqn:Hl; [|discriminate].
    injection Hstep as <-. cbn [sys_world fst].
    destruct (localStep_runtime _ _ _ _ _ Hl) as (_ & _ & E3 & E4 & _).
    unfold pendingFor. rewrite E3, E4. split; [done|]. split; [done|].
    split; [by exists id|done].
  - destruct (localStep _ _) as [[w' tasks']|] eqn:Hl; [|discriminate].
    injection Hstep as <-. cbn [sys_world fst].
    destruct (localStep_runtime _ _ _ _ _ Hl) as (_ & _ & E3 & E4 & _).
    unfold pendingFor. rewrite E3, E4. split; [done|]. split; [done|].
    split; [by exists id|done].
  - injection Hstep as <-. cbn [sys_world]. split; [done|]. split; [done|].
    split; [by exists id|done].
  - destruct (remoteStep _ _) as [rs|] eqn:Hr; [|discriminate].
    injection Hstep as <-. cbn [sys_world].
    cbn [remoteStep rs_polls rs_world] in Hr.
    destruct (sys_polls st !! i) as [[|x rest]|]; try discriminate.
    injection Hr as <-. cbn [rs_world].
    destruct (pollTarget_frame (λ _, out) x (sys_world st))
      as (_ & _ & E3 & _ & E5).
    unfold pendingFor. rewrite E3, E5. split; [done|]. split; [done|].
    split; [by exists id|done].
Qed.

Lemma sysRun_midBurst target st0 evs :
  target ∈ TARGETS →
  ∀ cur last st st',
    sysRun evs st = Some st' →
    inBurst (name target) cur last evs →
    midBurst target st0 cur last st →
    ∃ cur', midBurst target st0 cur' (lastNotified (name target) last evs) st'.
Proof.
  intros Ht. induction evs as [|ev evs IH]; intros cur last st st' Hrun Hin Hinv;
    simpl in Hrun.
  - injection Hrun as <-. by exists cur.
  - destruct (sysStep ev st) as [st1|] eqn:Hstep; [|discriminate].
    cbn [inBurst lastNotified] in *.
    pose proof (sysStep_midBurst target st0 cur last ev st st1 Ht Hstep) as H1.
    destruct (eventTime ev) as [t|].
    + destruct Hin as [Hwin Hin]. eapply IH; [exact Hrun|exact Hin|].
      by apply H1.
    + eapply IH; [exact Hrun|exact Hin|]. by apply H1.
Qed.

(** Once the window has passed, the timeout of the signal fires. *)
Lemma window_passed target st0 cur last ev T st st' :
  target ∈ TARGETS →
  midBurst target st0 cur last st →
  eventTime ev = Some T → (last + debounceMs <= T)%Z →
  sysStep ev st = Some st' →
  debouncedFor target st' = debouncedFor target st0 ++ [AwaitStat target]
  ∧ (∃ i, (List.length (sys_checks st) <= i)%nat
          ∧ sys_checks st' !! i = Some (AwaitStat target))
  ∧ (notifies (name target) ev = false → pendingFor target (sys_world st') = []).
Proof.
  intros Ht (Hs & Hnow & Hwin & (id & Hp) & Hdeb) Htime HT Hstep.
  destruct Hs as ([Hagree Hm] & _).
  set (tm0 := mkTimeout id (last + debounceMs) target) in *.
  assert (Hstarted :
    filter (λ c, taskTarget c = Some target)
           (startedBy (advanceTo T (sys_world st)).1) = [AwaitStat target]).
  { rewrite started_for, Hp by done.
    rewrite filter_cons, decide_True by (simpl; lia). done. }
  assert (Hgone : pendingFor target (advanceTo T (sys_world st)).2 = []).
  { rewrite pendingFor_after, Hp by done.
    rewrite filter_cons, decide_False by (simpl; lia). done. }
  assert (Hin : AwaitStat target ∈ startedBy (advanceTo T (sys_world st)).1).
  { assert (H : AwaitStat target
                ∈ filter (λ c, taskTarget c = Some target)
                    (startedBy (advanceTo T (sys_world st)).1))
      by (rewrite Hstarted; by left).
    by apply list_elem_of_filter in H as [_ ?]. }
  apply list_elem_of_lookup in Hin as [j Hj].
  assert (Htask : ∀ extra, ∃ i, (List.length (sys_checks st) <= i)%nat
            ∧ (sys_checks st ++ startedBy (advanceTo T (sys_world st)).1 ++ extra)
                !! i = Some (AwaitStat target)).
  { intros extra. exists (List.length (sys_checks st) + j). split; [lia|].
    rewrite lookup_app_r by lia.
    replace (List.length (sys_checks st) + j - List.length (sys_checks st)) with j
      by lia.
    by apply lookup_app_l_Some. }
  destruct ev as [t filename|t|t|i r|i r| |i out]; try discriminate;
    injection Htime as ->; cbn [sysStep] in Hstep; injection Hstep as <-;
    unfold debouncedFor; cbn [sys_debounced sys_checks sys_world notifies];
    rewrite filter_app, Hstarted; fold (debouncedFor target st); rewrite Hdeb.
  - split; [done|]. split.
    + destruct (Htask []) as (i & Hle & Hi). exists i. split; [done|].
      by rewrite app_nil_r in Hi.
    + intros Hnot.
      pose proof (advanceTo_sound T _ (conj Hagree Hm)) as [Hagree1 _].
      unfold exec. rewrite onWatchEvent_run. cbn [snd].
      destruct filename as [f|]; [|done].
      destruct (Str.truthy f); [|done].
      destruct (List.find _ TARGETS) as [x|] eqn:Hfind; [|done].
      apply registry_find_Some in Hfind as [Hx Hname].
      rewrite debounced_pending_other; [done|done|].
      rewrite Hname. by apply String.eqb_neq.
  - split; [done|]. split; [apply Htask|done].
  - split; [done|]. split; [|done].
    destruct (Htask []) as (i & Hle & Hi). exists i. split; [done|].
    by rewrite app_nil_r in Hi.
Qed.

(** What the answers do to a check of the signal. *)
Lemma check_answers target st i :
  (sys_checks st !! i = Some (AwaitStat target) →
   ∀ r, ∃ st', sysStep (StatAnswer i r) st = Some st'
     ∧ notifications (effects (sys_world st'))
       = notifications (effects (sys_world st))
     ∧ sys_checks st' !! i
       = Some match r with
              | StatOk m =>
                  if Qle_bool m (or_zero (lastHandled (sys_world st)
                                            !! localPath target))
                  then Over else AwaitRead target
              | StatErr _ => Over
              end)
  ∧ (sys_checks st !! i = Some (AwaitRead target) →
     ∀ r, ∃ st', sysStep (ReadAnswer i r) st = Some st'
       ∧ notifications (effects (sys_world st'))
         = notifications (effects (sys_world st))
           ++ [(agent target,
                match r with ReadOk text => Str.trim text | ReadErr _ => "" end)]
       ∧ sys_checks st' !! i = Some Over).
Proof.
  split; intros Hi r.
  - pose proof (lookup_lt_Some _ _ _ Hi) as Hlt.
    cbn [sysStep localStep]. rewrite Hi, resumeAfterStat_run.
    destruct r as [m|e];
      [destruct (Qle_bool m _)|destruct (is_ENOENT e)];
      eexists; (split; [reflexivity|]); cbn [sys_world sys_checks fst snd];
      rewrite list_lookup_insert_eq by done; (split; [|done]);
      simpl; rewrite ?notifications_app; simpl; by rewrite ?app_nil_r.
  - pose proof (lookup_lt_Some _ _ _ Hi) as Hlt.
    cbn [sysStep localStep]. rewrite Hi. unfold exec.
    rewrite resumeAfterRead_run.
    eexists. split; [reflexivity|]. cbn [sys_world sys_checks fst snd].
    rewrite list_lookup_insert_eq by done. split; [|done].
    simpl. by rewrite notifications_app, notifications_dispatch.
Qed.

(** C5, as amended.  Change notifications for one signal of the registry
    arrive, each less than the debounce window after the one before, while
    the watcher goes on with whatever else it does (scans, polls, answers to
    checks and fetches, notifications and timeouts of the other signal).
    Every notification cancels the pending timeout of the signal and sets a
    new one: during the burst no timeout starts a check of the signal, and
    at its end one timeout is pending for it, due one window after the last
    notification.  Once that window has passed, the timeout fires and starts
    exactly one check of the signal.  That check dispatches exactly one
    notification, whose context is the content it reads, when its stat finds
    the marker with a modification time above the stored one, and nothing
    otherwise. *)
Theorem debounce_burst_one_check (target : Target) (st0 st1 : Sys) (t0 : Z)
    (evs : list SysEvent) :
  target ∈ TARGETS →
  sysSound st0 →
  (now (sys_world st0) <= t0)%Z →
  inBurst (name target) t0 t0 evs →
  sysRun (WatchAt t0 (Some (name target)) :: evs) st0 = Some st1 →
  let tN := lastNotified (name target) t0 evs in
  ∃ sa, sysStep (WatchAt t0 (Some (name target))) st0 = Some sa
    ∧ sysRun evs sa = Some st1
    ∧ debouncedFor target st1 = debouncedFor target sa
    ∧ (∃ id, pendingFor target (sys_world st1)
             = [mkTimeout id (tN + debounceMs) target])
    ∧ (∀ ev T st2,
         eventTime ev = Some T → (tN + debounceMs <= T)%Z →
         sysStep ev st1 = Some st2 →
         debouncedFor target st2 = debouncedFor target sa ++ [AwaitStat target]
         ∧ (∃ i, (List.length (sys_checks st1) <= i)%nat
                 ∧ sys_checks st2 !! i = Some (AwaitStat target))
         ∧ (notifies (name target) ev = false →
            pendingFor target (sys_world st2) = []))
    ∧ (∀ st i,
         (sys_checks st !! i = Some (AwaitStat target) →
          ∀ r, ∃ st', sysStep (StatAnswer i r) st = Some st'
            ∧ notifications (effects (sys_world st'))
              = notifications (effects (sys_world st))
            ∧ sys_checks st' !! i
              = Some match r with
                     | StatOk m =>
                         if Qle_bool m (or_zero (lastHandled (sys_world st)
                                                   !! localPath target))
                         then Over else AwaitRead target
                     | StatErr _ => Over
                     end)
         ∧ (sys_checks st !! i = Some (AwaitRead target) →
            ∀ r, ∃ st', sysStep (ReadAnswer i r) st = Some st'
              ∧ notifications (effects (sys_world st'))
                = notifications (effects (sys_world st))
                  ++ [(agent target,
                       match r with
                       | ReadOk text => Str.trim text
                       | ReadErr _ => ""
                       end)]
              ∧ sys_checks st' !! i = Some Over)).
Proof.
  intros Ht Hs Hnow Hin Hrun tN.
  destruct (burst_opens target st0 t0 Ht Hs Hnow) as (sa & Hfirst & Hopen).
  exists sa. split; [exact Hfirst|].
  cbn [sysRun] in Hrun. rewrite Hfirst in Hrun. split; [exact Hrun|].
  destruct (sysRun_midBurst target sa evs Ht t0 t0 sa st1 Hrun Hin Hopen)
    as (cur & Hmid).
  pose proof Hmid as (_ & _ & _ & Hp & Hdeb).
  split; [exact Hdeb|]. split; [exact Hp|]. split.
  - intros ev T st2 Htime HT Hstep.
    by apply (window_passed target sa cur tN ev T st1 st2).
  - apply check_answers.
Qed.

End Burst.

Lemma debounce_burst_one_check_witness :
  let evs := WatchAt 1000 (Some "notify-cascade") :: burstRun in
  let st1 := default initialSys (sysRun (host := exampleHost) evs initialSys) in
  sysRun (host := exampleHost) evs initialSys = Some st1
  ∧ notifications (effects (sys_world st1)) = [("Cascade", "ping")]
  ∧ debouncedFor cascade st1 = []
  ∧ (∃ id, pendingFor cascade (sys_world st1) = [mkTimeout id 2150 cascade])
  ∧ ∀ st2, sysStep (host := exampleHost) (PassTo 2150) st1 = Some st2 →
           debouncedFor cascade st2 = [AwaitStat cascade].
Proof.
  intros evs st1.
  assert (Hrun : sysRun (host := exampleHost) evs initialSys = Some st1)
    by (vm_compute; reflexivity).
  split; [exact Hrun|]. split; [vm_compute; reflexivity|].
  destruct (debounce_burst_one_check (host := exampleHost) cascade initialSys
              st1 1000 burstRun cascade_in initialSys_sound)
    as (sa & Hfirst & _ & Hdeb & Hp & Hfire & _).
  - simpl. lia.
  - simpl. unfold debounceMs. lia.
  - exact Hrun.
  - injection Hfirst as <-. split; [exact Hdeb|]. split; [exact Hp|].
    intros st2 Hstep.
    by destruct (Hfire (PassTo 2150) 2150%Z st2 eq_refl
                   ltac:(simpl; unfold debounceMs; lia) Hstep) as (-> & _).
Defined.

(** C5 as stated fails.  Two writes of the marker are notified 300 ms apart,
    and a tick of the fallback scan falls between them: the check of the scan
    dispatches the first write, the debounced check the second, two
    notifications in all.  And when a change notification leaves the
    modification time at the value already handled, the debounced check of
    its burst dispatches nothing. *)
Lemma burst_need_not_dispatch_once :
  (λ st, notifications (effects (sys_world st)))
    <$> sysRun (host := exampleHost) twoWritesRun initialSys
  = Some [("Cascade", "one"); ("Cascade", "two")]
  ∧ ∃ handled after,
      sysRun (host := exampleHost) handledRun initialSys = Some handled
      ∧ lastHandled (sys_world handled) !! "/repo/.handoff/notify-cascade"
        = Some 1000%Q
      ∧ sysRun (host := exampleHost) touchedRun handled = Some after
      ∧ sys_checks after = [Over; Over]
      ∧ notifications (effects (sys_world after))
        = notifications (effects (sys_world handled)).
Proof.
  split; [vm_compute; reflexivity|].
  eexists. eexists. split; [vm_compute; reflexivity|].
  split; [vm_compute; reflexivity|].
  split; [vm_compute; reflexivity|].
  split; vm_compute; reflexivity.
Qed.

(** The directory is empty at the start; [notify-cascade] is created with
    the content ["ping"]; after the debounce window and one fallback scan,
    exactly one notification has been dispatched. *)
Example created_marker_notifies_once :
  (λ st, notifications (effects (sys_world st)))
    <$> sysRun (host := exampleHost)
          [ WatchAt 1000 (Some "notify-cascade");
            WatchAt 1010 (Some "notify-cascade");
            PassTo 1760;
            StatAnswer 0 (StatOk 1000);
            ReadAnswer 0 (ReadOk "ping");
            ScanAt 5000;
            StatAnswer 1 (StatOk 1000);
            StatAnswer 2 (StatErr ENOENT) ]
          initialSys
  = Some [("Cascade", "ping")].
Proof. vm_compute. reflexivity. Qed.

(** The first answer of the remote is a baseline; the second, with another
    fingerprint, is dispatched with its decoded content. *)
Example remote_change_notifies_once :
  notifications
    (emitted
       (pollGitHub (host := exampleHost) (answer (fileAnswer "abc123" None));;
        pollGitHub (host := exampleHost)
          (λ url, if String.eqb url (contents_url "notify-replit")
                  then fileAnswer "def456" (Some "cG9uZw==")
                  else fileAnswer "abc123" None))
       initialWorld)
  = [("Replit", "pong")].
Proof. vm_compute. reflexivity. Qed.

(* ===================================================================== *)
(** ** One tick of the poller *)
(* ===================================================================== *)

Lemma append_inj_r (a b s : string) : a +:+ s = b +:+ s → a = b.
Proof.
  intros H.
  assert (Hrev : Str.rev s +:+ Str.rev a = Str.rev s +:+ Str.rev b)
    by (by rewrite <- !rev_app, H).
  apply append_inj_l in Hrev.
  by rewrite <- (rev_involutive a), <- (rev_involutive b), Hrev.
Qed.

Lemma contents_url_inj (a b : string) : contents_url a = contents_url b → a = b.
Proof.
  unfold contents_url. intros H.
  apply append_inj_l in H. apply append_inj_l in H. apply append_inj_l in H.
  by apply append_inj_r in H.
Qed.

Section PollTick.
Context {host : Host}.

(** A throw in the iteration for the first signal ends the loop. *)
Lemma pollGitHub_run net w :
  pollGitHub net w =
  match completion (pollTarget net cascade) w with
  | Throw e => (Throw e, exec (pollTarget net cascade) w)
  | _ =>
      (completion (pollTarget net replit) (exec (pollTarget net cascade) w),
       exec (pollTarget net replit) (exec (pollTarget net cascade) w))
  end.
Proof.
  unfold pollGitHub, TARGETS. cbn [pollTargets]. fold cascade replit.
  pose proof (pollTarget_completion net cascade w) as Hc.
  unfold completion, exec in *. unfold mbind, Js_bind, mret, Js_ret.
  destruct (pollTarget net cascade w) as [c1 w1]. cbn [fst snd] in *.
  destruct c1 as [[]| |e].
  - by destruct (pollTarget net replit w1) as [[[]| |e] w2].
  - exfalso. revert Hc. destruct (fetchResult _); [|done]. cbv zeta.
    destruct (strictEq _ _); [done|]. destruct (truthy _); [done|].
    by destruct (sliceOf _).
  - done.
Qed.

Lemma pollGitHub_exec net w :
  exec (pollGitHub net) w = exec (pollTarget net cascade) w
  ∨ exec (pollGitHub net) w
    = exec (pollTarget net replit) (exec (pollTarget net cascade) w).
Proof.
  unfold exec at 1 3. rewrite pollGitHub_run.
  destruct (completion (pollTarget net cascade) w); auto.
Qed.






(** X2. The two channels keep apart.  A tick of the poller, whether it
    completes or throws, leaves [lastHandled], the [timers] map, the
    pending timeouts and the clock as they were, and writes [lastGitHubSha]
    under the names of the registry only.  A step of a local check leaves
    [lastGitHubSha], the [timers] map and the pending timeouts as they were,
    and writes [lastHandled] under the paths of the registry only.  Two
    signals never share a marker path or a URL: equal paths or URLs mean
    equal names. *)
Theorem channels_keep_apart :
  (∀ net w,
     lastHandled (exec (pollGitHub net) w) = lastHandled w
     ∧ timers (exec (pollGitHub net) w) = timers w
     ∧ pendingTimeouts (exec (pollGitHub net) w) = pendingTimeouts w
     ∧ now (exec (pollGitHub net) w) = now w
     ∧ ∀ k, Forall (λ t, name t ≠ k) TARGETS →
         lastGitHubSha (exec (pollGitHub net) w) !! k = lastGitHubSha w !! k)
  ∧ (∀ ev w tasks w' tasks',
       localStep ev (w, tasks) = Some (w', tasks') →
       lastGitHubSha w' = lastGitHubSha w
       ∧ timers w' = timers w
       ∧ pendingTimeouts w' = pendingTimeouts w
       ∧ ∀ p, ofRegistry tasks → Forall (λ t, localPath t ≠ p) TARGETS →
           lastHandled w' !! p = lastHandled w !! p)
  ∧ (∀ x y : Target, localPath x = localPath y ↔ name x = name y)
  ∧ (∀ x y : Target,
       contents_url (name x) = contents_url (name y) ↔ name x = name y).
Proof.
  split; [|split; [|split]].
  - intros net w.
    destruct (pollTarget_frame net cascade w) as (A1 & A2 & A3 & _ & A5).
    destruct (pollTarget_frame net replit (exec (pollTarget net cascade) w))
      as (B1 & B2 & B3 & _ & B5).
    assert (Hkeys : ∀ k, Forall (λ t, name t ≠ k) TARGETS →
              lastGitHubSha (exec (pollTarget net cascade) w) !! k
              = lastGitHubSha w !! k
              ∧ lastGitHubSha
                  (exec (pollTarget net replit) (exec (pollTarget net cascade) w))
                  !! k = lastGitHubSha w !! k).
    { intros k Hk. unfold TARGETS in Hk.
      apply Forall_cons in Hk as [Hc Hk]. apply Forall_cons in Hk as [Hr _].
      rewrite !pollTarget_other_key by done. done. }
    destruct (pollGitHub_exec net w) as [-> | ->].
    + repeat split; try done. intros k Hk. by apply Hkeys.
    + rewrite B1, B2, B3, B5. repeat split; try done.
      intros k Hk. by apply Hkeys.
  - intros ev w tasks w' tasks' Hstep.
    destruct (localStep_runtime ev w tasks w' tasks' Hstep)
      as (E1 & _ & E3 & _ & E5).
    split; [done|]. split; [done|]. split; [done|].
    intros p Hreg Hp. destruct ev as [x| |i r|i r].
    + by injection Hstep as <- <-.
    + by injection Hstep as <- <-.
    + apply localStep_stat in Hstep as (x & Hi & Heq).
      assert (Hx : localPath x ≠ p).
      { eapply Forall_forall in Hp; [exact Hp|]. by eapply ofRegistry_lookup. }
      destruct r as [m|e]; [destruct (Qle_bool m _)|destruct (is_ENOENT e)];
        injection Heq as -> ->; try done.
      simpl. by rewrite lookup_insert_ne.
    + apply localStep_read in Hstep as (x & Hi & Heq). by injection Heq as -> ->.
  - intros x y. unfold localPath. split; [apply path_join_inj|by intros ->].
  - intros x y. split; [apply contents_url_inj|by intros ->].
Qed.

End PollTick.


(* ===================================================================== *)
(** ** The contexts are trimmed *)
(* ===================================================================== *)

Section Contexts.
Context {host : Host}.

Lemma fetchResult_trimmed out f :
  fetchResult out = Some f →
  startsWs (file_content f) = false
  ∧ endsWs (file_content f) = false
  ∧ Str.trim (file_content f) = file_content f.
Proof.
  unfold fetchResult, fileOf, contentOf.
  destruct out as [e|resp]; [done|].
  destruct (ok resp); [|done].
  destruct (json resp) as [e|data]; [done|].
  destruct (propOf data "sha") as [sha|]; [|done].
  destruct (propOf data "content") as [content|]; [|done].
  destruct (truthy content); [|by intros [= <-]].
  destruct content as [| |b|n|s|items|fields]; try done.
  - intros [= <-]. apply trimmed.
  - destruct (bufferToUtf8 _); [|done]. intros [= <-]. apply trimmed.
  - destruct (bufferToUtf8 _); [|done]. intros [= <-]. apply trimmed.
Qed.

(** X12. Every context handed to the dispatcher, by a local check or by an
    iteration of the poll, is trimmed: it neither begins nor ends with white
    space, and trimming it again changes nothing.  (When the read fails, or
    the remote content is absent, it is the empty string.) *)
Theorem dispatched_contexts_are_trimmed (target : Target) (io : LocalIO)
    (net : string → FetchOutcome) (w : World) (fromAgent context : string) :
  (fromAgent, context) ∈ notifications (emitted (handleLocalFlag target io) w)
  ∨ (fromAgent, context) ∈ notifications (emitted (pollTarget net target) w) →
  fromAgent = agent target
  ∧ startsWs context = false
  ∧ endsWs context = false
  ∧ Str.trim context = context.
Proof.
  intros [Hin|Hin].
  - rewrite handleLocalFlag_notifications in Hin.
    destruct (io_stat io) as [m|e]; [|by apply elem_of_nil in Hin].
    destruct (Qle_bool m _); [by apply elem_of_nil in Hin|].
    apply list_elem_of_singleton in Hin. injection Hin as -> ->.
    split; [done|]. unfold localContext.
    destruct (io_read io) as [text|e]; [apply trimmed|done].
  - rewrite pollTarget_notifications in Hin.
    destruct (fetchResult _) as [f|] eqn:Hf; [|by apply elem_of_nil in Hin].
    cbv zeta in Hin.
    destruct (strictEq _ _); [by apply elem_of_nil in Hin|].
    destruct (truthy _); [|by apply elem_of_nil in Hin].
    apply list_elem_of_singleton in Hin. injection Hin as -> ->.
    split; [done|]. exact (fetchResult_trimmed _ f Hf).
Qed.

End Contexts.

Lemma dispatched_contexts_are_trimmed_witness :
  Str.trim "ping" = "ping".
Proof.
  eapply (dispatched_contexts_are_trimmed (host := exampleHost) cascade
            (mkLocalIO (StatOk 5)
               (ReadOk ("  ping " +:+ String (Str.byte 10) "")))
            (answer notFound) initialWorld "Cascade" "ping").
  left. vm_compute. apply list_elem_of_singleton. reflexivity.
Defined.

